(** * Open-addressing hash containers: HashMap, HashSet and their probing policies

    A shallow embedding of [include/policy.h], [include/hash_map.h] and
    [include/hash_set.h], the properties of the slot-resolution and
    rehashing engine that the specification states about them, and further
    properties of the public interface built on that engine.

    Conventions of the embedding.
    - [std::size_t] is a 64-bit unsigned integer: a value of [N] on which
      every arithmetic operation of the source is followed by [wrap].
    - A [std::vector] is a [list]; [v[i]] outside the vector, [x % 0] and the
      dereference of an empty [std::optional] are undefined behaviour in the
      source and yield [Undefined] here.
    - Loops that the source does not bound take a fuel argument and yield
      [Timeout] when it is used up.
    - [load_factor] divides in [float] (IEEE 754 binary32): the conversion
      of a [size_t] to [float] rounds to the nearest value with a 24-bit
      significand, ties to even ([round24]).  The quotient of the two
      converted values is kept exact: the table only compares it with 0.5,
      and rounding it to [float] does not change that comparison (of two
      [float]s [a], [b] with [2a < b], [b] is at least one unit in the last
      place above [2a], so [a / b] is below [0.5 - 2^-26] and rounds below
      0.5). *)

From Stdlib Require Import NArith ZArith QArith List Bool Lia.
From Stdlib Require String.
Import ListNotations.
Import String.StringSyntax.
Delimit Scope string_scope with string.

Set Implicit Arguments.

Local Open Scope N_scope.

(** ** Outcomes of a run of the source *)

Inductive result (A : Type) : Type :=
| Ok (a : A)
| Timeout
| Undefined.

Arguments Ok {A} a.
Arguments Timeout {A}.
Arguments Undefined {A}.

Definition bind {A B : Type} (r : result A) (f : A -> result B) : result B :=
  match r with
  | Ok a => f a
  | Timeout => Timeout
  | Undefined => Undefined
  end.

Notation "x <- r ;; k" := (bind r (fun x => k))
  (at level 61, r at next level, right associativity).
Notation "' p <- r ;; k" := (bind r (fun x => let p := x in k))
  (at level 61, p pattern, r at next level, right associativity).

(** ** [std::size_t] *)

Definition size_type := N.

Definition SIZE_MAX : N := 18446744073709551615.

Definition wrap (x : N) : size_type := x mod (SIZE_MAX + 1).

(** [--x] on a [size_t]. *)
Definition decr (x : size_type) : size_type := wrap (x + SIZE_MAX).

(** [a % b]; a zero divisor is undefined. *)
Definition umod (a b : size_type) : result size_type :=
  if b =? 0 then Undefined else Ok (a mod b).

(** ** [std::vector] *)

Definition vec_at {A : Type} (v : list A) (i : size_type) : result A :=
  match nth_error v (N.to_nat i) with
  | Some a => Ok a
  | None => Undefined
  end.

Fixpoint list_set {A : Type} (v : list A) (i : nat) (a : A) : list A :=
  match v, i with
  | [], _ => []
  | _ :: v', O => a :: v'
  | b :: v', S i' => b :: list_set v' i' a
  end.

Definition vec_size {A : Type} (v : list A) : size_type :=
  N.of_nat (length v).

Definition vec_set {A : Type} (v : list A) (i : size_type) (a : A)
  : result (list A) :=
  if i <? vec_size v then Ok (list_set v (N.to_nat i) a)
  else Undefined.

Definition vec_make {A : Type} (n : size_type) (a : A) : list A :=
  repeat a (N.to_nat n).

(** ** policy.h *)

Class CollisionPolicy (P : Type) : Type := {
  policy_make : size_type -> size_type -> P;
  policy_next : P -> result (P * size_type)
}.

Module LinearProbing.

Record t : Type := make { current : size_type; mod_ : size_type }.

(** [operator++]: [current = (current + 1) % mod; return current;] *)
Definition next (p : t) : result (t * size_type) :=
  c <- umod (wrap (current p + 1)) (mod_ p) ;;
  Ok (make c (mod_ p), c).

End LinearProbing.

Module QuadraticProbing.

Record t : Type :=
  mk { current : size_type; mod_ : size_type; step_number : size_type }.

Definition make (start modulus : size_type) : t := mk start modulus 1.

(** [operator++]:
    [current = (current + step_number * step_number) % mod;
     ++step_number; return current;] *)
Definition next (p : t) : result (t * size_type) :=
  c <- umod (wrap (current p + wrap (step_number p * step_number p)))
            (mod_ p) ;;
  Ok (mk c (mod_ p) (wrap (step_number p + 1)), c).

End QuadraticProbing.

#[export] Instance LinearProbing_policy : CollisionPolicy LinearProbing.t :=
  {| policy_make := LinearProbing.make; policy_next := LinearProbing.next |}.

#[export] Instance QuadraticProbing_policy
  : CollisionPolicy QuadraticProbing.t :=
  {| policy_make := QuadraticProbing.make;
     policy_next := QuadraticProbing.next |}.

(** The candidate indices a policy produces: the start, then [n] advances. *)
Fixpoint candidates {P : Type} `{CollisionPolicy P}
  (n : nat) (p : P) (c : size_type) : result (list size_type) :=
  match n with
  | O => Ok [c]
  | S n' =>
      '(p', c') <- policy_next p ;;
      rest <- candidates n' p' c' ;;
      Ok (c :: rest)
  end.

(** The policy after [n] advances. *)
Fixpoint advance {P : Type} `{CollisionPolicy P} (n : nat) (p : P)
  : result P :=
  match n with
  | O => Ok p
  | S n' =>
      p' <- advance n' p ;;
      '(p'', _) <- policy_next p' ;;
      Ok p''
  end.

(** [1 + 4 + 9 + ... + n * n] *)
Fixpoint sum_squares (n : nat) : N :=
  match n with
  | O => 0
  | S n' => sum_squares n' + N.of_nat n * N.of_nat n
  end.

(** ** [float] values of [load_factor] *)

Inductive float_val : Type :=
| FNum (q : Q)
| FInf
| FNaN.

(** [static_cast<float>(n)] for an unsigned [n], as the integer it denotes:
    [n] itself below 2^24, else its 24 leading bits rounded to nearest, ties
    to even, and scaled back. *)
Definition round24 (n : N) : N :=
  if n <? 2 ^ 24 then n
  else
    let sh := N.log2 n - 23 in
    let q := n / 2 ^ sh in
    let r := n mod 2 ^ sh in
    let half := 2 ^ (sh - 1) in
    let q' := if (half <? r) || ((r =? half) && N.odd q) then q + 1 else q in
    q' * 2 ^ sh.

(** [a / static_cast<float>(b)] for unsigned [a] and [b]; [a] is converted
    to [float] as well. *)
Definition fdiv (a b : size_type) : float_val :=
  if b =? 0 then (if a =? 0 then FNaN else FInf)
  else FNum (Z.of_N (round24 a) # Z.to_pos (Z.of_N (round24 b))).

(** [x >= q]; a comparison with NaN is false. *)
Definition fge (x : float_val) (q : Q) : bool :=
  match x with
  | FNum v => Qle_bool q v
  | FInf => true
  | FNaN => false
  end.

(** ** hash_map.h and hash_set.h: the table

    [HashMap<Key, T, CollisionPolicy, Hash, Equal>] and
    [HashSet<Key, CollisionPolicy, Hash, Equal>] have the same members and the
    same member functions, statement for statement; they differ in what a
    slot stores ([std::pair<const Key, T>] or [Key]) and so in how the key of
    a stored entry is read ([hash_map[i]->first] or [*hash_set[i]]).  The
    section below is that common code over the stored [value_type] and its
    key projection; [HashMap] and [HashSet] instantiate it. *)

Section Table.

Variables Key value_type : Type.
Variable entry_key : value_type -> Key.
Variable hasher : Key -> size_type.
Variable key_equal : Key -> Key -> bool.
Context {P : Type} {policy : CollisionPolicy P}.

(** The data members, in the order of declaration: [map_size]/[set_size],
    [map_max_size]/[set_max_size], [hash_map]/[hash_set], [deleted],
    [first_ind]. *)
Record table : Type := mkTable {
  t_size : size_type;
  t_max_size : size_type;
  t_slots : list (option value_type);
  t_deleted : list bool;
  first_ind : size_type
}.

(** [explicit HashMap(size_type expected_max_size = 0, ...)] *)
Definition construct (expected_max_size : size_type) : table :=
  {| t_size := 0;
     t_max_size := expected_max_size;
     t_slots := vec_make (wrap (expected_max_size * 2)) None;
     t_deleted := vec_make (wrap (expected_max_size * 2)) true;
     first_ind := wrap (expected_max_size * 2) |}.

Definition empty (t : table) : bool := t_size t =? 0.
Definition size (t : table) : size_type := t_size t.
Definition max_size (t : table) : size_type := t_max_size t.
Definition bucket_count (t : table) : size_type := wrap (t_max_size t * 2).

(** [begin()] and [end()]: an iterator is its [current] index; the two
    vectors it points to are those of the table it is used with. *)
Definition begin_ (t : table) : size_type := first_ind t.
Definition end_ (t : table) : size_type := wrap (t_max_size t * 2).

(** [return max_size() ? size() / static_cast<float>(bucket_count()) : 1;] *)
Definition load_factor (t : table) : float_val :=
  if max_size t =? 0 then FNum 1 else fdiv (size t) (bucket_count t).

Definition max_load_factor : Q := 1 # 2.

(** [clear()] *)
Definition clear (t : table) : table :=
  {| t_size := 0;
     t_max_size := t_max_size t;
     t_slots := vec_make (wrap (t_max_size t * 2)) None;
     t_deleted := vec_make (wrap (t_max_size t * 2)) true;
     first_ind := 0 |}.

(** The [while] loop of [find_index]:
    [while (hash_map[current_ind] && (!deleted[current_ind] || !insert)
            && !map_equal(hash_map[current_ind]->first, key))
       current_ind = ++policy;] *)
Fixpoint probe_loop (fuel : nat) (t : table) (key : Key) (insert : bool)
  (pol : P) (current_ind : size_type) : result size_type :=
  match fuel with
  | O => Timeout
  | S fuel' =>
      slot <- vec_at (t_slots t) current_ind ;;
      match slot with
      | None => Ok current_ind
      | Some e =>
          d <- vec_at (t_deleted t) current_ind ;;
          if (negb d || negb insert) && negb (key_equal (entry_key e) key)
          then
            '(pol', next) <- policy_next pol ;;
            probe_loop fuel' t key insert pol' next
          else Ok current_ind
      end
  end.

(** [find_index(key, insert)] *)
Definition find_index (fuel : nat) (t : table) (key : Key) (insert : bool)
  : result size_type :=
  if (vec_size (t_slots t) =? 0) && negb insert
  then Ok (wrap (t_max_size t * 2))
  else
    current_ind <- umod (hasher key) (vec_size (t_slots t)) ;;
    i <- probe_loop fuel t key insert
           (policy_make current_ind (vec_size (t_slots t))) current_ind ;;
    if insert then Ok i
    else
      slot <- vec_at (t_slots t) i ;;
      match slot with
      | None => Ok (wrap (t_max_size t * 2))
      | Some e =>
          d <- vec_at (t_deleted t) i ;;
          if negb d && key_equal (entry_key e) key then Ok i
          else Ok (wrap (t_max_size t * 2))
      end.

(** [find(key)]: the iterator returned has [current = find_index(key, false)]
    on both branches, [end()] being [iterator(.., map_max_size * 2)]. *)
Definition find (fuel : nat) (t : table) (key : Key) : result size_type :=
  find_ind <- find_index fuel t key false ;;
  if find_ind =? wrap (t_max_size t * 2) then Ok (end_ t) else Ok find_ind.

(** [contains(key)]: [find(key) != cend()] *)
Definition contains (fuel : nat) (t : table) (key : Key) : result bool :=
  it <- find fuel t key ;;
  Ok (negb (it =? end_ t)).

(** The loop of the iterator's [operator++], entered after the first
    [++current]:
    [while (current < size() && (!this_map[current] || deleted[current]))
       ++current;]
    It stops within [size()] rounds, which is the bound given to it. *)
Fixpoint skip_loop (n : nat) (t : table) (current : size_type)
  : result size_type :=
  match n with
  | O => Ok current
  | S n' =>
      if current <? vec_size (t_slots t) then
        slot <- vec_at (t_slots t) current ;;
        match slot with
        | None => skip_loop n' t (wrap (current + 1))
        | Some _ =>
            d <- vec_at (t_deleted t) current ;;
            if d then skip_loop n' t (wrap (current + 1)) else Ok current
        end
      else Ok current
  end.

(** Iterator [operator++] *)
Definition iterator_incr (t : table) (current : size_type)
  : result size_type :=
  skip_loop (S (length (t_slots t))) t (wrap (current + 1)).

(** Iterator dereference *)
Definition iterator_deref (t : table) (current : size_type)
  : result value_type :=
  slot <- vec_at (t_slots t) current ;;
  match slot with
  | Some e => Ok e
  | None => Undefined
  end.

(** [for (it = begin(); it != end(); ++it) ... *it ...] *)
Fixpoint iterate_from (fuel : nat) (t : table) (it : size_type)
  : result (list value_type) :=
  if it =? end_ t then Ok []
  else
    match fuel with
    | O => Timeout
    | S fuel' =>
        e <- iterator_deref t it ;;
        it' <- iterator_incr t it ;;
        rest <- iterate_from fuel' t it' ;;
        Ok (e :: rest)
    end.

Definition iterate (fuel : nat) (t : table) : result (list value_type) :=
  iterate_from fuel t (begin_ t).

(** [update_after_insert(to_update)] *)
Definition update_after_insert (t : table) (to_update : size_type)
  : result table :=
  d <- vec_set (t_deleted t) to_update false ;;
  Ok {| t_size := wrap (t_size t + 1);
        t_max_size := t_max_size t;
        t_slots := t_slots t;
        t_deleted := d;
        first_ind := if empty t then to_update
                     else N.min (first_ind t) to_update |}.

(** The [for] loop of [rehash] over the old vectors: every slot that holds
    an entry and is not marked deleted is emplaced into the new table. *)
Fixpoint migrate (emplace : table -> value_type -> result table)
  (temp_map : list (option value_type)) (temp_deleted : list bool)
  (t : table) : result table :=
  match temp_map with
  | [] => Ok t
  | None :: temp_map' => migrate emplace temp_map' (tl temp_deleted) t
  | Some e :: temp_map' =>
      match temp_deleted with
      | [] => Undefined
      | true :: temp_deleted' => migrate emplace temp_map' temp_deleted' t
      | false :: temp_deleted' =>
          t' <- emplace t e ;;
          migrate emplace temp_map' temp_deleted' t'
      end
  end.

(** The [new_size] that [rehash(count)] chooses. *)
Definition rehash_new_size (count : size_type) (t : table) : size_type :=
  if (count =? 0) && (vec_size (t_slots t) =? 0) then 2
  else if count <? wrap (size t * 2) then wrap (wrap (size t * 2) + 2)
  else wrap (count + 1).

(** [rehash(count)], over the [emplace] it calls. *)
Definition rehash_with (emplace : table -> value_type -> result table)
  (count : size_type) (t : table) : result table :=
  let new_size := rehash_new_size count t in
  migrate emplace (t_slots t) (t_deleted t)
    {| t_size := 0;
       t_max_size := new_size;
       t_slots := vec_make (wrap (new_size * 2)) None;
       t_deleted := vec_make (wrap (new_size * 2)) true;
       first_ind := wrap (new_size * 2) |}.

(** [check_fullness()], over the [emplace] that [rehash] calls. *)
Definition check_fullness_with
  (emplace : table -> value_type -> result table) (t : table)
  : result table :=
  if fge (load_factor t) max_load_factor
  then rehash_with emplace (wrap (t_max_size t * 2)) t
  else Ok t.

(** What [emplace_impl] (and [HashSet::insert], [HashSet::emplace]) does
    after [check_fullness()]. *)
Definition place (fuel : nat) (t : table) (value : value_type)
  : result (table * (size_type * bool)) :=
  insert_ind <- find_index fuel t (entry_key value) true ;;
  slot <- vec_at (t_slots t) insert_ind ;;
  free <- match slot with
          | None => Ok true
          | Some _ => vec_at (t_deleted t) insert_ind
          end ;;
  if (free : bool) then
    s <- vec_set (t_slots t) insert_ind (Some value) ;;
    t' <- update_after_insert
            {| t_size := t_size t;
               t_max_size := t_max_size t;
               t_slots := s;
               t_deleted := t_deleted t;
               first_ind := first_ind t |} insert_ind ;;
    Ok (t', (insert_ind, true))
  else Ok (t, (insert_ind, false)).

(** [emplace_impl(value)]; [insert] and [emplace] forward to it.  The
    recursion is the one of the source: [emplace_impl] calls
    [check_fullness], which calls [rehash], which calls [emplace]. *)
Fixpoint emplace_impl (fuel : nat) (t : table) (value : value_type)
  : result (table * (size_type * bool)) :=
  match fuel with
  | O => Timeout
  | S fuel' =>
      t1 <- check_fullness_with
              (fun t0 e => '(t', _) <- emplace_impl fuel' t0 e ;; Ok t') t ;;
      place fuel t1 value
  end.

Definition emplace := emplace_impl.
Definition insert := emplace_impl.

(** [rehash(count)] *)
Definition rehash (fuel : nat) (count : size_type) (t : table)
  : result table :=
  rehash_with (fun t0 e => '(t', _) <- emplace fuel t0 e ;; Ok t') count t.

(** [check_fullness()] *)
Definition check_fullness (fuel : nat) (t : table) : result table :=
  check_fullness_with
    (fun t0 e => '(t', _) <- emplace fuel t0 e ;; Ok t') t.

(** [reserve(count)] *)
Definition reserve (fuel : nat) (count : size_type) (t : table)
  : result table :=
  if wrap (wrap (size t * 2) + 2) <? count then rehash fuel count t
  else Ok t.

(** [erase(const_iterator pos)] *)
Definition erase_pos (t : table) (pos : size_type)
  : result (table * size_type) :=
  slot <- vec_at (t_slots t) pos ;;
  match slot with
  | None => Ok (t, pos)
  | Some _ =>
      d <- vec_set (t_deleted t) pos true ;;
      let t1 := {| t_size := decr (t_size t);
                   t_max_size := t_max_size t;
                   t_slots := t_slots t;
                   t_deleted := d;
                   first_ind := first_ind t |} in
      it <- iterator_incr t1 pos ;;
      Ok ({| t_size := t_size t1;
             t_max_size := t_max_size t1;
             t_slots := t_slots t1;
             t_deleted := t_deleted t1;
             first_ind := if pos =? first_ind t1 then it
                          else first_ind t1 |}, it)
  end.

(** [erase(const key_type & key)] *)
Definition erase (fuel : nat) (t : table) (key : Key)
  : result (table * size_type) :=
  it <- find fuel t key ;;
  if negb (it =? end_ t) then
    '(t', _) <- erase_pos t it ;;
    Ok (t', 1)
  else Ok (t, 0).

(** Where the probing loop stops: at an empty slot, or at an occupied one
    that fails the loop condition. *)
Definition stops_at (t : table) (key : Key) (ins : bool) (i : size_type)
  : Prop :=
  vec_at (t_slots t) i = Ok None
  \/ exists e d,
      vec_at (t_slots t) i = Ok (Some e)
      /\ vec_at (t_deleted t) i = Ok d
      /\ (negb d || negb ins) && negb (key_equal (entry_key e) key) = false.

(** The [emplace] that [rehash] runs for every migrated entry. *)
Definition emplace_in (fuel : nat) (t : table) (e : value_type)
  : result table :=
  '(t', _) <- emplace_impl fuel t e ;; Ok t'.

End Table.

Arguments construct {value_type} expected_max_size.

(** ** The vocabulary of the specification *)

Section Vocabulary.

Variables Key value_type : Type.
Variable entry_key : value_type -> Key.

(** A slot is live when it holds an entry and is not marked deleted. *)
Definition is_live (slot : option value_type) (d : bool) : bool :=
  match slot with
  | Some _ => negb d
  | None => false
  end.

Definition live_at (t : table value_type) (i : nat) (e : value_type)
  : Prop :=
  nth_error (t_slots t) i = Some (Some e)
  /\ nth_error (t_deleted t) i = Some false.

Definition tombstone_at (t : table value_type) (i : nat) : Prop :=
  (exists e, nth_error (t_slots t) i = Some (Some e))
  /\ nth_error (t_deleted t) i = Some true.

Fixpoint live_entries_of (slots : list (option value_type))
  (deleted : list bool) : list value_type :=
  match slots, deleted with
  | Some e :: slots', false :: deleted' =>
      e :: live_entries_of slots' deleted'
  | _ :: slots', _ :: deleted' => live_entries_of slots' deleted'
  | _, _ => []
  end.

(** The live entries in slot order, and the live keys. *)
Definition live_entries (t : table value_type) : list value_type :=
  live_entries_of (t_slots t) (t_deleted t).

Definition live_keys (t : table value_type) : list Key :=
  map entry_key (live_entries t).

Definition live_count (t : table value_type) : nat :=
  length (live_entries t).

Definition physical_length (t : table value_type) : nat :=
  length (t_slots t).

(** The index of the first live slot, or the number of slots when none is
    live. *)
Fixpoint first_live (slots : list (option value_type)) (deleted : list bool)
  : nat :=
  match slots, deleted with
  | slot :: slots', d :: deleted' =>
      if is_live slot d then O else S (first_live slots' deleted')
  | _, _ => length slots
  end.

(** The index of the first live slot from [c] on. *)
Definition next_live (slots : list (option value_type))
  (deleted : list bool) (c : nat) : nat :=
  (c + first_live (skipn c slots) (skipn c deleted))%nat.

(** [first_ind] is the first live index, or the end sentinel. *)
Definition first_ind_ok (t : table value_type) : Prop :=
  first_ind t = N.of_nat (first_live (t_slots t) (t_deleted t)).

(** The test of [check_fullness] fails: the table takes one more entry
    without a rehash. *)
Definition has_room (t : table value_type) : Prop :=
  fge (load_factor t) max_load_factor = false.

(** Uniqueness: no key is held by two live slots. *)
Definition unique_live_keys (t : table value_type) : Prop :=
  forall i j e1 e2,
    live_at t i e1 -> live_at t j e2 ->
    entry_key e1 = entry_key e2 -> i = j.

End Vocabulary.

(** ** The representation invariant

    The two vectors have the length [2 * max_size], which fits a [size_t];
    [size] counts the live slots and does not exceed [max_size]. *)

Record wf {value_type : Type} (t : table value_type) : Prop := mk_wf {
  wf_range : 2 * t_max_size t <= SIZE_MAX;
  wf_slots : length (t_slots t) = N.to_nat (2 * t_max_size t);
  wf_deleted : length (t_deleted t) = length (t_slots t);
  wf_size : t_size t = N.of_nat (live_count t);
  wf_load : t_size t <= t_max_size t
}.

(** ** Histories of operations *)

Section History.

Variables Key value_type : Type.
Variable entry_key : value_type -> Key.
Variable hasher : Key -> size_type.
Variable key_equal : Key -> Key -> bool.
Context {P : Type} {policy : CollisionPolicy P}.

Inductive op : Type :=
| Insert (value : value_type)
| Erase (key : Key).

Definition step (fuel : nat) (t : table value_type) (o : op)
  : result (table value_type) :=
  match o with
  | Insert value =>
      '(t', _) <- insert entry_key hasher key_equal fuel t value ;; Ok t'
  | Erase key =>
      '(t', _) <- erase entry_key hasher key_equal fuel t key ;; Ok t'
  end.

Fixpoint run (fuel : nat) (t : table value_type) (ops : list op)
  : result (table value_type) :=
  match ops with
  | [] => Ok t
  | o :: ops' => t' <- step fuel t o ;; run fuel t' ops'
  end.

(** The states a table constructed with capacity hint [n] reaches by
    insertions and erasures. *)
Definition reachable_from (n : size_type) (t : table value_type) : Prop :=
  exists fuel ops, run fuel (construct n) ops = Ok t.

End History.

Arguments Insert {Key value_type} value.
Arguments Erase {Key value_type} key.

(** ** The two containers *)

Module HashMap.

Section Defs.

Variables Key T : Type.
Variable hasher : Key -> size_type.
Variable key_equal : Key -> Key -> bool.
Context {P : Type} {policy : CollisionPolicy P}.

Definition value_type : Type := Key * T.
Definition t : Type := table value_type.

Definition find_index := find_index (@fst Key T) hasher key_equal (P := P).
Definition find := find (@fst Key T) hasher key_equal (P := P).
Definition emplace_impl :=
  emplace_impl (@fst Key T) hasher key_equal (P := P).
Definition insert := insert (@fst Key T) hasher key_equal (P := P).
Definition erase := erase (@fst Key T) hasher key_equal (P := P).
Definition rehash := rehash (@fst Key T) hasher key_equal (P := P).
Definition run := run (@fst Key T) hasher key_equal (P := P).

End Defs.

End HashMap.

Module HashSet.

Section Defs.

Variable Key : Type.
Variable hasher : Key -> size_type.
Variable key_equal : Key -> Key -> bool.
Context {P : Type} {policy : CollisionPolicy P}.

Definition value_type : Type := Key.
Definition t : Type := table value_type.

Definition find_index :=
  find_index (fun k : Key => k) hasher key_equal (P := P).
Definition find := find (fun k : Key => k) hasher key_equal (P := P).
Definition insert := insert (fun k : Key => k) hasher key_equal (P := P).
Definition emplace := emplace (fun k : Key => k) hasher key_equal (P := P).
Definition erase := erase (fun k : Key => k) hasher key_equal (P := P).
Definition rehash := rehash (fun k : Key => k) hasher key_equal (P := P).
Definition run := run (fun k : Key => k) hasher key_equal (P := P).

End Defs.

End HashSet.

(** ** Concrete containers used to run the code

    [HashMap<size_t, size_t>] and [HashSet<size_t>] with the default
    [LinearProbing], a hash that returns its argument and [==] on keys. *)

Module Run.

Definition hash_id (k : size_type) : size_type := k.

Definition map_run :=
  HashMap.run (T := N) hash_id N.eqb (P := LinearProbing.t).
Definition map_find :=
  HashMap.find (T := N) hash_id N.eqb (P := LinearProbing.t).
Definition map_erase :=
  HashMap.erase (T := N) hash_id N.eqb (P := LinearProbing.t).
Definition map_insert :=
  HashMap.insert (T := N) hash_id N.eqb (P := LinearProbing.t).
Definition map_rehash :=
  HashMap.rehash (T := N) hash_id N.eqb (P := LinearProbing.t).

Definition set_run := HashSet.run hash_id N.eqb (P := LinearProbing.t).
Definition set_find := HashSet.find hash_id N.eqb (P := LinearProbing.t).
Definition set_erase := HashSet.erase hash_id N.eqb (P := LinearProbing.t).
Definition set_insert := HashSet.insert hash_id N.eqb (P := LinearProbing.t).
Definition set_rehash := HashSet.rehash hash_id N.eqb (P := LinearProbing.t).

(** Keys 0 and 4 share the start slot 0 of a table of four slots: insert
    both, erase the first, insert the second again. *)
Definition map_reinsert : list (op N (N * N)) :=
  [Insert (0, 10); Insert (4, 40); Erase 0; Insert (4, 41)].
Definition set_reinsert : list (op N N) :=
  [Insert 0; Insert 4; Erase 0; Insert 4].

(** Keys 3 and 7 share the start slot 3, the last of four, so that the
    second lands in slot 0: insert both, erase the first. *)
Definition map_wrapped : list (op N (N * N)) :=
  [Insert (3, 30); Insert (7, 71); Erase 3].

(** Four keys, one per slot of a table of four slots, each inserted and
    erased again. *)
Definition map_churn : list (op N (N * N)) :=
  [Insert (0, 10); Erase 0; Insert (1, 11); Erase 1;
   Insert (2, 12); Erase 2; Insert (3, 13); Erase 3].
Definition set_churn : list (op N N) :=
  [Insert 0; Erase 0; Insert 1; Erase 1;
   Insert 2; Erase 2; Insert 3; Erase 3].



End Run.

(** ** The rest of the public interface

    The members of [HashMap] and [HashSet] that the two classes share and
    that are built on [find], [insert], [erase] and the iterator. *)

Section Facade.

Variables Key value_type : Type.
Variable entry_key : value_type -> Key.
Variable hasher : Key -> size_type.
Variable key_equal : Key -> Key -> bool.
Context {P : Type} {policy : CollisionPolicy P}.

(** [count(key)] *)
Definition count (fuel : nat) (t : table value_type) (key : Key)
  : result size_type :=
  it <- find entry_key hasher key_equal fuel t key ;;
  if it =? end_ t then Ok 0 else Ok 1.

(** [bucket(key)]: [return map_hasher(key) % hash_map.size();] *)
Definition bucket (t : table value_type) (key : Key) : result size_type :=
  umod (hasher key) (vec_size (t_slots t)).

(** [insert(InputIt first, InputIt last)]:
    every element of the range is passed to [insert], in order. *)
Fixpoint insert_range (fuel : nat) (t : table value_type)
  (values : list value_type) : result (table value_type) :=
  match values with
  | [] => Ok t
  | value :: values' =>
      '(t', _) <- insert entry_key hasher key_equal fuel t value ;;
      insert_range fuel t' values'
  end.

(** [HashMap(InputIt first, InputIt last, size_type expected_max_size)],
    to which the constructor from an initializer list forwards. *)
Definition construct_range (fuel : nat) (values : list value_type)
  (expected_max_size : size_type) : result (table value_type) :=
  insert_range fuel (construct expected_max_size) values.

(** [erase(const_iterator first, const_iterator last)]:
    [for (it = first; it != last; ++it) erase(it); return it;] *)
Fixpoint erase_range (fuel : nat) (t : table value_type)
  (first last : size_type) : result (table value_type * size_type) :=
  if first =? last then Ok (t, first)
  else
    match fuel with
    | O => Timeout
    | S fuel' =>
        '(t', _) <- erase_pos t first ;;
        it <- iterator_incr t' first ;;
        erase_range fuel' t' it last
    end.

(** [equal_range(key)] *)
Definition equal_range (fuel : nat) (t : table value_type) (key : Key)
  : result (size_type * size_type) :=
  it <- find entry_key hasher key_equal fuel t key ;;
  if negb (it =? end_ t) then
    it' <- iterator_incr t it ;;
    Ok (it, it')
  else Ok (it, it).

(** The loop of [operator==] over [lhs]:
    [for (const auto & element : lhs)
       if (!rhs.contains(element.first)) return false;] *)
Fixpoint equal_from (fuel : nat) (lhs rhs : table value_type)
  (it : size_type) : result bool :=
  if it =? end_ lhs then Ok true
  else
    match fuel with
    | O => Timeout
    | S fuel' =>
        element <- iterator_deref lhs it ;;
        found <- contains entry_key hasher key_equal fuel rhs
                   (entry_key element) ;;
        if (found : bool) then
          it' <- iterator_incr lhs it ;;
          equal_from fuel' lhs rhs it'
        else Ok false
    end.

(** [operator==(lhs, rhs)] *)
Definition equal (fuel : nat) (lhs rhs : table value_type) : result bool :=
  if negb (size lhs =? size rhs) then Ok false
  else equal_from fuel lhs rhs (begin_ lhs).

End Facade.

(** The members that only [HashMap] has: they read or write the mapped
    value of an entry. *)

Section MapFacade.

Variables Key T : Type.
Variable hasher : Key -> size_type.
Variable key_equal : Key -> Key -> bool.
Context {P : Type} {policy : CollisionPolicy P}.

(** What [at(key)] gives: a reference to the mapped value, or the
    exception [std::out_of_range]. *)
Inductive access : Type :=
| Value (mapped : T)
| OutOfRange.

(** [at(key)] *)
Definition at_ (fuel : nat) (t : table (Key * T)) (key : Key)
  : result access :=
  it <- find (@fst Key T) hasher key_equal fuel t key ;;
  if negb (it =? end_ t) then
    e <- iterator_deref t it ;;
    Ok (Value (snd e))
  else Ok OutOfRange.

(** [try_emplace(key, args...)], [mapped] being the value that the
    arguments construct. *)
Definition try_emplace (fuel : nat) (t : table (Key * T)) (key : Key)
  (mapped : T) : result (table (Key * T) * (size_type * bool)) :=
  match fuel with
  | O => Timeout
  | S fuel' =>
      t1 <- check_fullness (@fst Key T) hasher key_equal fuel' t ;;
      insert_ind <- find_index (@fst Key T) hasher key_equal fuel t1 key
                      true ;;
      slot <- vec_at (t_slots t1) insert_ind ;;
      free <- match slot with
              | None => Ok true
              | Some _ => vec_at (t_deleted t1) insert_ind
              end ;;
      if (free : bool) then
        s <- vec_set (t_slots t1) insert_ind (Some (key, mapped)) ;;
        t' <- update_after_insert
                {| t_size := t_size t1;
                   t_max_size := t_max_size t1;
                   t_slots := s;
                   t_deleted := t_deleted t1;
                   first_ind := first_ind t1 |} insert_ind ;;
        Ok (t', (insert_ind, true))
      else Ok (t1, (insert_ind, false))
  end.

(** [operator[](key)]: [return try_emplace(key).first->second;], the mapped
    value being value-initialized ([default_value]) when the key is new. *)
Definition subscript (default_value : T) (fuel : nat) (t : table (Key * T))
  (key : Key) : result (table (Key * T) * T) :=
  '(t', (it, _)) <- try_emplace fuel t key default_value ;;
  e <- iterator_deref t' it ;;
  Ok (t', snd e).

(** [insert_or_assign(key, value)]:
    [auto pair = emplace(key, value);
     if (!pair.second) hash_map[pair.first.current]->second = value;
     return pair;] *)
Definition insert_or_assign (fuel : nat) (t : table (Key * T)) (key : Key)
  (value : T) : result (table (Key * T) * (size_type * bool)) :=
  '(t', (it, inserted)) <-
    emplace (@fst Key T) hasher key_equal fuel t (key, value) ;;
  if (inserted : bool) then Ok (t', (it, true))
  else
    slot <- vec_at (t_slots t') it ;;
    match slot with
    | None => Undefined
    | Some e =>
        s <- vec_set (t_slots t') it (Some (fst e, value)) ;;
        Ok ({| t_size := t_size t';
               t_max_size := t_max_size t';
               t_slots := s;
               t_deleted := t_deleted t';
               first_ind := first_ind t' |}, (it, false))
    end.

End MapFacade.

Arguments Value {T} mapped.
Arguments OutOfRange {T}.

(** ** More vocabulary *)

Section MoreVocabulary.

Variables Key value_type : Type.
Variable entry_key : value_type -> Key.

(** No slot is a tombstone: every slot that holds an entry is live. *)
Definition no_tombstones (t : table value_type) : Prop :=
  forall i e,
    nth_error (t_slots t) i = Some (Some e) ->
    nth_error (t_deleted t) i = Some false.

End MoreVocabulary.

Section WalkVocabulary.

Variables Key value_type : Type.
Variable entry_key : value_type -> Key.
Variable hasher : Key -> size_type.
Variable key_equal : Key -> Key -> bool.
Context {P : Type} {policy : CollisionPolicy P}.

(** The probing loop goes on from slot [i]: the slot is occupied and the
    loop condition holds. *)
Definition passes (t : table value_type) (key : Key) (ins : bool)
  (i : size_type) : Prop :=
  exists e d,
    vec_at (t_slots t) i = Ok (Some e)
    /\ vec_at (t_deleted t) i = Ok d
    /\ (negb d || negb ins) && negb (key_equal (entry_key e) key) = true.

(** Slot [i] is live and holds the key. *)
Definition hit (t : table value_type) (key : Key) (i : size_type) : Prop :=
  exists e,
    vec_at (t_slots t) i = Ok (Some e)
    /\ vec_at (t_deleted t) i = Ok false
    /\ key_equal (entry_key e) key = true.

(** The walk of a lookup of the key stops at a live slot that holds it. *)
Definition finds (fuel : nat) (t : table value_type) (key : Key) : Prop :=
  exists i,
    probe_loop entry_key key_equal fuel t key false
      (policy_make (hasher key mod vec_size (t_slots t))
         (vec_size (t_slots t)))
      (hasher key mod vec_size (t_slots t)) = Ok i
    /\ hit t key i.

(** Every live entry is found, at its own slot, by a lookup of its key. *)
Definition all_findable (fuel : nat) (t : table value_type) : Prop :=
  forall i e,
    live_at t i e ->
    find entry_key hasher key_equal fuel t (entry_key e) = Ok (N.of_nat i).

(** No two live slots hold keys that [key_equal] identifies. *)
Definition distinct_live_keys (t : table value_type) : Prop :=
  forall i j e1 e2,
    live_at t i e1 -> live_at t j e2 ->
    key_equal (entry_key e1) (entry_key e2) = true -> i = j.

(** [e] is the first element of [values] that has its key. *)
Definition first_with_key (e : value_type) (values : list value_type)
  : Prop :=
  exists before after,
    values = before ++ e :: after
    /\ forall x, In x before -> key_equal (entry_key x) (entry_key e) = false.

End WalkVocabulary.

(** * Properties *)

(** ** Outcomes, [size_t] and vectors *)

Lemma bind_Ok {A B : Type} (r : result A) (f : A -> result B) (b : B) :
  bind r f = Ok b -> exists a, r = Ok a /\ f a = Ok b.
Proof.
  destruct r as [a | |]; simpl; intro E; try discriminate.
  exists a; split; [reflexivity | exact E].
Qed.

Ltac split_and := repeat match goal with |- _ /\ _ => split end.

Ltac inv_bind E :=
  let a := fresh "x" in
  let Ea := fresh "E" in
  apply bind_Ok in E; destruct E as (a & Ea & E).

Lemma wrap_small (x : N) : x <= SIZE_MAX -> wrap x = x.
Proof.
  intro Hx. unfold wrap. apply N.mod_small. unfold SIZE_MAX in *. lia.
Qed.

Lemma wrap_bound (x : N) : wrap x <= SIZE_MAX.
Proof.
  unfold wrap.
  assert (H : x mod (SIZE_MAX + 1) < SIZE_MAX + 1)
    by (apply N.mod_lt; unfold SIZE_MAX; lia).
  lia.
Qed.

Lemma decr_succ (x : N) : x < SIZE_MAX -> decr (x + 1) = x.
Proof.
  intro Hx. unfold decr, wrap.
  replace (x + 1 + SIZE_MAX) with (x + 1 * (SIZE_MAX + 1)) by lia.
  rewrite N.Div0.mod_add. apply N.mod_small. lia.
Qed.

Lemma vec_at_Ok {A : Type} (v : list A) (i : size_type) (a : A) :
  vec_at v i = Ok a <-> nth_error v (N.to_nat i) = Some a.
Proof.
  unfold vec_at. destruct (nth_error v (N.to_nat i)); split; intro E;
    try discriminate; inversion E; reflexivity.
Qed.

Lemma vec_at_lt {A : Type} (v : list A) (i : size_type) (a : A) :
  vec_at v i = Ok a -> i < vec_size v.
Proof.
  intro E. apply vec_at_Ok in E.
  assert (H : (N.to_nat i < length v)%nat)
    by (apply nth_error_Some; rewrite E; discriminate).
  unfold vec_size. lia.
Qed.

Lemma vec_at_defined {A : Type} (v : list A) (i : size_type) :
  i < vec_size v -> exists a, vec_at v i = Ok a.
Proof.
  unfold vec_size. intro Hi.
  destruct (nth_error v (N.to_nat i)) as [a |] eqn:E.
  - exists a. apply vec_at_Ok. exact E.
  - apply nth_error_None in E. lia.
Qed.

Lemma list_set_length {A : Type} (v : list A) (i : nat) (a : A) :
  length (list_set v i a) = length v.
Proof.
  revert i. induction v as [| b v IH]; intros [| i]; simpl; auto.
Qed.

Lemma list_set_same {A : Type} (v : list A) (i : nat) (a : A) :
  (i < length v)%nat -> nth_error (list_set v i a) i = Some a.
Proof.
  revert i. induction v as [| b v IH]; intros [| i] Hi; simpl in *;
    try lia; auto.
  apply IH. lia.
Qed.

Lemma list_set_other {A : Type} (v : list A) (i j : nat) (a : A) :
  i <> j -> nth_error (list_set v i a) j = nth_error v j.
Proof.
  revert i j. induction v as [| b v IH]; intros [| i] [| j] Hij; simpl;
    auto; try congruence.
Qed.

Lemma vec_set_Ok {A : Type} (v : list A) (i : size_type) (a : A) (w : list A) :
  vec_set v i a = Ok w -> i < vec_size v /\ w = list_set v (N.to_nat i) a.
Proof.
  unfold vec_set. destruct (i <? vec_size v) eqn:E; intro H; inversion H.
  apply N.ltb_lt in E. auto.
Qed.

Lemma vec_set_defined {A : Type} (v : list A) (i : size_type) (a : A) :
  i < vec_size v -> vec_set v i a = Ok (list_set v (N.to_nat i) a).
Proof.
  intro Hi. unfold vec_set. apply N.ltb_lt in Hi. rewrite Hi. reflexivity.
Qed.

Lemma vec_make_length {A : Type} (n : size_type) (a : A) :
  length (vec_make n a) = N.to_nat n.
Proof. apply repeat_length. Qed.

Lemma nth_error_repeat_Some {A : Type} (a b : A) (n i : nat) :
  nth_error (repeat a n) i = Some b -> b = a.
Proof.
  intro E. apply nth_error_In in E. apply repeat_spec in E. exact E.
Qed.

Lemma nth_error_repeat_lt {A : Type} (a : A) (n i : nat) :
  (i < n)%nat -> nth_error (repeat a n) i = Some a.
Proof.
  intro Hi. destruct (nth_error (repeat a n) i) as [b |] eqn:E.
  - apply nth_error_repeat_Some in E. congruence.
  - apply nth_error_None in E. rewrite repeat_length in E. lia.
Qed.

(** ** Live entries under slot updates *)

Section LiveEntries.

Variable value_type : Type.

Lemma live_entries_fresh (n : nat) :
  live_entries_of (repeat (@None value_type) n) (repeat true n) = [].
Proof. induction n; simpl; auto. Qed.

(** Installing an entry into a slot that is not live adds one live slot. *)
Lemma live_length_install (slots : list (option value_type))
  (deleted : list bool) (i : nat) (slot : option value_type) (d : bool)
  (v : value_type) :
  nth_error slots i = Some slot ->
  nth_error deleted i = Some d ->
  is_live slot d = false ->
  length (live_entries_of (list_set slots i (Some v))
                          (list_set deleted i false))
  = S (length (live_entries_of slots deleted)).
Proof.
  revert deleted i.
  induction slots as [| s slots IH]; intros [| b deleted] [| i] Hs Hd Hl;
    simpl in *; try discriminate.
  - inversion Hs; inversion Hd; subst.
    destruct slot as [e |]; [destruct d |]; simpl in *;
      try discriminate; reflexivity.
  - specialize (IH deleted i Hs Hd Hl).
    destruct s as [e |]; [destruct b |]; simpl; rewrite IH; reflexivity.
Qed.

(** Marking a live slot deleted removes one live slot. *)
Lemma live_length_tombstone (slots : list (option value_type))
  (deleted : list bool) (i : nat) (e : value_type) :
  nth_error slots i = Some (Some e) ->
  nth_error deleted i = Some false ->
  S (length (live_entries_of slots (list_set deleted i true)))
  = length (live_entries_of slots deleted).
Proof.
  revert deleted i.
  induction slots as [| s slots IH]; intros [| b deleted] [| i] Hs Hd;
    simpl in *; try discriminate.
  - inversion Hs; inversion Hd; subst. reflexivity.
  - specialize (IH deleted i Hs Hd).
    destruct s as [e' |]; [destruct b |]; simpl; rewrite <- IH; reflexivity.
Qed.

Lemma live_length_le (slots : list (option value_type))
  (deleted : list bool) :
  (length (live_entries_of slots deleted) <= length slots)%nat.
Proof.
  revert deleted.
  induction slots as [| s slots IH]; intros [| b deleted]; simpl; try lia.
  - destruct s; simpl; lia.
  - specialize (IH deleted).
    destruct s as [e |]; [destruct b |]; simpl; lia.
Qed.

(** With fewer live slots than slots, some slot is not live. *)
Lemma not_all_live (slots : list (option value_type))
  (deleted : list bool) :
  length deleted = length slots ->
  (length (live_entries_of slots deleted) < length slots)%nat ->
  exists j slot d,
    nth_error slots j = Some slot /\ nth_error deleted j = Some d
    /\ is_live slot d = false.
Proof.
  revert deleted.
  induction slots as [| s slots IH]; intros [| b deleted] Hlen Hlt;
    simpl in *; try lia; try discriminate.
  destruct (is_live s b) eqn:El.
  - destruct s as [e |]; [destruct b |]; simpl in *; try discriminate.
    destruct (IH deleted) as (j & slot & d & H1 & H2 & H3); [lia | lia |].
    exists (S j), slot, d. auto.
  - exists O, s, b. auto.
Qed.

End LiveEntries.

(** ** The representation invariant *)

Lemma wf_construct (value_type : Type) (n : size_type) :
  2 * n <= SIZE_MAX -> wf (@construct value_type n).
Proof.
  intro Hn.
  assert (Hw : wrap (n * 2) = 2 * n) by (rewrite wrap_small; lia).
  split; unfold construct, live_count, live_entries; simpl;
    rewrite ?Hw, ?vec_make_length; auto; try lia.
  unfold vec_make. rewrite live_entries_fresh. reflexivity.
Qed.

Lemma wf_clear (value_type : Type) (t : table value_type) :
  wf t -> wf (clear t).
Proof.
  intros [Hr Hs Hd Hz Hl].
  assert (Hw : wrap (t_max_size t * 2) = 2 * t_max_size t)
    by (rewrite wrap_small; lia).
  split; unfold clear, live_count, live_entries; simpl;
    rewrite ?Hw, ?vec_make_length; auto; try lia.
  unfold vec_make. rewrite live_entries_fresh. reflexivity.
Qed.

Lemma wf_vec_size (value_type : Type) (t : table value_type) :
  wf t -> vec_size (t_slots t) = 2 * t_max_size t
          /\ vec_size (t_deleted t) = 2 * t_max_size t.
Proof.
  intros [Hr Hs Hd Hz Hl]. unfold vec_size. rewrite Hd, Hs. lia.
Qed.

(** ** Conversion to [float] *)

Lemma round24_small (n : N) : n <= 2 ^ 24 -> round24 n = n.
Proof.
  intro H. unfold round24.
  destruct (n <? 2 ^ 24) eqn:E; [reflexivity |].
  apply N.ltb_ge in E. assert (n = 2 ^ 24) by lia. subst n. reflexivity.
Qed.

(** From 2^24 on, [n] splits into a significand of 24 bits and the bits
    that the conversion drops. *)
Lemma round24_parts (n : N) :
  2 ^ 24 <= n ->
  let sh := N.log2 n - 23 in
  1 <= sh /\ 2 ^ sh = 2 * 2 ^ (sh - 1)
  /\ n = (n / 2 ^ sh) * 2 ^ sh + n mod 2 ^ sh
  /\ n mod 2 ^ sh < 2 ^ sh
  /\ 2 ^ 23 <= n / 2 ^ sh.
Proof.
  intros Hn sh.
  assert (Hlog : 24 <= N.log2 n).
  { change 24 with (N.log2 (2 ^ 24)). apply N.log2_le_mono. exact Hn. }
  assert (Hsh : 1 <= sh) by (unfold sh; lia).
  assert (Hpow : 2 ^ sh = 2 * 2 ^ (sh - 1)).
  { rewrite <- N.pow_succ_r'. f_equal. lia. }
  assert (Hnz : 2 ^ sh <> 0) by (apply N.pow_nonzero; lia).
  split; [exact Hsh |]. split; [exact Hpow |].
  split.
  { rewrite (N.div_mod n (2 ^ sh)) at 1 by exact Hnz. lia. }
  split; [apply N.mod_lt; exact Hnz |].
  assert (Hspec : 2 ^ N.log2 n <= n) by (apply N.log2_spec; lia).
  replace (N.log2 n) with (23 + sh) in Hspec by (unfold sh; lia).
  rewrite N.pow_add_r in Hspec.
  apply N.div_le_lower_bound; [exact Hnz | lia].
Qed.

(** The conversion is off by at most [n / 2^24]. *)
Lemma round24_error (n : N) :
  2 ^ 24 * (n - round24 n) <= n /\ 2 ^ 24 * (round24 n - n) <= n.
Proof.
  unfold round24. destruct (n <? 2 ^ 24) eqn:E.
  - rewrite N.sub_diag. lia.
  - apply N.ltb_ge in E.
    destruct (round24_parts E) as (Hsh & Hpow & Hdiv & Hmod & Hq).
    cbv zeta.
    set (sh := N.log2 n - 23) in *.
    set (q := n / 2 ^ sh) in *. set (r := n mod 2 ^ sh) in *.
    set (half := 2 ^ (sh - 1)) in *.
    assert (Hn : 2 ^ 24 * half <= n).
    { change (2 ^ 24) with (2 * 2 ^ 23). nia. }
    destruct ((half <? r) || ((r =? half) && N.odd q)) eqn:Eup.
    + assert (Hr : half <= r).
      { apply orb_true_iff in Eup. destruct Eup as [H | H].
        - apply N.ltb_lt in H. lia.
        - apply andb_true_iff in H. destruct H as [H _].
          apply N.eqb_eq in H. lia. }
      split; nia.
    + assert (Hr : r <= half).
      { apply orb_false_iff in Eup. destruct Eup as [H _].
        apply N.ltb_ge in H. exact H. }
      split; nia.
Qed.

(** Doubling commutes with the conversion. *)
Lemma round24_double (n : N) : round24 (2 * n) = 2 * round24 n.
Proof.
  destruct (N.lt_ge_cases n (2 ^ 23)) as [H1 | H1].
  - change (2 ^ 23) with 8388608 in H1.
    rewrite !round24_small; change (2 ^ 24) with 16777216; lia.
  - destruct (N.lt_ge_cases n (2 ^ 24)) as [H2 | H2].
    + rewrite (round24_small (n := n)) by lia.
      unfold round24.
      destruct (2 * n <? 2 ^ 24) eqn:E; [reflexivity |].
      assert (Hlog : N.log2 (2 * n) = 24).
      { apply N.ltb_ge in E. apply N.log2_unique; [lia |].
        change (2 ^ N.succ 24) with 33554432.
        change (2 ^ 24) with 16777216 in *. lia. }
      rewrite Hlog. change (24 - 23) with 1. change (2 ^ 1) with 2.
      change (2 ^ (1 - 1)) with 1.
      rewrite (N.mul_comm 2 n), N.Div0.mod_mul, N.div_mul by lia.
      simpl. lia.
    + unfold round24.
      destruct (n <? 2 ^ 24) eqn:E1; [apply N.ltb_lt in E1; lia |].
      destruct (2 * n <? 2 ^ 24) eqn:E2; [apply N.ltb_lt in E2; lia |].
      assert (Hlog : N.log2 (2 * n) = N.succ (N.log2 n)).
      { apply N.log2_double. change (2 ^ 24) with 16777216 in *. lia. }
      assert (Hl : 24 <= N.log2 n).
      { change 24 with (N.log2 (2 ^ 24)). apply N.log2_le_mono. exact H2. }
      rewrite Hlog. cbv zeta.
      replace (N.succ (N.log2 n) - 23) with (N.succ (N.log2 n - 23)) by lia.
      set (sh := N.log2 n - 23).
      assert (Hsh : 1 <= sh) by (unfold sh; lia).
      replace (N.succ sh - 1) with (N.succ (sh - 1)) by lia.
      rewrite !N.pow_succ_r'.
      assert (Hnz : 2 ^ sh <> 0) by (apply N.pow_nonzero; lia).
      rewrite N.Div0.div_mul_cancel_l by lia.
      rewrite N.Div0.mul_mod_distr_l by lia.
      set (q := n / 2 ^ sh). set (r := n mod 2 ^ sh).
      set (half := 2 ^ (sh - 1)).
      replace (2 * half <? 2 * r) with (half <? r).
      2:{ destruct (half <? r) eqn:Ea; symmetry.
          - apply N.ltb_lt in Ea. apply N.ltb_lt. lia.
          - apply N.ltb_ge in Ea. apply N.ltb_ge. lia. }
      replace (2 * r =? 2 * half) with (r =? half).
      2:{ destruct (r =? half) eqn:Ea; symmetry.
          - apply N.eqb_eq in Ea. apply N.eqb_eq. lia.
          - apply N.eqb_neq in Ea. apply N.eqb_neq. lia. }
      destruct ((half <? r) || ((r =? half) && N.odd q)); lia.
Qed.

Lemma round24_pos (n : N) : 0 < n -> 0 < round24 n.
Proof.
  intro H. pose proof (round24_error n) as [H1 H2].
  destruct (N.eq_dec (round24 n) 0) as [E | E]; [| lia].
  rewrite E in H1. change (2 ^ 24) with 16777216 in *. lia.
Qed.

(** ** The test of [check_fullness] *)

(** On a well-formed table the load factor has reached 0.5 when twice the
    converted [size()] is at least the converted [bucket_count()]. *)
Lemma fge_load_factor (value_type : Type) (t : table value_type) :
  wf t ->
  fge (load_factor t) max_load_factor
  = (if t_max_size t =? 0 then true
     else round24 (t_max_size t) <=? round24 (t_size t)).
Proof.
  intros [Hr Hs Hd Hz Hl].
  unfold load_factor, max_size, size, bucket_count, max_load_factor.
  destruct (t_max_size t =? 0) eqn:E0; [reflexivity |].
  apply N.eqb_neq in E0.
  rewrite (wrap_small (x := t_max_size t * 2)) by lia.
  unfold fdiv.
  destruct (t_max_size t * 2 =? 0) eqn:E1; [apply N.eqb_eq in E1; lia |].
  rewrite (N.mul_comm (t_max_size t) 2), round24_double.
  assert (Hpos : 0 < round24 (t_max_size t)) by (apply round24_pos; lia).
  cbn [fge].
  destruct (round24 (t_max_size t) <=? round24 (t_size t)) eqn:E2.
  - apply N.leb_le in E2. apply Qle_bool_iff. unfold Qle.
    cbn [Qnum Qden]. rewrite Z2Pos.id by lia. lia.
  - apply N.leb_gt in E2.
    destruct (Qle_bool (1 # 2)
                (Z.of_N (round24 (t_size t))
                 # Z.to_pos (Z.of_N (2 * round24 (t_max_size t)))))
      eqn:E3; auto.
    apply Qle_bool_iff in E3. unfold Qle in E3. cbn [Qnum Qden] in E3.
    rewrite Z2Pos.id in E3 by lia. lia.
Qed.

(** A full table fails the test. *)
Lemma full_no_room (value_type : Type) (t : table value_type) :
  wf t -> t_size t = t_max_size t ->
  fge (load_factor t) max_load_factor = true.
Proof.
  intros Hwf Hfull. rewrite (fge_load_factor Hwf), Hfull.
  destruct (t_max_size t =? 0); [reflexivity |]. apply N.leb_refl.
Qed.

(** A table that passes the test has room for an entry. *)
Lemma has_room_lt (value_type : Type) (t : table value_type) :
  wf t -> has_room t -> t_size t < t_max_size t.
Proof.
  intros Hwf Hroom. pose proof (wf_load Hwf) as Hl.
  destruct (N.eq_dec (t_size t) (t_max_size t)) as [E | E]; [| lia].
  unfold has_room in Hroom. rewrite (full_no_room Hwf E) in Hroom.
  discriminate.
Qed.

(** A table at most half full passes the test, whatever its size. *)
Lemma half_has_room (value_type : Type) (t : table value_type) :
  wf t -> 2 * t_size t < t_max_size t -> has_room t.
Proof.
  intros Hwf Hhalf. unfold has_room. rewrite (fge_load_factor Hwf).
  destruct (t_max_size t =? 0) eqn:E0; [apply N.eqb_eq in E0; lia |].
  apply N.leb_gt.
  pose proof (round24_error (t_size t)) as [_ H1].
  pose proof (round24_error (t_max_size t)) as [H2 _].
  change (2 ^ 24) with 16777216 in *. lia.
Qed.


(** ** Insertion keeps the invariant (any probing policy) *)

Section Insertion.

Variables Key value_type : Type.
Variable entry_key : value_type -> Key.
Variable hasher : Key -> size_type.
Variable key_equal : Key -> Key -> bool.
Context {P : Type} {policy : CollisionPolicy P}.

Abbreviation table := (table value_type).
Abbreviation probe_loop := (probe_loop entry_key key_equal).
Abbreviation find_index := (find_index entry_key hasher key_equal).
Abbreviation place := (place entry_key hasher key_equal).
Abbreviation emplace_impl := (emplace_impl entry_key hasher key_equal).
Abbreviation stops_at := (stops_at entry_key key_equal).

Lemma probe_loop_stops (fuel : nat) (t : table) (key : Key) (ins : bool)
  (pol : P) (c i : size_type) :
  probe_loop fuel t key ins pol c = Ok i -> stops_at t key ins i.
Proof.
  revert pol c. induction fuel as [| fuel IH]; intros pol c E; simpl in E;
    [discriminate |].
  inv_bind E. destruct x as [e |].
  - inv_bind E.
    destruct ((negb x || negb ins) && negb (key_equal (entry_key e) key))
      eqn:Ec.
    + inv_bind E. destruct x0 as [pol' next]. eapply IH; eauto.
    + inversion E; subst. right. exists e, x. auto.
  - inversion E; subst. left. auto.
Qed.

Lemma find_index_insert_stops (fuel : nat) (t : table) (key : Key)
  (i : size_type) :
  find_index fuel t key true = Ok i -> stops_at t key true i.
Proof.
  unfold find_index. rewrite andb_false_r. intro E.
  inv_bind E. inv_bind E. inversion E; subst.
  eapply probe_loop_stops; eauto.
Qed.

(** [place] on a table with room for one more entry. *)
Lemma place_spec (fuel : nat) (t t' : table) (v : value_type)
  (i : size_type) (b : bool) :
  wf t -> t_size t < t_max_size t ->
  place fuel t v = Ok (t', (i, b)) ->
  wf t'
  /\ t_max_size t' = t_max_size t
  /\ t_size t' = (if b then t_size t + 1 else t_size t)
  /\ (b = true -> live_at t' (N.to_nat i) v)
  /\ (b = false -> t' = t).
Proof.
  intros Hwf Hroom E. unfold place in E.
  inv_bind E. rename x into ind.
  apply find_index_insert_stops in E0.
  destruct (wf_vec_size Hwf) as [Hvs Hvd].
  destruct Hwf as [Hr Hs Hd Hz Hl].
  inv_bind E. inv_bind E. rename x into slot, x0 into free.
  assert (Hind : ind < vec_size (t_slots t)) by (eapply vec_at_lt; eauto).
  destruct free.
  - inv_bind E. apply vec_set_Ok in E3. destruct E3 as [_ ->].
    inv_bind E. unfold update_after_insert in E3. simpl in E3.
    inv_bind E3. apply vec_set_Ok in E4. destruct E4 as [_ ->].
    inversion E3; subst; clear E3. inversion E; subst; clear E.
    assert (Hfree : exists d, nth_error (t_deleted t) (N.to_nat i) = Some d
                              /\ is_live slot d = false).
    { destruct slot as [e |].
      - exists true. apply vec_at_Ok in E2. auto.
      - destruct (@vec_at_defined bool (t_deleted t) i) as [d Hd'];
          [lia |].
        exists d. apply vec_at_Ok in Hd'. auto. }
    destruct Hfree as (d & Hnd & Hlive).
    apply vec_at_Ok in E1.
    assert (Hcount :
      length (live_entries_of
                (list_set (t_slots t) (N.to_nat i) (Some v))
                (list_set (t_deleted t) (N.to_nat i) false))
      = S (live_count t)).
    { unfold live_count, live_entries.
      eapply live_length_install; eauto. }
    assert (Hw : wrap (t_size t + 1) = t_size t + 1)
      by (apply wrap_small; lia).
    unfold vec_size in *.
    repeat split; unfold live_count, live_entries; simpl;
      rewrite ?list_set_length; auto; try lia.
    + apply list_set_same. lia.
    + apply list_set_same. lia.
  - inversion E; subst; clear E.
    repeat split; auto; discriminate.
Qed.

End Insertion.

(** ** Growth keeps the invariant (any probing policy) *)

Section Growth.

Variables Key value_type : Type.
Variable entry_key : value_type -> Key.
Variable hasher : Key -> size_type.
Variable key_equal : Key -> Key -> bool.
Context {P : Type} {policy : CollisionPolicy P}.

Abbreviation table := (table value_type).
Abbreviation place := (place entry_key hasher key_equal).
Abbreviation emplace_impl := (emplace_impl entry_key hasher key_equal).
Abbreviation rehash := (rehash entry_key hasher key_equal).
Abbreviation emplace_in := (emplace_in entry_key hasher key_equal).

Lemma emplace_impl_unfold (fuel : nat) (t : table) (v : value_type) :
  emplace_impl (S fuel) t v
  = (t1 <- check_fullness_with (emplace_in fuel) t ;; place (S fuel) t1 v).
Proof. reflexivity. Qed.

Lemma check_fullness_room (emp : table -> value_type -> result table)
  (t : table) :
  has_room t -> check_fullness_with emp t = Ok t.
Proof.
  intros Hroom. unfold check_fullness_with. rewrite Hroom. reflexivity.
Qed.

Lemma check_fullness_full (emp : table -> value_type -> result table)
  (t : table) :
  fge (load_factor t) max_load_factor = true ->
  check_fullness_with emp t = rehash_with emp (wrap (t_max_size t * 2)) t.
Proof.
  intros Hfull. unfold check_fullness_with. rewrite Hfull. reflexivity.
Qed.

(** With room in the table, [emplace_impl] is [place]. *)
Lemma emplace_impl_room (fuel : nat) (t : table) (v : value_type) :
  has_room t -> emplace_impl (S fuel) t v = place (S fuel) t v.
Proof.
  intros Hroom. rewrite emplace_impl_unfold.
  rewrite check_fullness_room by assumption. reflexivity.
Qed.

(** The migration loop into a table more than twice as large as what it
    holds and what is left to migrate: no step of it rehashes. *)
Lemma migrate_spec (fuel : nat) (temp_map : list (option value_type)) :
  forall (temp_deleted : list bool) (t t' : table),
    wf t ->
    2 * (t_size t
         + N.of_nat (length (live_entries_of temp_map temp_deleted)))
    < t_max_size t ->
    migrate (emplace_in fuel) temp_map temp_deleted t = Ok t' ->
    wf t'
    /\ t_max_size t' = t_max_size t
    /\ t_size t'
       <= t_size t
          + N.of_nat (length (live_entries_of temp_map temp_deleted)).
Proof.
  induction temp_map as [| slot temp_map IH];
    intros temp_deleted t t' Hwf Hroom E; simpl in E.
  - inversion E; subst. split_and; auto. simpl. lia.
  - destruct slot as [e |].
    + destruct temp_deleted as [| [|] temp_deleted]; try discriminate.
      * cbn [live_entries_of] in Hroom |- *. apply IH; auto.
      * cbn [live_entries_of length] in Hroom |- *.
        inv_bind E. rename x into t1.
        unfold emplace_in in E0. inv_bind E0.
        destruct x as [t1' [i b]]. simpl in E0. inversion E0; subst t1'.
        destruct fuel as [| fuel]; [discriminate |].
        rewrite emplace_impl_room in E1 by (apply half_has_room; auto; lia).
        apply place_spec in E1; [| assumption | lia].
        destruct E1 as (Hwf1 & Hmax1 & Hsize1 & _).
        destruct (IH temp_deleted t1 t' Hwf1) as (Hwf' & Hmax' & Hsize');
          auto.
        { rewrite Hmax1, Hsize1. destruct b; lia. }
        split_and; auto; try congruence.
        rewrite Hsize1 in Hsize'. destruct b; lia.
    + destruct temp_deleted as [| d temp_deleted];
        cbn [live_entries_of length tl] in *.
      * destruct (IH [] t t' Hwf) as (Hwf' & Hmax' & Hsize'); auto.
        { destruct temp_map as [| [?|] ?]; cbn [live_entries_of length];
            lia. }
        split_and; auto.
        destruct temp_map as [| [?|] ?]; cbn [live_entries_of length] in *;
          lia.
      * apply IH; auto.
Qed.

(** [rehash(count)] on a well-formed table, when the new table is
    addressable and more than twice as large as the number of entries. *)
Lemma rehash_with_spec (fuel : nat) (count : size_type) (t t' : table) :
  wf t ->
  2 * rehash_new_size count t <= SIZE_MAX ->
  2 * t_size t < rehash_new_size count t ->
  rehash_with (emplace_in fuel) count t = Ok t' ->
  wf t'
  /\ t_max_size t' = rehash_new_size count t
  /\ t_size t' <= t_size t.
Proof.
  intros Hwf Hfit Hbig E. unfold rehash_with in E.
  set (n := rehash_new_size count t) in *.
  assert (Hw : wrap (n * 2) = 2 * n) by (rewrite wrap_small; lia).
  rewrite Hw in E.
  assert (Hz := wf_size Hwf). unfold live_count, live_entries in Hz.
  apply migrate_spec in E.
  - destruct E as (Hwf' & Hmax' & Hsize').
    cbn [t_size t_max_size] in Hmax', Hsize'.
    split_and; auto. lia.
  - pose proof (@wf_construct value_type n Hfit) as Hc.
    unfold construct in *. rewrite Hw in Hc. exact Hc.
  - cbn [t_size t_max_size]. lia.
Qed.

(** The [new_size] that [check_fullness] asks for. *)
Lemma check_fullness_new_size (t : table) :
  wf t -> 4 * t_max_size t + 2 <= SIZE_MAX ->
  rehash_new_size (wrap (t_max_size t * 2)) t
  = (if t_max_size t =? 0 then 2 else 2 * t_max_size t + 1).
Proof.
  intros Hwf Hfit. unfold rehash_new_size, size.
  destruct (wf_vec_size Hwf) as [Hvs _]. rewrite Hvs.
  pose proof (wf_load Hwf) as Hl.
  rewrite (wrap_small (x := t_max_size t * 2)) by lia.
  rewrite (wrap_small (x := t_size t * 2)) by lia.
  destruct (t_max_size t =? 0) eqn:E0.
  - apply N.eqb_eq in E0. rewrite E0. reflexivity.
  - apply N.eqb_neq in E0.
    destruct (t_max_size t * 2 =? 0) eqn:E1;
      [apply N.eqb_eq in E1; lia |].
    rewrite andb_false_l.
    destruct (t_max_size t * 2 <? t_size t * 2) eqn:E2;
      [apply N.ltb_lt in E2; lia |].
    rewrite wrap_small by lia. lia.
Qed.

(** The table that [check_fullness] grows into is addressable and more than
    twice as large as the number of entries. *)
Lemma check_fullness_grows (t : table) :
  wf t -> 4 * t_max_size t + 2 <= SIZE_MAX ->
  2 * rehash_new_size (wrap (t_max_size t * 2)) t <= SIZE_MAX
  /\ 2 * t_size t < rehash_new_size (wrap (t_max_size t * 2)) t
  /\ t_max_size t < rehash_new_size (wrap (t_max_size t * 2)) t.
Proof.
  intros Hwf Hfit. rewrite (check_fullness_new_size Hwf Hfit).
  pose proof (wf_load Hwf) as Hl. unfold SIZE_MAX in *.
  destruct (t_max_size t =? 0) eqn:Ez; [apply N.eqb_eq in Ez |]; lia.
Qed.

(** Insertion, partial correctness under any policy: from a well-formed
    table whose grown table is addressable, every completed insertion
    ends in a well-formed table; the table is rehashed first exactly when
    the test of [check_fullness] holds. *)
Lemma emplace_impl_spec (fuel : nat) (t t' : table) (v : value_type)
  (i : size_type) (b : bool) :
  wf t -> 4 * t_max_size t + 2 <= SIZE_MAX ->
  emplace_impl fuel t v = Ok (t', (i, b)) ->
  wf t'
  /\ (b = true -> live_at t' (N.to_nat i) v)
  /\ t_size t' <= t_size t + 1
  /\ (has_room t -> t_max_size t' = t_max_size t)
  /\ (fge (load_factor t) max_load_factor = true ->
      t_max_size t'
      = (if t_max_size t =? 0 then 2 else 2 * t_max_size t + 1)).
Proof.
  intros Hwf Hfit E. destruct fuel as [| fuel]; [discriminate |].
  assert (Hload := wf_load Hwf).
  destruct (fge (load_factor t) max_load_factor) eqn:Htest.
  - rewrite emplace_impl_unfold in E. inv_bind E. rename x into t1.
    rewrite check_fullness_full in E0 by assumption.
    pose proof (check_fullness_new_size Hwf Hfit) as Hn.
    destruct (check_fullness_grows Hwf Hfit) as (Hg1 & Hg2 & Hg3).
    apply rehash_with_spec in E0; auto.
    destruct E0 as (Hwf1 & Hmax1 & Hsize1).
    apply place_spec in E; auto; [| lia].
    destruct E as (Hwf' & Hmax' & Hsize' & Hlive & _).
    split_and; auto.
    + destruct b; lia.
    + unfold has_room. rewrite Htest. discriminate.
    + intros _. congruence.
  - rewrite emplace_impl_room in E by assumption.
    apply place_spec in E; [| assumption | apply has_room_lt; assumption].
    destruct E as (Hwf' & Hmax' & Hsize' & Hlive & _).
    split_and; auto.
    + destruct b; lia.
    + discriminate.
Qed.

End Growth.

(** ** Termination of the probing loop under [LinearProbing] *)

Section LinearTermination.

Variables Key value_type : Type.
Variable entry_key : value_type -> Key.
Variable hasher : Key -> size_type.
Variable key_equal : Key -> Key -> bool.

Abbreviation table := (table value_type).
Abbreviation probe_loop :=
  (probe_loop entry_key key_equal (P := LinearProbing.t)).
Abbreviation find_index :=
  (find_index entry_key hasher key_equal (P := LinearProbing.t)).
Abbreviation place :=
  (place entry_key hasher key_equal (P := LinearProbing.t)).
Abbreviation emplace_impl :=
  (emplace_impl entry_key hasher key_equal (P := LinearProbing.t)).
Abbreviation emplace_in :=
  (emplace_in entry_key hasher key_equal (P := LinearProbing.t)).
Abbreviation stops_at := (stops_at entry_key key_equal).

Lemma linear_next (c m : size_type) :
  c < m -> m <= SIZE_MAX ->
  LinearProbing.next (LinearProbing.make c m)
  = Ok (LinearProbing.make ((c + 1) mod m) m, (c + 1) mod m).
Proof.
  intros Hc Hm. unfold LinearProbing.next, umod. simpl.
  rewrite wrap_small by lia.
  destruct (m =? 0) eqn:E; [apply N.eqb_eq in E; lia | reflexivity].
Qed.

(** One round of the loop at a slot where it stops. *)
Lemma probe_loop_here (fuel : nat) (t : table) (key : Key) (ins : bool)
  (pol : LinearProbing.t) (c : size_type) :
  stops_at t key ins c -> probe_loop (S fuel) t key ins pol c = Ok c.
Proof.
  intros [E | (e & d & E1 & E2 & E3)]; simpl.
  - rewrite E. reflexivity.
  - rewrite E1. simpl. rewrite E2. simpl. rewrite E3. reflexivity.
Qed.

(** One round of the loop at a slot it walks past. *)
Lemma probe_loop_past (fuel : nat) (t : table) (key : Key) (ins : bool)
  (c m : size_type) (e : value_type) (d : bool) :
  c < m -> m <= SIZE_MAX ->
  vec_at (t_slots t) c = Ok (Some e) ->
  vec_at (t_deleted t) c = Ok d ->
  (negb d || negb ins) && negb (key_equal (entry_key e) key) = true ->
  probe_loop (S fuel) t key ins (LinearProbing.make c m) c
  = probe_loop fuel t key ins
      (LinearProbing.make ((c + 1) mod m) m) ((c + 1) mod m).
Proof.
  intros Hc Hm E1 E2 E3.
  cbn [probe_loop]. rewrite E1. cbn [bind]. rewrite E2.
  cbn [bind]. rewrite E3.
  change (policy_next (LinearProbing.make c m))
    with (LinearProbing.next (LinearProbing.make c m)).
  rewrite linear_next by assumption. reflexivity.
Qed.

Lemma stops_at_dec (t : table) (key : Key) (ins : bool) (c : size_type) :
  c < vec_size (t_slots t) -> c < vec_size (t_deleted t) ->
  stops_at t key ins c
  \/ exists e d,
      vec_at (t_slots t) c = Ok (Some e)
      /\ vec_at (t_deleted t) c = Ok d
      /\ (negb d || negb ins) && negb (key_equal (entry_key e) key) = true.
Proof.
  intros Hs Hd.
  destruct (vec_at_defined _ Hs) as [[e |] E1]; [| left; left; exact E1].
  destruct (vec_at_defined _ Hd) as [d E2].
  destruct ((negb d || negb ins) && negb (key_equal (entry_key e) key))
    eqn:E3.
  - right. exists e, d. auto.
  - left. right. exists e, d. auto.
Qed.

(** The loop reaches a slot that is [d] steps ahead, if not stopped
    before. *)
Lemma linear_probe_reaches (t : table) (key : Key) (ins : bool)
  (m : size_type) :
  vec_size (t_slots t) = m -> vec_size (t_deleted t) = m ->
  m <= SIZE_MAX ->
  forall (d : nat) (c : size_type) (fuel : nat),
    c < m ->
    stops_at t key ins ((c + N.of_nat d) mod m) ->
    (d < fuel)%nat ->
    exists i, probe_loop fuel t key ins (LinearProbing.make c m) c = Ok i.
Proof.
  intros Hs Hd Hm. induction d as [| d IH]; intros c fuel Hc Hstop Hfuel;
    (destruct fuel as [| fuel]; [lia |]).
  - rewrite N.add_0_r, N.mod_small in Hstop by lia.
    exists c. apply probe_loop_here. exact Hstop.
  - destruct (@stops_at_dec t key ins c) as [Hh | (e & d0 & E1 & E2 & E3)];
      try lia.
    + exists c. apply probe_loop_here. exact Hh.
    + rewrite (probe_loop_past fuel t key ins Hc Hm E1 E2 E3).
      apply IH; try lia.
      * apply N.mod_lt. lia.
      * rewrite N.Div0.add_mod_idemp_l.
        replace (c + 1 + N.of_nat d) with (c + N.of_nat (S d)) by lia.
        exact Hstop.
Qed.

Lemma linear_probe_terminates (t : table) (key : Key) (ins : bool)
  (m c j : size_type) (fuel : nat) :
  vec_size (t_slots t) = m -> vec_size (t_deleted t) = m ->
  m <= SIZE_MAX ->
  c < m -> stops_at t key ins j -> (N.to_nat m < fuel)%nat ->
  exists i, probe_loop fuel t key ins (LinearProbing.make c m) c = Ok i.
Proof.
  intros Hs Hd Hm Hc Hstop Hfuel.
  assert (Hj : j < m).
  { destruct Hstop as [E | (e & d & E & _)]; apply vec_at_lt in E; lia. }
  assert (Hdist : exists d : nat, (d < N.to_nat m)%nat
                                  /\ (c + N.of_nat d) mod m = j).
  { destruct (N.le_gt_cases c j) as [Hle | Hgt].
    - exists (N.to_nat (j - c)). split; [lia |].
      rewrite N2Nat.id. replace (c + (j - c)) with j by lia.
      apply N.mod_small. exact Hj.
    - exists (N.to_nat (j + m - c)). split; [lia |].
      rewrite N2Nat.id. replace (c + (j + m - c)) with (j + 1 * m) by lia.
      rewrite N.Div0.mod_add. apply N.mod_small. exact Hj. }
  destruct Hdist as (d & Hd1 & Hd2).
  apply (@linear_probe_reaches t key ins m Hs Hd Hm d); auto; try lia.
  rewrite Hd2. exact Hstop.
Qed.

(** A slot that is not live stops an insertion walk. *)
Lemma free_slot_stops (t : table) (key : Key) (j : nat)
  (slot : option value_type) (d : bool) :
  nth_error (t_slots t) j = Some slot ->
  nth_error (t_deleted t) j = Some d ->
  is_live slot d = false ->
  stops_at t key true (N.of_nat j).
Proof.
  intros E1 E2 Hl. unfold stops_at.
  rewrite <- (Nat2N.id j) in E1, E2.
  apply vec_at_Ok in E1, E2.
  destruct slot as [e |]; [| left; exact E1].
  destruct d; simpl in Hl; [| discriminate].
  right. exists e, true. auto.
Qed.

(** [place] returns, on a table with room. *)
Lemma place_total (fuel : nat) (t : table) (v : value_type) :
  wf t -> t_size t < t_max_size t ->
  (N.to_nat (2 * t_max_size t) < fuel)%nat ->
  exists t' i b, place fuel t v = Ok (t', (i, b)).
Proof.
  intros Hwf Hroom Hfuel.
  destruct (wf_vec_size Hwf) as [Hvs Hvd].
  assert (Hfree : exists j, stops_at t (entry_key v) true j).
  { destruct (@not_all_live value_type (t_slots t) (t_deleted t))
      as (j & slot & d & E1 & E2 & Hl).
    - apply (wf_deleted Hwf).
    - pose proof (wf_size Hwf) as Hz. pose proof (wf_slots Hwf) as Hs.
      unfold live_count, live_entries in Hz. lia.
    - exists (N.of_nat j). eapply free_slot_stops; eauto. }
  destruct Hfree as (j & Hj).
  pose proof (wf_range Hwf) as Hr.
  assert (Hm : 2 * t_max_size t <> 0) by lia.
  assert (Hc : hasher (entry_key v) mod (2 * t_max_size t)
               < 2 * t_max_size t) by (apply N.mod_lt; exact Hm).
  destruct (@linear_probe_terminates t (entry_key v) true
              (2 * t_max_size t)
              (hasher (entry_key v) mod (2 * t_max_size t)) j fuel)
    as (i & Ei); auto.
  pose proof Ei as Hstop. apply probe_loop_stops in Hstop.
  unfold place, find_index.
  rewrite andb_false_r. unfold umod. rewrite Hvs.
  destruct (2 * t_max_size t =? 0) eqn:E0;
    [apply N.eqb_eq in E0; lia |].
  cbn [bind policy_make LinearProbing_policy]. rewrite Ei. cbn [bind].
  assert (Hi : i < 2 * t_max_size t).
  { destruct Hstop as [E | (e & d & E & _)]; apply vec_at_lt in E; lia. }
  assert (Hset : forall (A : Type) (w : list A) (a : A),
             vec_size w = 2 * t_max_size t ->
             vec_set w i a = Ok (list_set w (N.to_nat i) a)).
  { intros A w a Hw. apply vec_set_defined. lia. }
  assert (Hinstall :
    exists t',
      (s <- vec_set (t_slots t) i (Some v) ;;
       t' <- update_after_insert
               {| t_size := t_size t;
                  t_max_size := t_max_size t;
                  t_slots := s;
                  t_deleted := t_deleted t;
                  first_ind := first_ind t |} i ;;
       Ok (t', (i, true))) = Ok (t', (i, true))).
  { rewrite Hset by assumption. cbn [bind].
    unfold update_after_insert. cbn [t_deleted].
    rewrite Hset by assumption. cbn [bind]. eexists. reflexivity. }
  destruct Hinstall as (t' & Ht').
  destruct Hstop as [E | (e & d & E1 & E2 & _)].
  - rewrite E. cbn [bind]. exists t', i, true. exact Ht'.
  - rewrite E1. cbn [bind]. rewrite E2. cbn [bind].
    destruct d.
    + exists t', i, true. exact Ht'.
    + exists t, i, false. reflexivity.
Qed.

(** The migration loop returns. *)
Lemma migrate_total (fuel : nat) (temp_map : list (option value_type)) :
  forall (temp_deleted : list bool) (t : table),
    length temp_deleted = length temp_map ->
    wf t ->
    2 * (t_size t
         + N.of_nat (length (live_entries_of temp_map temp_deleted)))
    < t_max_size t ->
    (N.to_nat (2 * t_max_size t) < fuel)%nat ->
    exists t', migrate (emplace_in fuel) temp_map temp_deleted t = Ok t'.
Proof.
  induction temp_map as [| slot temp_map IH];
    intros temp_deleted t Hlen Hwf Hroom Hfuel.
  - exists t. reflexivity.
  - destruct temp_deleted as [| d temp_deleted]; [discriminate |].
    simpl in Hlen.
    destruct slot as [e |]; [destruct d |];
      cbn [live_entries_of length migrate tl] in Hroom |- *;
      try (apply IH; auto; lia).
    destruct fuel as [| fuel]; [lia |].
    destruct (@place_total (S fuel) t e) as (t1 & i & b & E); auto;
      try lia.
    unfold emplace_in at 1.
    rewrite emplace_impl_room by (apply half_has_room; auto; lia).
    rewrite E. cbn [bind].
    apply place_spec in E; [| assumption | lia].
    destruct E as (Hwf1 & Hmax1 & Hsize1 & _).
    apply IH; auto; try lia.
    rewrite Hmax1, Hsize1. destruct b; lia.
Qed.

End LinearTermination.

(** ** Insertion returns under [LinearProbing] *)

Section LinearInsertion.

Variables Key value_type : Type.
Variable entry_key : value_type -> Key.
Variable hasher : Key -> size_type.
Variable key_equal : Key -> Key -> bool.

Abbreviation table := (table value_type).
Abbreviation place :=
  (place entry_key hasher key_equal (P := LinearProbing.t)).
Abbreviation emplace_impl :=
  (emplace_impl entry_key hasher key_equal (P := LinearProbing.t)).
Abbreviation emplace_in :=
  (emplace_in entry_key hasher key_equal (P := LinearProbing.t)).
Abbreviation rehash :=
  (rehash entry_key hasher key_equal (P := LinearProbing.t)).

(** [rehash(count)] returns, when the new table is addressable and more
    than twice as large as the number of entries. *)
Lemma rehash_total (fuel : nat) (count : size_type) (t : table) :
  wf t ->
  2 * rehash_new_size count t <= SIZE_MAX ->
  2 * t_size t < rehash_new_size count t ->
  (N.to_nat (2 * rehash_new_size count t) < fuel)%nat ->
  exists t', rehash fuel count t = Ok t'.
Proof.
  intros Hwf Hfit Hbig Hfuel.
  unfold rehash, rehash_with.
  set (n := rehash_new_size count t) in *.
  assert (Hw : wrap (n * 2) = 2 * n) by (rewrite wrap_small; lia).
  rewrite Hw.
  pose proof (@wf_construct value_type n Hfit) as Hc.
  unfold construct in Hc. rewrite Hw in Hc.
  assert (Hz := wf_size Hwf). unfold live_count, live_entries in Hz.
  apply (@migrate_total Key value_type entry_key hasher key_equal fuel);
    auto.
  - apply (wf_deleted Hwf).
  - cbn [t_size t_max_size]. lia.
Qed.

Lemma emplace_impl_total (fuel : nat) (t : table) (v : value_type) :
  wf t -> 4 * t_max_size t + 2 <= SIZE_MAX ->
  (N.to_nat (4 * t_max_size t + 6) <= fuel)%nat ->
  exists t' i b, emplace_impl fuel t v = Ok (t', (i, b)).
Proof.
  intros Hwf Hfit Hfuel. destruct fuel as [| fuel]; [lia |].
  assert (Hload := wf_load Hwf).
  destruct (fge (load_factor t) max_load_factor) eqn:Htest.
  - rewrite emplace_impl_unfold.
    rewrite check_fullness_full by assumption.
    pose proof (check_fullness_new_size Hwf Hfit) as Hn.
    destruct (check_fullness_grows Hwf Hfit) as (Hg1 & Hg2 & Hg3).
    assert (Hn1 : 2 * rehash_new_size (wrap (t_max_size t * 2)) t
                  <= 4 * t_max_size t + 4).
    { rewrite Hn. destruct (t_max_size t =? 0); lia. }
    destruct (@rehash_total fuel (wrap (t_max_size t * 2)) t)
      as (t1 & E1); auto; try lia.
    unfold rehash in E1.
    change (rehash_with (emplace_in fuel) (wrap (t_max_size t * 2)) t
            = Ok t1) in E1.
    rewrite E1. cbn [bind].
    apply rehash_with_spec in E1; auto.
    destruct E1 as (Hwf1 & Hmax1 & Hsize1).
    apply place_total; auto; try lia.
  - rewrite emplace_impl_room by assumption.
    apply place_total; auto; [apply has_room_lt; assumption | lia].
Qed.

End LinearInsertion.

(** ** Load factor of a well-formed table *)

Lemma wf_load_factor (value_type : Type) (t : table value_type) :
  wf t -> 0 < t_max_size t ->
  (0 < physical_length t)%nat
  /\ (2 * live_count t <= physical_length t)%nat
  /\ (Z.of_nat (live_count t) # Pos.of_nat (physical_length t)
      <= max_load_factor)%Q.
Proof.
  intros [Hr Hs Hd Hz Hl] Hpos. unfold physical_length.
  split; [lia |]. split; [lia |].
  unfold Qle, max_load_factor. cbn [Qnum Qden].
  assert (Hp : Z.pos (Pos.of_nat (length (t_slots t)))
               = Z.of_nat (length (t_slots t))).
  { rewrite <- positive_nat_Z. rewrite Nat2Pos.id by lia. reflexivity. }
  rewrite Hp. lia.
Qed.

(** ** The probing policies *)

Lemma quadratic_next (c m i : size_type) :
  m <> 0 -> c + i * i <= SIZE_MAX -> i < SIZE_MAX ->
  QuadraticProbing.next (QuadraticProbing.mk c m i)
  = Ok (QuadraticProbing.mk ((c + i * i) mod m) m (i + 1), (c + i * i) mod m).
Proof.
  intros Hm Hfit Hi. unfold QuadraticProbing.next, umod. simpl.
  rewrite (wrap_small (x := i * i)) by lia.
  rewrite (wrap_small (x := c + i * i)) by lia.
  rewrite (wrap_small (x := i + 1)) by lia.
  destruct (m =? 0) eqn:E; [apply N.eqb_eq in E; contradiction | reflexivity].
Qed.

Lemma quadratic_advance (s m : size_type) (n : nat) :
  s < m -> m + N.of_nat n * N.of_nat n <= SIZE_MAX ->
  advance n (QuadraticProbing.make s m)
  = Ok (QuadraticProbing.mk ((s + sum_squares n) mod m) m (N.of_nat n + 1)).
Proof.
  intros Hs. induction n as [| n IH]; intro Hfit.
  - simpl. rewrite N.add_0_r, N.mod_small by exact Hs. reflexivity.
  - cbn [advance]. rewrite IH by lia. cbn [bind].
    change (policy_next ?p) with (QuadraticProbing.next p).
    assert (Hc : (s + sum_squares n) mod m < m) by (apply N.mod_lt; lia).
    assert (Hn : (N.of_nat n + 1) * (N.of_nat n + 1)
                 = N.of_nat (S n) * N.of_nat (S n)) by lia.
    rewrite quadratic_next; try lia.
    cbn [bind]. f_equal. f_equal; [| lia].
    cbn [sum_squares]. rewrite N.Div0.add_mod_idemp_l. f_equal. lia.
Qed.

(** C7. [LinearProbing]'s advance returns [(current + 1) mod modulus];
    the [i]-th advance of [QuadraticProbing] adds [i * i] modulo the modulus,
    so that after [n] advances from [c] the candidate is
    [(c + 1 + 4 + ... + n * n) mod modulus]; with modulus 8 the candidates
    start [s], [s + 1], [s + 5], [s + 14], [s + 30], each modulo 8, the
    deltas being 1, 4, 9 and 16.  The indices are those of a table: below
    the modulus, and so far from the end of [size_t] that no sum wraps. *)
Theorem probing_policy_sequences (c m i s : size_type) (n : nat) :
  c < m -> m <= SIZE_MAX ->
  c + i * i <= SIZE_MAX -> i < SIZE_MAX ->
  m + N.of_nat n * N.of_nat n <= SIZE_MAX ->
  s < 8 ->
  LinearProbing.next (LinearProbing.make c m)
  = Ok (LinearProbing.make ((c + 1) mod m) m, (c + 1) mod m)
  /\ QuadraticProbing.next (QuadraticProbing.mk c m i)
     = Ok (QuadraticProbing.mk ((c + i * i) mod m) m (i + 1),
           (c + i * i) mod m)
  /\ advance n (QuadraticProbing.make c m)
     = Ok (QuadraticProbing.mk ((c + sum_squares n) mod m) m
             (N.of_nat n + 1))
  /\ map sum_squares [1; 2; 3; 4]%nat = [1; 1 + 4; 1 + 4 + 9; 1 + 4 + 9 + 16]
  /\ candidates 4 (QuadraticProbing.make s 8) s
     = Ok [s; (s + 1) mod 8; (s + 5) mod 8; (s + 14) mod 8; (s + 30) mod 8].
Proof.
  intros Hc Hm Hfit Hi Hn Hs. split_and.
  - unfold LinearProbing.next, umod. simpl.
    rewrite wrap_small by lia.
    destruct (m =? 0) eqn:E; [apply N.eqb_eq in E; lia | reflexivity].
  - apply quadratic_next; lia.
  - apply quadratic_advance; assumption.
  - reflexivity.
  - assert (H8 : s = 0 \/ s = 1 \/ s = 2 \/ s = 3 \/ s = 4 \/ s = 5 \/ s = 6
                 \/ s = 7) by lia.
    repeat (destruct H8 as [-> | H8]; [reflexivity |]). subst. reflexivity.
Qed.

Lemma probing_policy_sequences_witness :
  LinearProbing.next (LinearProbing.make 7 8) = Ok (LinearProbing.make 0 8, 0)
  /\ QuadraticProbing.next (QuadraticProbing.mk 7 8 3)
     = Ok (QuadraticProbing.mk 0 8 4, 0)
  /\ advance 3 (QuadraticProbing.make 7 8) = Ok (QuadraticProbing.mk 5 8 4)
  /\ candidates 4 (QuadraticProbing.make 3 8) 3 = Ok [3; 4; 0; 1; 1].
Proof.
  destruct (@probing_policy_sequences 7 8 3 3 3) as (H1 & H2 & H3 & _ & H5);
    try (vm_compute; congruence).
  split_and; [exact H1 | exact H2 | exact H3 | exact H5].
Defined.

(** ** Load factor after an insertion *)

(** C2, as stated, fails: the second insertion into a default-constructed
    container leaves two live entries in four slots, a load factor of
    exactly 0.5 and not one strictly below it. *)
Lemma load_factor_reaches_half :
  exists t,
    Run.map_run 10 (construct 0) [Insert (0, 10); Insert (1, 11)] = Ok t
    /\ live_count t = 2%nat /\ physical_length t = 4%nat
    /\ load_factor t = FNum (2 # 4)
    /\ ~ (2 # 4 < 1 # 2)%Q.
Proof.
  eexists. split; [vm_compute; reflexivity |].
  split_and; try reflexivity.
  intro H. vm_compute in H. discriminate.
Qed.

(** C2, amended.  After every insertion into a well-formed table whose
    grown capacity is addressable, under any probing policy, the load factor
    [live_count / physical_length] is at most 0.5; and when the load factor
    before the insertion has reached 0.5, the table is first rehashed into a
    longer one, in which the entry is then placed.  Under the default
    [LinearProbing] the insertion returns, with fuel for the migration and
    one walk. *)
Theorem insertion_load_factor_bound
  (Key value_type : Type) (entry_key : value_type -> Key)
  (hasher : Key -> size_type) (key_equal : Key -> Key -> bool)
  (t : table value_type) (value : value_type) (fuel : nat) :
  wf t ->
  4 * t_max_size t + 2 <= SIZE_MAX ->
  (forall (P : Type) (policy : CollisionPolicy P)
          (t' : table value_type) (it : size_type) (inserted : bool),
      insert (P := P) entry_key hasher key_equal fuel t value
      = Ok (t', (it, inserted)) ->
      wf t'
      /\ (0 < physical_length t')%nat
      /\ (2 * live_count t' <= physical_length t')%nat
      /\ (Z.of_nat (live_count t') # Pos.of_nat (physical_length t')
          <= max_load_factor)%Q
      /\ (fge (load_factor t) max_load_factor = true ->
          exists t1,
            rehash (P := P) entry_key hasher key_equal
              (pred fuel) (wrap (t_max_size t * 2)) t = Ok t1
            /\ (physical_length t < physical_length t1)%nat
            /\ place (P := P) entry_key hasher key_equal
                 fuel t1 value = Ok (t', (it, inserted))))
  /\ ((N.to_nat (4 * t_max_size t + 6) <= fuel)%nat ->
      exists t' it inserted,
        insert (P := LinearProbing.t) entry_key hasher key_equal fuel t value
        = Ok (t', (it, inserted))).
Proof.
  intros Hwf Hfit. split.
  - intros P policy t' it b E.
    pose proof (emplace_impl_spec _ _ _ _ _ Hwf Hfit E)
      as (Hwf' & _ & _ & Hroom & Hfull).
    assert (Hload := wf_load Hwf).
    assert (Hpos : 0 < t_max_size t').
    { destruct (fge (load_factor t) max_load_factor) eqn:Htest.
      - rewrite (Hfull eq_refl). destruct (t_max_size t =? 0); lia.
      - rewrite (Hroom Htest). pose proof (has_room_lt Hwf Htest). lia. }
    destruct (wf_load_factor Hwf' Hpos) as (H1 & H2 & H3).
    split_and; auto.
    intro Htest.
    destruct fuel as [| fuel]; [discriminate E |].
    cbn [pred]. rewrite emplace_impl_unfold in E. inv_bind E.
    rename x into t1. exists t1.
    rewrite check_fullness_full in E0 by assumption.
    split; [exact E0 |]. split; [| exact E].
    destruct (check_fullness_grows Hwf Hfit) as (Hg1 & Hg2 & Hg3).
    apply rehash_with_spec in E0; auto.
    destruct E0 as (Hwf1 & Hmax1 & _).
    unfold physical_length.
    rewrite (wf_slots Hwf), (wf_slots Hwf1), Hmax1. lia.
  - intro Hfuel.
    exact (@emplace_impl_total Key value_type entry_key hasher key_equal
             fuel t value Hwf Hfit Hfuel).
Qed.

Lemma insertion_load_factor_bound_witness :
  exists t' it inserted,
    Run.map_insert 10 (construct 0) (0, 10) = Ok (t', (it, inserted))
    /\ (2 * live_count t' <= physical_length t')%nat
    /\ (physical_length (@construct (N * N) 0%N) < physical_length t')%nat.
Proof.
  destruct (@insertion_load_factor_bound N (N * N) fst Run.hash_id N.eqb
              (construct 0) (0, 10) 10%nat)
    as [Hbound Hreturns].
  - split; vm_compute; try reflexivity; discriminate.
  - vm_compute. discriminate.
  - destruct Hreturns as (t' & it & b & E); [vm_compute; lia |].
    destruct (Hbound LinearProbing.t _ t' it b E)
      as (_ & _ & Hload & _ & Hre).
    exists t', it, b. split; [exact E |]. split; [exact Hload |].
    destruct Hre as (t1 & E1 & Hlen & E2); [reflexivity |].
    vm_compute in E1. inversion E1; subst t1. clear E1.
    vm_compute in E2. inversion E2; subst. vm_compute. lia.
Defined.

(** ** Rehash of an empty table *)

Section EmptyTable.

Variables Key value_type : Type.
Variable entry_key : value_type -> Key.
Variable hasher : Key -> size_type.
Variable key_equal : Key -> Key -> bool.

Lemma migrate_no_live (emp : table value_type -> value_type
                             -> result (table value_type))
  (temp_map : list (option value_type)) :
  forall (temp_deleted : list bool) (t : table value_type),
    length temp_deleted = length temp_map ->
    live_entries_of temp_map temp_deleted = [] ->
    migrate emp temp_map temp_deleted t = Ok t.
Proof.
  induction temp_map as [| slot temp_map IH];
    intros [| d temp_deleted] t Hlen Hlive; simpl in *; try discriminate;
    auto.
  destruct slot as [e |]; [destruct d |]; try discriminate; auto.
Qed.

(** The first insertion into a freshly constructed table lands in the
    start slot of its key. *)
Lemma insert_fresh (n : size_type) (v : value_type) (fuel : nat) :
  0 < n -> 2 * n <= SIZE_MAX -> (0 < fuel)%nat ->
  let c := hasher (entry_key v) mod (2 * n) in
  insert (P := LinearProbing.t) entry_key hasher key_equal fuel
    (construct n) v
  = Ok ({| t_size := 1;
           t_max_size := n;
           t_slots := list_set (vec_make (2 * n) None) (N.to_nat c) (Some v);
           t_deleted := list_set (vec_make (2 * n) true) (N.to_nat c) false;
           first_ind := c |}, (c, true)).
Proof.
  intros Hn Hfit Hfuel c. destruct fuel as [| fuel]; [lia |].
  assert (Hc : c < 2 * n) by (apply N.mod_lt; lia).
  assert (Hw : wrap (n * 2) = 2 * n) by (rewrite wrap_small; lia).
  unfold insert. rewrite emplace_impl_room.
  - unfold place, find_index, construct. cbn [t_slots t_deleted t_size
      t_max_size first_ind].
    rewrite Hw. unfold vec_size. rewrite vec_make_length, N2Nat.id.
    rewrite andb_false_r. unfold umod.
    destruct (2 * n =? 0) eqn:E0; [apply N.eqb_eq in E0; lia |].
    cbn [bind]. fold c.
    assert (Hat : vec_at (vec_make (2 * n) (@None value_type)) c = Ok None).
    { apply vec_at_Ok. apply nth_error_repeat_lt. lia. }
    cbn [probe_loop t_slots t_deleted]. rewrite Hat. cbn [bind].
    rewrite Hat. cbn [bind].
    rewrite vec_set_defined
      by (unfold vec_size; rewrite vec_make_length; lia).
    cbn [bind]. unfold update_after_insert. cbn [t_deleted t_size
      t_max_size t_slots first_ind empty].
    rewrite vec_set_defined
      by (unfold vec_size; rewrite vec_make_length; lia).
    reflexivity.
  - apply half_has_room; [apply wf_construct; exact Hfit |].
    unfold construct. cbn [t_size t_max_size]. lia.
Qed.

(** A lookup of the key just inserted into a fresh table finds its slot. *)
Lemma find_fresh (n : size_type) (v : value_type) (fuel : nat) :
  0 < n -> 2 * n <= SIZE_MAX -> (0 < fuel)%nat ->
  key_equal (entry_key v) (entry_key v) = true ->
  let c := hasher (entry_key v) mod (2 * n) in
  find (P := LinearProbing.t) entry_key hasher key_equal fuel
    {| t_size := 1;
       t_max_size := n;
       t_slots := list_set (vec_make (2 * n) None) (N.to_nat c) (Some v);
       t_deleted := list_set (vec_make (2 * n) true) (N.to_nat c) false;
       first_ind := c |} (entry_key v)
  = Ok c.
Proof.
  intros Hn Hfit Hfuel Heq c. destruct fuel as [| fuel]; [lia |].
  assert (Hc : c < 2 * n) by (apply N.mod_lt; lia).
  assert (Hw : wrap (n * 2) = 2 * n) by (rewrite wrap_small; lia).
  unfold find, find_index. cbn [t_slots t_deleted t_size t_max_size].
  unfold vec_size. rewrite list_set_length, vec_make_length, N2Nat.id.
  destruct (2 * n =? 0) eqn:E0; [apply N.eqb_eq in E0; lia |].
  cbn [andb]. unfold umod. rewrite E0. cbn [bind]. fold c.
  assert (Hs : vec_at (list_set (vec_make (2 * n) None) (N.to_nat c)
                         (Some v)) c = Ok (Some v)).
  { apply vec_at_Ok. apply list_set_same. rewrite vec_make_length. lia. }
  assert (Hd : vec_at (list_set (vec_make (2 * n) true) (N.to_nat c) false) c
               = Ok false).
  { apply vec_at_Ok. apply list_set_same. rewrite vec_make_length. lia. }
  cbn [probe_loop t_slots t_deleted]. rewrite Hs. cbn [bind].
  rewrite Hd. cbn [bind]. rewrite Heq. cbn [negb andb orb bind].
  rewrite Hs. cbn [bind]. rewrite Hd. cbn [bind negb andb]. rewrite Heq.
  cbn [bind]. rewrite Hw.
  destruct (c =? 2 * n) eqn:E1; [apply N.eqb_eq in E1; lia | reflexivity].
Qed.

End EmptyTable.

(** C9. [rehash(0)] on a table without entries yields, whatever the probing
    policy, a freshly built table of four slots when the table had no slot
    at all, and of two slots otherwise: never one of zero capacity.  The
    table is usable: an insertion into it returns, installs the entry, and
    a lookup then finds it. *)
Theorem rehash_zero_on_empty_table
  (Key value_type : Type) (entry_key : value_type -> Key)
  (hasher : Key -> size_type) (key_equal : Key -> Key -> bool)
  (t : table value_type) (fuel : nat) :
  t_size t = 0 ->
  live_entries t = [] ->
  length (t_deleted t) = length (t_slots t) ->
  let n := if vec_size (t_slots t) =? 0 then 2 else 1 in
  (forall (P : Type) (policy : CollisionPolicy P),
      rehash (P := P) entry_key hasher key_equal fuel 0 t = Ok (construct n))
  /\ physical_length (@construct value_type n)
     = (if vec_size (t_slots t) =? 0 then 4%nat else 2%nat)
  /\ (forall (value : value_type) (fuel' : nat),
        (0 < fuel')%nat ->
        exists t',
          insert (P := LinearProbing.t) entry_key hasher key_equal fuel'
            (construct n) value
          = Ok (t', (hasher (entry_key value) mod (2 * n), true))
          /\ live_at t' (N.to_nat (hasher (entry_key value) mod (2 * n)))
               value
          /\ (key_equal (entry_key value) (entry_key value) = true ->
              find (P := LinearProbing.t) entry_key hasher key_equal fuel'
                t' (entry_key value)
              = Ok (hasher (entry_key value) mod (2 * n)))).
Proof.
  intros Hsize Hlive Hlen n.
  assert (Hn : 0 < n /\ 2 * n <= SIZE_MAX).
  { unfold n, SIZE_MAX. destruct (vec_size (t_slots t) =? 0); lia. }
  destruct Hn as [Hn Hfit].
  split_and.
  - intros P policy. unfold rehash, rehash_with.
    assert (Hnew : rehash_new_size 0 t = n).
    { unfold rehash_new_size, size, n. rewrite Hsize.
      destruct (vec_size (t_slots t) =? 0); reflexivity. }
    rewrite Hnew. apply migrate_no_live; assumption.
  - unfold n, physical_length.
    destruct (vec_size (t_slots t) =? 0); reflexivity.
  - intros value fuel' Hfuel.
    eexists. split; [apply insert_fresh; assumption |].
    assert (Hc : hasher (entry_key value) mod (2 * n) < 2 * n)
      by (apply N.mod_lt; lia).
    split.
    + split; cbn [t_slots t_deleted]; apply list_set_same;
        rewrite vec_make_length; lia.
    + intro Heq. apply find_fresh; assumption.
Qed.

Lemma rehash_zero_on_empty_table_witness :
  Run.map_rehash 0 0 (construct 0) = Ok (construct 2)
  /\ Run.set_rehash 0 0 (construct 1) = Ok (construct 1)
  /\ physical_length (@construct (N * N) 2) = 4%nat.
Proof.
  destruct (@rehash_zero_on_empty_table N (N * N) fst Run.hash_id N.eqb
              (construct 0) 0%nat) as (H1 & H2 & _); try reflexivity.
  destruct (@rehash_zero_on_empty_table N N (fun k => k) Run.hash_id N.eqb
              (construct 1) 0%nat) as (H3 & _ & _); try reflexivity.
  split_and; [apply H1 | apply H3 | exact H2].
Defined.

(** ** Insertion after an erasure: a tombstone ahead of the key

    [find_index(key, true)] leaves its loop at the first tombstone of the
    probe sequence, without looking whether [key] is live further along.
    The caller then installs a second entry for a key that is present. *)

(** C1 fails on the code.  In a default-constructed [HashMap] and [HashSet],
    after [insert 0; insert 4; erase 0; insert 4] the key 4 is held by the
    two live slots 0 and 1: not every table reached by insertions and
    erasures holds a key in at most one live slot. *)
Theorem tombstone_reuse_duplicates_key :
  (exists t,
      Run.map_run 10 (construct 0) Run.map_reinsert = Ok t
      /\ live_at t 0 (4, 41) /\ live_at t 1 (4, 40)
      /\ ~ unique_live_keys (@fst N N) t)
  /\ (exists t,
         Run.set_run 10 (construct 0) Run.set_reinsert = Ok t
         /\ live_at t 0 4 /\ live_at t 1 4
         /\ ~ unique_live_keys (fun k : N => k) t)
  /\ ~ (forall t,
          reachable_from (P := LinearProbing.t) (@fst N N) Run.hash_id
            N.eqb 0 t ->
          unique_live_keys (@fst N N) t).
Proof.
  assert (Hmap : forall t,
             Run.map_run 10 (construct 0) Run.map_reinsert = Ok t ->
             ~ unique_live_keys (@fst N N) t).
  { intros t E H. vm_compute in E. inversion E; subst t. clear E.
    assert (E : 0%nat = 1%nat);
      [apply (H 0%nat 1%nat (4, 41) (4, 40)); try split; reflexivity
      | discriminate E]. }
  split; [| split].
  - eexists. split; [vm_compute; reflexivity |].
    do 2 (split; [split; reflexivity |]).
    apply Hmap. vm_compute. reflexivity.
  - eexists. split; [vm_compute; reflexivity |].
    do 2 (split; [split; reflexivity |]).
    intro H.
    assert (E : 0%nat = 1%nat);
      [apply (H 0%nat 1%nat 4 4); try split; reflexivity | discriminate E].
  - intro Hall. eapply Hmap; [vm_compute; reflexivity |].
    apply Hall. exists 10%nat, Run.map_reinsert. vm_compute. reflexivity.
Qed.

(** C3 fails on the code.  With 3 in the last slot and 7 wrapped around to
    slot 0, erasing 3 and inserting [(7, 72)] installs a second entry for 7
    in slot 3, which a lookup returns; the next growth migrates slot 0
    first and drops the entry of slot 3, and the lookup of 7 returns the
    older [(7, 71)]. *)
Theorem growth_restores_older_value :
  exists t3 t4 t5,
    Run.map_run 10 (construct 0) Run.map_wrapped = Ok t3
    /\ Run.map_insert 10 t3 (7, 72) = Ok (t4, (3, true))
    /\ (it <- Run.map_find 10 t4 7 ;; iterator_deref t4 it) = Ok (7, 72)
    /\ Run.map_insert 10 t4 (1, 10) = Ok (t5, (1, true))
    /\ (physical_length t4 < physical_length t5)%nat
    /\ (it <- Run.map_find 10 t5 7 ;; iterator_deref t5 it) = Ok (7, 71).
Proof.
  do 3 eexists.
  split; [vm_compute; reflexivity |].
  split; [vm_compute; reflexivity |].
  split; [vm_compute; reflexivity |].
  split; [vm_compute; reflexivity |].
  split; [vm_compute; lia | vm_compute; reflexivity].
Qed.

(** C4 fails on the code.  In the table with the key 4 in two live slots,
    an explicit [rehash] and the rehash of the growth threshold both migrate
    one entry for the two: [size()] falls from 2 to 1 (and is 2, not 3,
    after the insertion that grew the table). *)
Theorem rehash_changes_live_count :
  (exists t t' t'' r,
      Run.map_run 10 (construct 0) Run.map_reinsert = Ok t
      /\ live_count t = 2%nat /\ size t = 2
      /\ Run.map_rehash 10 0 t = Ok t'
      /\ live_count t' = 1%nat /\ size t' = 1
      /\ Run.map_insert 10 t (1, 11) = Ok (t'', r)
      /\ (physical_length t < physical_length t'')%nat
      /\ live_count t'' = 2%nat /\ size t'' = 2)
  /\ (exists t t',
         Run.set_run 10 (construct 0) Run.set_reinsert = Ok t
         /\ live_count t = 2%nat /\ size t = 2
         /\ Run.set_rehash 10 0 t = Ok t'
         /\ live_count t' = 1%nat /\ size t' = 1).
Proof.
  split.
  - do 4 eexists. split; [vm_compute; reflexivity |].
    do 2 (split; [reflexivity |]).
    split; [vm_compute; reflexivity |].
    do 2 (split; [reflexivity |]).
    split; [vm_compute; reflexivity |].
    split; [vm_compute; lia |]. split; reflexivity.
  - do 2 eexists. split; [vm_compute; reflexivity |].
    do 2 (split; [reflexivity |]).
    split; [vm_compute; reflexivity |]. split; reflexivity.
Qed.

(** C6 fails on the code.  In the same table the iteration from [begin()]
    to [end()] yields the key 4 twice. *)
Theorem iteration_yields_key_twice :
  (exists t,
      Run.map_run 10 (construct 0) Run.map_reinsert = Ok t
      /\ iterate 10 t = Ok [(4, 41); (4, 40)]
      /\ map fst (live_entries t) = [4; 4])
  /\ (exists t,
         Run.set_run 10 (construct 0) Run.set_reinsert = Ok t
         /\ iterate 10 t = Ok [4; 4]
         /\ live_entries t = [4; 4]).
Proof.
  split; eexists; (split; [vm_compute; reflexivity |]); split; reflexivity.
Qed.

(** ** [clear()] and the first live index *)

(** C8 fails on the code.  [clear()] sets [first_ind] to 0, where the
    constructor and [rehash] set it to the physical length: a cleared table
    of nonzero capacity has no live entry and [begin() != end()], and an
    iteration over it dereferences an empty slot. *)
Theorem clear_leaves_first_ind_zero :
  (exists t,
      Run.map_run 10 (construct 0) [Insert (0, 10)] = Ok t
      /\ size (clear t) = 0 /\ live_count (clear t) = 0%nat
      /\ physical_length (clear t) = 4%nat
      /\ first_ind (clear t) = 0
      /\ begin_ (clear t) <> end_ (clear t)
      /\ iterate 10 (clear t) = Undefined)
  /\ (let t := clear (@construct N 1) in
      size t = 0 /\ live_count t = 0%nat /\ physical_length t = 2%nat
      /\ first_ind t = 0
      /\ first_ind (@construct N 1) = 2
      /\ iterate 10 t = Undefined).
Proof.
  split.
  - eexists. split; [vm_compute; reflexivity |].
    split_and; try reflexivity. vm_compute. discriminate.
  - cbv zeta. split_and; reflexivity.
Qed.

(** ** Lookup in a table full of tombstones *)

Lemma churned_map_lookup_loops (fuel : nat) :
  forall c : size_type,
    c < 4 ->
    probe_loop (@fst N N) N.eqb fuel
      {| t_size := 0;
         t_max_size := 2;
         t_slots := [Some (0, 10); Some (1, 11); Some (2, 12); Some (3, 13)];
         t_deleted := [true; true; true; true];
         first_ind := 4 |}
      5 false (LinearProbing.make c 4) c
    = Timeout.
Proof.
  induction fuel as [| fuel IH]; intros c Hc; [reflexivity |].
  assert (H4 : c = 0 \/ c = 1 \/ c = 2 \/ c = 3) by lia.
  destruct H4 as [-> | [-> | [-> | ->]]]; cbn; apply IH; lia.
Qed.

Lemma churned_set_lookup_loops (fuel : nat) :
  forall c : size_type,
    c < 4 ->
    probe_loop (fun k : N => k) N.eqb fuel
      {| t_size := 0;
         t_max_size := 2;
         t_slots := [Some 0; Some 1; Some 2; Some 3];
         t_deleted := [true; true; true; true];
         first_ind := 4 |}
      5 false (LinearProbing.make c 4) c
    = Timeout.
Proof.
  induction fuel as [| fuel IH]; intros c Hc; [reflexivity |].
  assert (H4 : c = 0 \/ c = 1 \/ c = 2 \/ c = 3) by lia.
  destruct H4 as [-> | [-> | [-> | ->]]]; cbn; apply IH; lia.
Qed.

(** C10 fails on the code.  After four keys have been inserted and erased
    in a table of four slots, every slot is a tombstone and none is empty.
    The key 5 has no live entry, and [erase(5)] does not return: the lookup
    walks the four tombstones round and round, whatever the fuel. *)
Theorem erase_absent_key_loops :
  (exists t,
      Run.map_run 10 (construct 0) Run.map_churn = Ok t
      /\ live_entries t = [] /\ size t = 0
      /\ forall fuel, Run.map_erase fuel t 5 = Timeout)
  /\ (exists t,
         Run.set_run 10 (construct 0) Run.set_churn = Ok t
         /\ live_entries t = [] /\ size t = 0
         /\ forall fuel, Run.set_erase fuel t 5 = Timeout).
Proof.
  split; eexists; (split; [vm_compute; reflexivity |]);
    do 2 (split; [reflexivity |]); intro fuel.
  - unfold Run.map_erase, HashMap.erase, erase, find, find_index.
    cbn [t_slots vec_size length N.of_nat N.eqb andb negb umod bind
         Pos.of_succ_nat Pos.succ Run.hash_id N.modulo policy_make
         LinearProbing_policy].
    change (Run.hash_id 5 mod 4) with 1.
    rewrite churned_map_lookup_loops by lia. reflexivity.
  - unfold Run.set_erase, HashSet.erase, erase, find, find_index.
    cbn [t_slots vec_size length N.of_nat N.eqb andb negb umod bind
         Pos.of_succ_nat Pos.succ Run.hash_id N.modulo policy_make
         LinearProbing_policy].
    change (Run.hash_id 5 mod 4) with 1.
    rewrite churned_set_lookup_loops by lia. reflexivity.
Qed.

(** ** Lookup and erasure under [LinearProbing] *)

Section LinearLookup.

Variables Key value_type : Type.
Variable entry_key : value_type -> Key.
Variable hasher : Key -> size_type.
Variable key_equal : Key -> Key -> bool.

Abbreviation table := (table value_type).
Abbreviation probe_loop :=
  (probe_loop entry_key key_equal (P := LinearProbing.t)).
Abbreviation find_index :=
  (find_index entry_key hasher key_equal (P := LinearProbing.t)).
Abbreviation find := (find entry_key hasher key_equal (P := LinearProbing.t)).
Abbreviation erase :=
  (erase entry_key hasher key_equal (P := LinearProbing.t)).
Abbreviation insert :=
  (insert entry_key hasher key_equal (P := LinearProbing.t)).
Abbreviation place :=
  (place entry_key hasher key_equal (P := LinearProbing.t)).
Abbreviation stops_at := (stops_at entry_key key_equal).


Lemma skip_loop_total (t : table) :
  length (t_deleted t) = length (t_slots t) ->
  forall (n : nat) (c : size_type), exists r, skip_loop n t c = Ok r.
Proof.
  intros Hlen. induction n as [| n IH]; intro c; simpl; [eauto |].
  destruct (c <? vec_size (t_slots t)) eqn:E; [| eauto].
  apply N.ltb_lt in E.
  destruct (vec_at_defined _ E) as [[e |] E1]; rewrite E1; simpl; auto.
  assert (E' : c < vec_size (t_deleted t))
    by (unfold vec_size in *; rewrite Hlen; exact E).
  destruct (vec_at_defined _ E') as [d E2]. rewrite E2. simpl.
  destruct d; eauto.
Qed.

(** What [find_index(key, false)] makes of the slot at which the loop
    stopped. *)
Lemma find_index_lookup (fuel : nat) (t : table) (key : Key)
  (i : size_type) :
  wf t -> 0 < t_max_size t ->
  probe_loop fuel t key false
    (LinearProbing.make (hasher key mod (2 * t_max_size t))
       (2 * t_max_size t))
    (hasher key mod (2 * t_max_size t)) = Ok i ->
  find_index fuel t key false
  = (slot <- vec_at (t_slots t) i ;;
     match slot with
     | None => Ok (wrap (t_max_size t * 2))
     | Some e =>
         d <- vec_at (t_deleted t) i ;;
         if negb d && key_equal (entry_key e) key then Ok i
         else Ok (wrap (t_max_size t * 2))
     end).
Proof.
  intros Hwf Hpos E. destruct (wf_vec_size Hwf) as [Hvs _].
  unfold find_index, umod. rewrite Hvs.
  destruct (2 * t_max_size t =? 0) eqn:E0; [apply N.eqb_eq in E0; lia |].
  cbn [andb bind policy_make LinearProbing_policy]. rewrite E.
  reflexivity.
Qed.



(** A lookup of a key without live entry reports the key absent, if the
    table has an empty slot. *)
Lemma find_absent (fuel : nat) (t : table) (key : Key) (j : nat) :
  wf t ->
  nth_error (t_slots t) j = Some None ->
  (forall i e, live_at t i e -> key_equal (entry_key e) key = false) ->
  (N.to_nat (2 * t_max_size t) < fuel)%nat ->
  find fuel t key = Ok (end_ t).
Proof.
  intros Hwf Hempty Habsent Hfuel.
  destruct (wf_vec_size Hwf) as [Hvs Hvd]. pose proof (wf_range Hwf) as Hr.
  assert (Hj : (j < length (t_slots t))%nat)
    by (apply nth_error_Some; rewrite Hempty; discriminate).
  assert (Hpos : 0 < t_max_size t) by (unfold vec_size in Hvs; lia).
  set (m := 2 * t_max_size t) in *.
  assert (Hc : hasher key mod m < m) by (apply N.mod_lt; lia).
  assert (Hstop : stops_at t key false (N.of_nat j)).
  { left. apply vec_at_Ok. rewrite Nat2N.id. exact Hempty. }
  destruct (@linear_probe_terminates Key value_type entry_key key_equal
              t key false m (hasher key mod m) (N.of_nat j) fuel)
    as (i & Ei); auto.
  unfold find.
  rewrite (@find_index_lookup fuel t key i Hwf Hpos Ei).
  assert (Hend : (if wrap (t_max_size t * 2) =? wrap (t_max_size t * 2)
                  then Ok (end_ t) else Ok (wrap (t_max_size t * 2)))
                 = Ok (end_ t)) by (rewrite N.eqb_refl; reflexivity).
  apply probe_loop_stops in Ei.
  destruct Ei as [E | (e & d & E1 & E2 & E3)].
  - rewrite E. cbn [bind]. exact Hend.
  - rewrite E1. cbn [bind]. rewrite E2. cbn [bind].
    destruct d; cbn [negb andb]; [exact Hend |].
    rewrite (Habsent (N.to_nat i) e); [exact Hend |].
    split; apply vec_at_Ok; assumption.
Qed.



(** Erasing a key without live entry returns 0 and leaves the table as it
    was, if the table has an empty slot. *)
Lemma erase_absent_total (fuel : nat) (t : table) (key : Key) (j : nat) :
  wf t ->
  nth_error (t_slots t) j = Some None ->
  (forall i e, live_at t i e -> key_equal (entry_key e) key = false) ->
  (N.to_nat (2 * t_max_size t) < fuel)%nat ->
  erase fuel t key = Ok (t, 0).
Proof.
  intros Hwf Hempty Habsent Hfuel. unfold erase.
  rewrite (find_absent _ Hwf Hempty Habsent Hfuel). cbn [bind].
  rewrite N.eqb_refl. reflexivity.
Qed.

End LinearLookup.

(** ** Reuse of a tombstoned slot *)



(** ** Every reachable table is well-formed *)

Section Reachable.

Variables Key value_type : Type.
Variable entry_key : value_type -> Key.
Variable hasher : Key -> size_type.
Variable key_equal : Key -> Key -> bool.
Context {P : Type} {policy : CollisionPolicy P}.

Abbreviation table := (table value_type).
Abbreviation find_index := (find_index entry_key hasher key_equal (P := P)).
Abbreviation erase := (erase entry_key hasher key_equal (P := P)).
Abbreviation insert := (insert entry_key hasher key_equal (P := P)).
Abbreviation run := (run entry_key hasher key_equal (P := P)).

(** A lookup that does not answer [end()] answers with a live slot that
    holds the key. *)
Lemma find_index_found (fuel : nat) (t : table) (key : Key) (i : size_type) :
  find_index fuel t key false = Ok i ->
  i <> wrap (t_max_size t * 2) ->
  exists e,
    vec_at (t_slots t) i = Ok (Some e)
    /\ vec_at (t_deleted t) i = Ok false
    /\ key_equal (entry_key e) key = true.
Proof.
  unfold find_index. intros E Hi.
  destruct (vec_size (t_slots t) =? 0); simpl in E.
  - inversion E. congruence.
  - inv_bind E. inv_bind E. simpl in E. inv_bind E.
    destruct x1 as [e |]; [| inversion E; congruence].
    inv_bind E. destruct x1; simpl in E.
    + inversion E. congruence.
    + destruct (key_equal (entry_key e) key) eqn:Ek;
        inversion E; try congruence.
      subst. exists e. auto.
Qed.

(** Erasure by key keeps the invariant and does not resize the table. *)
Lemma erase_spec (fuel : nat) (t t' : table) (key : Key) (n : size_type) :
  wf t -> erase fuel t key = Ok (t', n) ->
  wf t' /\ t_max_size t' = t_max_size t.
Proof.
  intros Hwf E. unfold erase in E. inv_bind E. rename x into it.
  destruct (negb (it =? end_ t)) eqn:Hend;
    [| inversion E; subst; auto].
  apply negb_true_iff, N.eqb_neq in Hend.
  unfold find in E0. inv_bind E0. rename x into find_ind.
  destruct (find_ind =? wrap (t_max_size t * 2)) eqn:Ef;
    inversion E0; subst it; [unfold end_ in Hend; congruence |].
  apply N.eqb_neq in Ef.
  destruct (find_index_found _ _ _ E1 Ef) as (e & Es & Ed & _).
  inv_bind E. destruct x as [t1 it']. inversion E; subst t1 n. clear E.
  unfold erase_pos in E2. rewrite Es in E2. cbn [bind] in E2.
  inv_bind E2. apply vec_set_Ok in E. destruct E as [_ ->].
  inv_bind E2. inversion E2; subst t'. clear E2.
  apply vec_at_Ok in Es, Ed.
  pose proof (live_length_tombstone _ _ _ Es Ed) as Hcount.
  destruct Hwf as [Hr Hs Hd Hz Hl]. unfold live_count, live_entries in Hz.
  assert (Hdecr : decr (t_size t) + 1 = t_size t).
  { replace (t_size t) with ((t_size t - 1) + 1) at 1 by lia.
    rewrite decr_succ by lia. lia. }
  split; [| reflexivity].
  split; cbn [t_slots t_deleted t_max_size t_size];
    unfold live_count, live_entries; cbn [t_slots t_deleted];
    rewrite ?list_set_length; auto; lia.
Qed.

End Reachable.

(** ** The first live index and the iteration *)

Section FirstLive.

Variable value_type : Type.

Abbreviation first_live := (@first_live value_type).
Abbreviation next_live := (@next_live value_type).
Abbreviation live_entries_of := (@live_entries_of value_type).

Lemma first_live_le (slots : list (option value_type)) :
  forall deleted : list bool,
    (first_live slots deleted <= length slots)%nat.
Proof.
  induction slots as [| s slots IH]; intros [| d deleted]; simpl; try lia.
  destruct (is_live s d); [lia |]. specialize (IH deleted). lia.
Qed.

Lemma first_live_is_live (slots : list (option value_type)) :
  forall deleted : list bool,
    length deleted = length slots ->
    (first_live slots deleted < length slots)%nat ->
    exists e,
      nth_error slots (first_live slots deleted) = Some (Some e)
      /\ nth_error deleted (first_live slots deleted) = Some false.
Proof.
  induction slots as [| s slots IH]; intros [| d deleted] Hlen Hlt;
    simpl in *; try lia; try discriminate.
  destruct (is_live s d) eqn:El.
  - destruct s as [e |]; [destruct d |]; simpl in El; try discriminate.
    exists e. auto.
  - apply IH; lia.
Qed.

Lemma first_live_least (slots : list (option value_type)) :
  forall (deleted : list bool) (i : nat) (e : value_type),
    nth_error slots i = Some (Some e) ->
    nth_error deleted i = Some false ->
    (first_live slots deleted <= i)%nat.
Proof.
  induction slots as [| s slots IH]; intros [| d deleted] [| i] e Hs Hd;
    simpl in *; try discriminate.
  - inversion Hs; inversion Hd; subst. simpl. lia.
  - destruct (is_live s d); [lia |]. specialize (IH deleted i e Hs Hd). lia.
Qed.

Lemma first_live_none (slots : list (option value_type)) :
  forall deleted : list bool,
    length deleted = length slots ->
    (first_live slots deleted = length slots
     <-> live_entries_of slots deleted = []).
Proof.
  induction slots as [| s slots IH]; intros [| d deleted] Hlen;
    simpl in *; try discriminate; [tauto |].
  specialize (IH deleted).
  destruct s as [e |]; [destruct d |]; simpl; split; intro H;
    try discriminate; try lia; try (apply IH; lia);
    try (f_equal; apply IH; [lia | assumption]).
Qed.

Lemma skipn_cons_nth {A : Type} (l : list A) :
  forall (c : nat) (x : A),
    nth_error l c = Some x -> skipn c l = x :: skipn (S c) l.
Proof.
  induction l as [| y l IH]; intros [| c] x E; simpl in *;
    try discriminate.
  - inversion E. reflexivity.
  - apply IH. exact E.
Qed.

Lemma next_live_beyond (slots : list (option value_type))
  (deleted : list bool) (c : nat) :
  (length slots <= c)%nat -> next_live slots deleted c = c.
Proof.
  intro Hc. unfold next_live. rewrite skipn_all2 by exact Hc. simpl. lia.
Qed.

Lemma next_live_step (slots : list (option value_type))
  (deleted : list bool) (c : nat) (slot : option value_type) (d : bool) :
  nth_error slots c = Some slot ->
  nth_error deleted c = Some d ->
  next_live slots deleted c
  = if is_live slot d then c else next_live slots deleted (S c).
Proof.
  intros Hs Hd. unfold next_live.
  rewrite (skipn_cons_nth _ _ Hs), (skipn_cons_nth _ _ Hd).
  cbn [first_live]. destruct (is_live slot d); lia.
Qed.

Lemma next_live_bounds (slots : list (option value_type))
  (deleted : list bool) (c : nat) :
  (c <= length slots)%nat ->
  (c <= next_live slots deleted c <= length slots)%nat.
Proof.
  intro Hc. unfold next_live.
  pose proof (first_live_le (skipn c slots) (skipn c deleted)) as H.
  rewrite length_skipn in H. lia.
Qed.

Lemma next_live_is_live (slots : list (option value_type))
  (deleted : list bool) (c : nat) :
  length deleted = length slots ->
  (next_live slots deleted c < length slots)%nat ->
  exists e,
    nth_error slots (next_live slots deleted c) = Some (Some e)
    /\ nth_error deleted (next_live slots deleted c) = Some false.
Proof.
  intros Hlen Hlt. unfold next_live in *.
  destruct (@first_live_is_live (skipn c slots) (skipn c deleted))
    as (e & H1 & H2).
  - rewrite !length_skipn. lia.
  - rewrite length_skipn. lia.
  - exists e. rewrite nth_error_skipn in H1, H2. auto.
Qed.

(** Skipping the slots before the first live one loses no live entry. *)
Lemma live_entries_skip (slots : list (option value_type)) :
  forall deleted : list bool,
    length deleted = length slots ->
    live_entries_of slots deleted
    = live_entries_of (skipn (first_live slots deleted) slots)
        (skipn (first_live slots deleted) deleted).
Proof.
  induction slots as [| s slots IH]; intros [| d deleted] Hlen;
    simpl in *; try discriminate; auto.
  destruct s as [e |]; [destruct d |]; simpl; auto.
Qed.

Lemma live_entries_next (slots : list (option value_type))
  (deleted : list bool) (c : nat) :
  length deleted = length slots ->
  live_entries_of (skipn c slots) (skipn c deleted)
  = live_entries_of (skipn (next_live slots deleted c) slots)
      (skipn (next_live slots deleted c) deleted).
Proof.
  intro Hlen. unfold next_live.
  rewrite (Nat.add_comm c), <- !skipn_skipn.
  apply live_entries_skip. rewrite !length_skipn. lia.
Qed.

End FirstLive.

Section Iteration.

Variable value_type : Type.

Abbreviation table := (table value_type).

Lemma skip_loop_spec (t : table) :
  length (t_deleted t) = length (t_slots t) ->
  vec_size (t_slots t) <= SIZE_MAX ->
  forall (n c : nat),
    (length (t_slots t) < c + n)%nat ->
    (c <= length (t_slots t))%nat ->
    skip_loop n t (N.of_nat c)
    = Ok (N.of_nat (next_live (t_slots t) (t_deleted t) c)).
Proof.
  intros Hlen Hfit. unfold vec_size in Hfit.
  induction n as [| n IH]; intros c Hn Hc.
  - simpl. rewrite next_live_beyond by lia. reflexivity.
  - cbn [skip_loop]. unfold vec_size.
    destruct (N.of_nat c <? N.of_nat (length (t_slots t))) eqn:E.
    + apply N.ltb_lt in E.
      destruct (nth_error (t_slots t) c) as [slot |] eqn:Es;
        [| apply nth_error_None in Es; lia].
      destruct (nth_error (t_deleted t) c) as [d |] eqn:Ed;
        [| apply nth_error_None in Ed; lia].
      rewrite (next_live_step _ _ _ Es Ed).
      assert (Hw : wrap (N.of_nat c + 1) = N.of_nat (S c))
        by (rewrite wrap_small; lia).
      rewrite <- (Nat2N.id c) in Es, Ed. apply vec_at_Ok in Es, Ed.
      rewrite Es. cbn [bind].
      destruct slot as [e |]; cbn [is_live].
      * rewrite Ed. cbn [bind]. destruct d; cbn [negb]; [| reflexivity].
        rewrite Hw. apply IH; lia.
      * rewrite Hw. apply IH; lia.
    + apply N.ltb_ge in E. rewrite next_live_beyond by lia. reflexivity.
Qed.

(** The iterator's [operator++] moves to the next live slot, or to the
    end. *)
Lemma iterator_incr_spec (t : table) (c : nat) :
  length (t_deleted t) = length (t_slots t) ->
  vec_size (t_slots t) <= SIZE_MAX ->
  (c < length (t_slots t))%nat ->
  iterator_incr t (N.of_nat c)
  = Ok (N.of_nat (next_live (t_slots t) (t_deleted t) (S c))).
Proof.
  intros Hlen Hfit Hc. unfold iterator_incr.
  assert (Hw : wrap (N.of_nat c + 1) = N.of_nat (S c))
    by (unfold vec_size in Hfit; rewrite wrap_small; lia).
  rewrite Hw. apply skip_loop_spec; auto; lia.
Qed.

(** From a live slot, or from the end, the iteration yields the live entries
    of the slots that remain, in slot order. *)
Lemma iterate_from_spec (t : table) :
  wf t ->
  forall (fuel c : nat),
    (length (t_slots t) - c < fuel)%nat ->
    (c <= length (t_slots t))%nat ->
    next_live (t_slots t) (t_deleted t) c = c ->
    iterate_from fuel t (N.of_nat c)
    = Ok (live_entries_of (skipn c (t_slots t)) (skipn c (t_deleted t))).
Proof.
  intros Hwf. destruct (wf_vec_size Hwf) as [Hvs _].
  pose proof (wf_range Hwf) as Hr. pose proof (wf_deleted Hwf) as Hlen.
  assert (Hend : end_ t = N.of_nat (length (t_slots t))).
  { unfold end_. rewrite wrap_small by lia. unfold vec_size in Hvs. lia. }
  induction fuel as [| fuel IH]; intros c Hfuel Hc Hlive; [lia |].
  cbn [iterate_from]. rewrite Hend.
  destruct (N.of_nat c =? N.of_nat (length (t_slots t))) eqn:E.
  - apply N.eqb_eq in E. rewrite !skipn_all2 by lia. reflexivity.
  - apply N.eqb_neq in E.
    assert (Hlt : (c < length (t_slots t))%nat) by lia.
    destruct (@next_live_is_live value_type (t_slots t) (t_deleted t) c Hlen)
      as (e & Es & Ed); [lia |].
    rewrite Hlive in Es, Ed.
    unfold iterator_deref.
    pose proof Es as Es'. rewrite <- (Nat2N.id c) in Es'.
    apply vec_at_Ok in Es'. rewrite Es'. cbn [bind].
    rewrite iterator_incr_spec by (auto; lia). cbn [bind].
    pose proof (@next_live_bounds value_type (t_slots t) (t_deleted t) (S c))
      as Hb.
    rewrite IH; try lia.
    + cbn [bind].
      rewrite (skipn_cons_nth _ _ Es), (skipn_cons_nth _ _ Ed).
      cbn [live_entries_of].
      rewrite <- live_entries_next by exact Hlen. reflexivity.
    + pose proof (@next_live_is_live value_type (t_slots t) (t_deleted t)
                    (S c) Hlen) as Hnl.
      unfold next_live at 1.
      set (c' := next_live (t_slots t) (t_deleted t) (S c)) in *.
      clearbody c'.
      destruct (Nat.eq_dec c' (length (t_slots t))) as [H | H].
      * rewrite !skipn_all2 by lia. simpl. lia.
      * destruct Hnl as (e' & Es1 & Ed1); [lia |].
        rewrite (skipn_cons_nth _ _ Es1), (skipn_cons_nth _ _ Ed1).
        simpl. lia.
Qed.

(** On a well-formed table whose [first_ind] is the first live index, the
    iteration from [begin()] to [end()] returns, and yields every live slot
    once, in slot order. *)
Lemma iterate_live_entries (t : table) (fuel : nat) :
  wf t -> first_ind_ok t ->
  (length (t_slots t) < fuel)%nat ->
  iterate fuel t = Ok (live_entries t).
Proof.
  intros Hwf Hfirst Hfuel. unfold iterate, begin_. rewrite Hfirst.
  pose proof (wf_deleted Hwf) as Hlen.
  pose proof (first_live_le (t_slots t) (t_deleted t)) as Hle.
  rewrite iterate_from_spec; auto; try lia.
  - unfold live_entries. f_equal. symmetry. apply live_entries_skip.
    exact Hlen.
  - pose proof (@first_live_is_live value_type (t_slots t) (t_deleted t)
                  Hlen) as Hfl.
    unfold next_live.
    set (c := first_live (t_slots t) (t_deleted t)) in *. clearbody c.
    destruct (Nat.eq_dec c (length (t_slots t))) as [H | H].
    + rewrite !skipn_all2 by lia. simpl. lia.
    + destruct Hfl as (e & Es & Ed); [lia |].
      rewrite (skipn_cons_nth _ _ Es), (skipn_cons_nth _ _ Ed).
      simpl. lia.
Qed.

(** What [first_ind_ok] says in the words of the specification. *)
Lemma first_ind_ok_spec (t : table) :
  wf t -> first_ind_ok t ->
  (forall i e, live_at t i e -> first_ind t <= N.of_nat i)
  /\ (first_ind t = N.of_nat (physical_length t) <-> live_count t = 0%nat).
Proof.
  intros Hwf Hfirst. pose proof (wf_deleted Hwf) as Hlen.
  unfold first_ind_ok in Hfirst. split.
  - intros i e [Hs Hd]. rewrite Hfirst.
    pose proof (first_live_least _ _ _ Hs Hd). lia.
  - rewrite Hfirst. unfold physical_length, live_count, live_entries.
    pose proof (@first_live_none value_type (t_slots t) (t_deleted t) Hlen)
      as H.
    rewrite length_zero_iff_nil. rewrite <- H. lia.
Qed.

End Iteration.

(** ** Insertion and erasure keep [first_ind] the first live index *)

Section FirstIndex.

Variables Key value_type : Type.
Variable entry_key : value_type -> Key.
Variable hasher : Key -> size_type.
Variable key_equal : Key -> Key -> bool.
Context {P : Type} {policy : CollisionPolicy P}.

Abbreviation table := (table value_type).
Abbreviation find_index := (find_index entry_key hasher key_equal (P := P)).
Abbreviation place := (place entry_key hasher key_equal (P := P)).
Abbreviation emplace_impl :=
  (emplace_impl entry_key hasher key_equal (P := P)).
Abbreviation emplace_in := (emplace_in entry_key hasher key_equal (P := P)).
Abbreviation erase := (erase entry_key hasher key_equal (P := P)).
Abbreviation run := (run entry_key hasher key_equal (P := P)).

Lemma first_live_fresh (n : nat) :
  first_live (repeat (@None value_type) n) (repeat true n) = n.
Proof. induction n; simpl; auto. Qed.

Lemma first_live_install (slots : list (option value_type)) :
  forall (deleted : list bool) (i : nat) (v : value_type),
    length deleted = length slots ->
    (i < length slots)%nat ->
    first_live (list_set slots i (Some v)) (list_set deleted i false)
    = Nat.min (first_live slots deleted) i.
Proof.
  induction slots as [| s slots IH]; intros [| d deleted] [| i] v Hlen Hi;
    simpl in *; try lia; try discriminate.
  destruct (is_live s d); [reflexivity |].
  rewrite IH by lia. reflexivity.
Qed.

Lemma first_live_tombstone (slots : list (option value_type)) :
  forall (deleted : list bool) (i : nat) (e : value_type),
    nth_error slots i = Some (Some e) ->
    nth_error deleted i = Some false ->
    first_live slots (list_set deleted i true)
    = if (first_live slots deleted =? i)%nat
      then next_live slots (list_set deleted i true) (S i)
      else first_live slots deleted.
Proof.
  induction slots as [| s slots IH]; intros [| d deleted] [| i] e Hs Hd;
    simpl in *; try discriminate.
  - inversion Hs; inversion Hd; subst. reflexivity.
  - destruct (is_live s d); [reflexivity |].
    rewrite (IH deleted i e Hs Hd). cbn [Nat.eqb].
    destruct (first_live slots deleted =? i)%nat; reflexivity.
Qed.

(** The table that [place] leaves. *)
Lemma place_inv (fuel : nat) (t t' : table) (v : value_type)
  (i : size_type) (b : bool) :
  place fuel t v = Ok (t', (i, b)) ->
  (b = false /\ t' = t)
  \/ (b = true
      /\ i < vec_size (t_slots t) /\ i < vec_size (t_deleted t)
      /\ t' = {| t_size := wrap (t_size t + 1);
                 t_max_size := t_max_size t;
                 t_slots := list_set (t_slots t) (N.to_nat i) (Some v);
                 t_deleted := list_set (t_deleted t) (N.to_nat i) false;
                 first_ind := if empty t then i
                              else N.min (first_ind t) i |}).
Proof.
  intro E. unfold place in E. inv_bind E. inv_bind E. inv_bind E.
  destruct x1.
  - inv_bind E. apply vec_set_Ok in E3. destruct E3 as [Hi ->].
    inv_bind E. unfold update_after_insert in E3. simpl in E3.
    inv_bind E3. apply vec_set_Ok in E4. destruct E4 as [Hi' ->].
    inversion E3; subst; clear E3. inversion E; subst; clear E.
    right. split_and; auto.
  - inversion E; subst. left. auto.
Qed.

Lemma place_first_ind_ok (fuel : nat) (t t' : table) (v : value_type)
  (r : size_type * bool) :
  wf t -> first_ind_ok t ->
  place fuel t v = Ok (t', r) ->
  first_ind_ok t'.
Proof.
  intros Hwf Hfirst E. destruct r as [i b].
  apply place_inv in E. destruct E as [[_ ->] | (_ & Hi & _ & ->)]; auto.
  unfold first_ind_ok in *. cbn [first_ind t_slots t_deleted].
  pose proof (wf_deleted Hwf) as Hlen. unfold vec_size in Hi.
  rewrite first_live_install by (auto; lia).
  unfold empty. destruct (t_size t =? 0) eqn:E0.
  - apply N.eqb_eq in E0. pose proof (wf_size Hwf) as Hz.
    assert (Hnone : first_live (t_slots t) (t_deleted t)
                    = length (t_slots t)).
    { apply first_live_none; auto.
      apply length_zero_iff_nil. unfold live_count, live_entries in Hz.
      lia. }
    rewrite Hnone. lia.
  - rewrite Hfirst. lia.
Qed.

Lemma migrate_first_ind_ok (fuel : nat)
  (temp_map : list (option value_type)) :
  forall (temp_deleted : list bool) (t t' : table),
    wf t -> first_ind_ok t ->
    2 * (t_size t
         + N.of_nat (length (live_entries_of temp_map temp_deleted)))
    < t_max_size t ->
    migrate (emplace_in fuel) temp_map temp_deleted t = Ok t' ->
    first_ind_ok t'.
Proof.
  induction temp_map as [| slot temp_map IH];
    intros temp_deleted t t' Hwf Hfirst Hroom E; simpl in E.
  - inversion E; subst. exact Hfirst.
  - destruct slot as [e |].
    + destruct temp_deleted as [| [|] temp_deleted]; try discriminate;
        cbn [live_entries_of length] in Hroom.
      * eapply IH; eauto.
      * inv_bind E. rename x into t1.
        unfold emplace_in in E0. inv_bind E0.
        destruct x as [t1' [i b]]. simpl in E0. inversion E0; subst t1'.
        destruct fuel as [| fuel]; [discriminate |].
        rewrite emplace_impl_room in E1 by (apply half_has_room; auto; lia).
        pose proof (place_first_ind_ok _ _ Hwf Hfirst E1) as Hfirst1.
        apply place_spec in E1; [| assumption | lia].
        destruct E1 as (Hwf1 & Hmax1 & Hsize1 & _).
        apply (IH temp_deleted t1 t' Hwf1 Hfirst1); auto.
        rewrite Hmax1, Hsize1. destruct b; lia.
    + destruct temp_deleted as [| d temp_deleted];
        cbn [live_entries_of length tl] in *.
      * apply (IH [] t t' Hwf Hfirst); auto.
        destruct temp_map as [| [?|] ?]; cbn [live_entries_of length]; lia.
      * eapply IH; eauto.
Qed.

Lemma emplace_impl_first_ind_ok (fuel : nat) (t t' : table)
  (v : value_type) (r : size_type * bool) :
  wf t -> 4 * t_max_size t + 2 <= SIZE_MAX ->
  first_ind_ok t ->
  emplace_impl fuel t v = Ok (t', r) ->
  first_ind_ok t'.
Proof.
  intros Hwf Hfit Hfirst E. destruct fuel as [| fuel]; [discriminate |].
  destruct (fge (load_factor t) max_load_factor) eqn:Htest.
  - rewrite emplace_impl_unfold in E. inv_bind E. rename x into t1.
    rewrite check_fullness_full in E0 by assumption.
    destruct (check_fullness_grows Hwf Hfit) as (Hg1 & Hg2 & Hg3).
    pose proof E0 as E0'.
    apply rehash_with_spec in E0'; auto.
    destruct E0' as (Hwf1 & Hmax1 & Hsize1).
    assert (Hfirst1 : first_ind_ok t1).
    { unfold rehash_with in E0.
      set (n := rehash_new_size (wrap (t_max_size t * 2)) t) in *.
      assert (Hw : wrap (n * 2) = 2 * n) by (rewrite wrap_small; lia).
      rewrite Hw in E0.
      pose proof (wf_size Hwf) as Hz. unfold live_count, live_entries in Hz.
      apply migrate_first_ind_ok in E0; auto.
      - pose proof (@wf_construct value_type n Hg1) as Hc.
        unfold construct in Hc. rewrite Hw in Hc. exact Hc.
      - unfold first_ind_ok. cbn [first_ind t_slots t_deleted].
        unfold vec_make. rewrite first_live_fresh. lia.
      - cbn [t_size t_max_size]. lia. }
    eapply place_first_ind_ok; eauto.
  - rewrite emplace_impl_room in E by assumption.
    eapply place_first_ind_ok; eauto.
Qed.

(** The table that [erase(key)] leaves. *)
Lemma erase_inv (fuel : nat) (t t' : table) (key : Key) (n : size_type) :
  erase fuel t key = Ok (t', n) ->
  (n = 0 /\ t' = t)
  \/ (n = 1
      /\ exists i e it,
          live_at t (N.to_nat i) e
          /\ key_equal (entry_key e) key = true
          /\ iterator_incr
               {| t_size := decr (t_size t);
                  t_max_size := t_max_size t;
                  t_slots := t_slots t;
                  t_deleted := list_set (t_deleted t) (N.to_nat i) true;
                  first_ind := first_ind t |} i = Ok it
          /\ t' = {| t_size := decr (t_size t);
                     t_max_size := t_max_size t;
                     t_slots := t_slots t;
                     t_deleted := list_set (t_deleted t) (N.to_nat i) true;
                     first_ind := if i =? first_ind t then it
                                  else first_ind t |}).
Proof.
  intro E. unfold erase in E. inv_bind E. rename x into it.
  destruct (negb (it =? end_ t)) eqn:Hend;
    [| inversion E; subst; auto].
  apply negb_true_iff, N.eqb_neq in Hend.
  unfold find in E0. inv_bind E0. rename x into find_ind.
  destruct (find_ind =? wrap (t_max_size t * 2)) eqn:Ef;
    inversion E0; subst it; [unfold end_ in Hend; congruence |].
  apply N.eqb_neq in Ef.
  destruct (find_index_found _ _ _ _ _ _ E1 Ef) as (e & Es & Ed & Hk).
  inv_bind E. destruct x as [t1 it']. inversion E; subst t1 n. clear E.
  unfold erase_pos in E2. rewrite Es in E2. cbn [bind] in E2.
  inv_bind E2. apply vec_set_Ok in E. destruct E as [_ ->].
  inv_bind E2. rename x into nxt. inversion E2; subst t' it'. clear E2.
  right. split; [reflexivity |]. exists find_ind, e, nxt.
  split_and; auto. split; apply vec_at_Ok; assumption.
Qed.

Lemma erase_first_ind_ok (fuel : nat) (t t' : table) (key : Key)
  (n : size_type) :
  wf t -> first_ind_ok t ->
  erase fuel t key = Ok (t', n) ->
  first_ind_ok t'.
Proof.
  intros Hwf Hfirst E. apply erase_inv in E.
  destruct E as [[_ ->] | (_ & i & e & it & [Hs Hd] & _ & Eit & ->)]; auto.
  pose proof (wf_deleted Hwf) as Hlen. pose proof (wf_range Hwf) as Hr.
  destruct (wf_vec_size Hwf) as [Hvs _].
  assert (Hi : (N.to_nat i < length (t_slots t))%nat)
    by (apply nth_error_Some; rewrite Hs; discriminate).
  rewrite <- (N2Nat.id i) in Eit at 2.
  rewrite iterator_incr_spec in Eit;
    cbn [t_slots t_deleted]; rewrite ?list_set_length; auto; try lia.
  inversion Eit; subst it. clear Eit.
  unfold first_ind_ok in *. cbn [first_ind t_slots t_deleted].
  rewrite (first_live_tombstone _ _ _ Hs Hd). rewrite Hfirst.
  destruct (first_live (t_slots t) (t_deleted t) =? N.to_nat i)%nat eqn:E.
  - apply Nat.eqb_eq in E.
    destruct (i =? N.of_nat (first_live (t_slots t) (t_deleted t))) eqn:E';
      [reflexivity | apply N.eqb_neq in E'; lia].
  - apply Nat.eqb_neq in E.
    destruct (i =? N.of_nat (first_live (t_slots t) (t_deleted t))) eqn:E';
      [apply N.eqb_eq in E'; lia | reflexivity].
Qed.

(** An erasure of a key that no live slot holds, if it returns, returns 0
    and leaves the table as it was. *)
Lemma erase_absent_unchanged (fuel : nat) (t t' : table) (key : Key)
  (n : size_type) :
  (forall i e, live_at t i e -> key_equal (entry_key e) key = false) ->
  erase fuel t key = Ok (t', n) ->
  n = 0 /\ t' = t.
Proof.
  intros Habsent E. apply erase_inv in E.
  destruct E as [H | (_ & i & e & it & Hlive & Hk & _)]; auto.
  rewrite (Habsent _ _ Hlive) in Hk. discriminate.
Qed.

(** [check_fullness] rehashes only a table whose capacity is at most twice
    its size, so the capacity stays within four times the number of
    insertions made so far: [k] bounds the size, [m0 + 4 * k] the
    capacity. *)
Lemma emplace_impl_budget (fuel : nat) (t t' : table) (v : value_type)
  (r : size_type * bool) (m0 k : N) :
  wf t -> t_size t <= k -> t_max_size t <= m0 + 4 * k ->
  m0 + 4 * (k + 1) <= 2 ^ 61 ->
  emplace_impl fuel t v = Ok (t', r) ->
  4 * t_max_size t + 2 <= SIZE_MAX
  /\ wf t' /\ t_size t' <= k + 1 /\ t_max_size t' <= m0 + 4 * (k + 1).
Proof.
  intros Hwf Hsize Hmax Hfit E.
  assert (Hfit1 : 4 * t_max_size t + 2 <= SIZE_MAX).
  { change (2 ^ 61) with 2305843009213693952 in Hfit. unfold SIZE_MAX. lia. }
  split; [exact Hfit1 |]. destruct r as [i b].
  apply emplace_impl_spec in E; auto.
  destruct E as (Hwf1 & _ & Hsize1 & Hroom & Hfull).
  split_and; auto; [lia |].
  destruct (fge (load_factor t) max_load_factor) eqn:Htest.
  - rewrite (Hfull eq_refl).
    assert (Hhalf : t_max_size t <= 2 * t_size t).
    { destruct (N.le_gt_cases (t_max_size t) (2 * t_size t)) as [H | H];
        [exact H |].
      pose proof (half_has_room Hwf H) as Hr. unfold has_room in Hr.
      congruence. }
    destruct (t_max_size t =? 0); lia.
  - rewrite (Hroom Htest). lia.
Qed.

(** An erasure does not raise the size. *)
Lemma erase_size (fuel : nat) (t t' : table) (key : Key) (n : size_type) :
  wf t -> erase fuel t key = Ok (t', n) -> t_size t' <= t_size t.
Proof.
  intros Hwf E. pose proof E as Hspec. apply erase_spec in Hspec; auto.
  destruct Hspec as [Hwf' _]. apply erase_inv in E.
  destruct E as [[_ ->] | (_ & i & e & it & [Hs Hd] & _ & _ & ->)]; [lia |].
  pose proof (live_length_tombstone _ _ _ Hs Hd) as Hc.
  pose proof (wf_size Hwf) as Hz. pose proof (wf_size Hwf') as Hz'.
  unfold live_count, live_entries in Hz, Hz'.
  cbn [t_size t_slots t_deleted] in Hz' |- *. lia.
Qed.

(** A history of insertions and erasures keeps the invariant and keeps
    [first_ind] the first live index, as long as four times its length,
    added to the capacity it starts from, stays within 2^61: no capacity
    on the way is then near the end of the range of [size_t]. *)
Lemma run_wf (ops : list (op Key value_type)) :
  forall (fuel : nat) (t t' : table) (m0 k : N),
    wf t -> first_ind_ok t ->
    t_size t <= k -> t_max_size t <= m0 + 4 * k ->
    m0 + 4 * (k + N.of_nat (length ops)) <= 2 ^ 61 ->
    run fuel t ops = Ok t' ->
    wf t' /\ first_ind_ok t'
    /\ t_size t' <= k + N.of_nat (length ops)
    /\ t_max_size t' <= m0 + 4 * (k + N.of_nat (length ops)).
Proof.
  induction ops as [| o ops IH];
    intros fuel t t' m0 k Hwf Hfirst Hsize Hmax Hfit E; simpl in E.
  - inversion E; subst. cbn [length]. split_and; auto; lia.
  - inv_bind E. rename x into t1.
    cbn [length] in Hfit |- *. rewrite Nat2N.inj_succ in Hfit |- *.
    assert (Hstep : wf t1 /\ first_ind_ok t1
                    /\ t_size t1 <= k + 1
                    /\ t_max_size t1 <= m0 + 4 * (k + 1)).
    { destruct o as [value | key]; simpl in E0; inv_bind E0;
        destruct x as [t1' r]; inversion E0; subst t1'.
      - destruct (@emplace_impl_budget fuel t t1 value r m0 k Hwf Hsize
                    Hmax) as (Hfit1 & Hwf1 & Hsize1 & Hmax1);
          [lia | exact E1 |].
        pose proof (emplace_impl_first_ind_ok _ _ Hwf Hfit1 Hfirst E1)
          as Hfirst1.
        split_and; auto.
      - pose proof (erase_first_ind_ok _ _ Hwf Hfirst E1) as Hfirst1.
        pose proof (erase_size _ _ Hwf E1) as Hsize1.
        apply erase_spec in E1; auto. destruct E1 as [Hwf1 Hm].
        split_and; auto; lia. }
    destruct Hstep as (Hwf1 & Hfirst1 & Hsize1 & Hmax1).
    destruct (IH fuel t1 t' m0 (k + 1) Hwf1 Hfirst1 Hsize1 Hmax1)
      as (Hwf' & Hfirst' & Hsize' & Hmax'); auto; [lia |].
    split_and; auto; lia.
Qed.

(** The tables reachable from a constructed one are well-formed, with
    [first_ind] their first live index. *)
Lemma reachable_wf (n : size_type) (ops : list (op Key value_type))
  (fuel : nat) (t : table) :
  n + 4 * N.of_nat (length ops) <= 2 ^ 61 ->
  run fuel (construct n) ops = Ok t ->
  wf t /\ first_ind_ok t
  /\ t_max_size t <= n + 4 * N.of_nat (length ops).
Proof.
  intros Hfit E.
  assert (Hn : 2 * n <= SIZE_MAX).
  { change (2 ^ 61) with 2305843009213693952 in Hfit. unfold SIZE_MAX. lia. }
  pose proof (@wf_construct value_type n Hn) as Hwf0.
  assert (Hfirst0 : first_ind_ok (@construct value_type n)).
  { unfold first_ind_ok, construct, vec_make.
    cbn [first_ind t_slots t_deleted].
    rewrite first_live_fresh. rewrite wrap_small by lia. lia. }
  destruct (@run_wf ops fuel (construct n) t n 0 Hwf0 Hfirst0)
    as (Hwf & Hfirst & _ & Hmax);
    [cbn [t_size construct]; lia | cbn [t_max_size construct]; lia
    | lia | exact E |].
  split_and; auto; lia.
Qed.

End FirstIndex.

(** ** The probing walk under any policy *)

Section Walk.

Variables Key value_type : Type.
Variable entry_key : value_type -> Key.
Variable hasher : Key -> size_type.
Variable key_equal : Key -> Key -> bool.
Context {P : Type} {policy : CollisionPolicy P}.

Abbreviation table := (table value_type).
Abbreviation probe_loop := (probe_loop entry_key key_equal (P := P)).
Abbreviation find_index := (find_index entry_key hasher key_equal (P := P)).
Abbreviation find := (find entry_key hasher key_equal (P := P)).
Abbreviation contains := (contains entry_key hasher key_equal (P := P)).
Abbreviation stops_at := (stops_at entry_key key_equal).
Abbreviation passes := (passes entry_key key_equal).

(** [find] returns the index that [find_index] computes. *)
Lemma find_find_index (fuel : nat) (t : table) (key : Key) :
  find fuel t key = find_index fuel t key false.
Proof.
  unfold find.
  destruct (find_index fuel t key false) as [i | |]; simpl; auto.
  destruct (i =? wrap (t_max_size t * 2)) eqn:E; auto.
  apply N.eqb_eq in E. unfold end_. congruence.
Qed.

Lemma passes_not_stops (t : table) (key : Key) (ins : bool) (i : size_type) :
  passes t key ins i -> stops_at t key ins i -> False.
Proof.
  intros (e & d & Hs & Hd & Hc) [Hn | (e' & d' & Hs' & Hd' & Hc')].
  - congruence.
  - rewrite Hs in Hs'. rewrite Hd in Hd'.
    inversion Hs'; inversion Hd'; subst. congruence.
Qed.

Lemma probe_loop_stop (fuel : nat) (t : table) (key : Key) (ins : bool)
  (pol : P) (c : size_type) :
  stops_at t key ins c -> probe_loop (S fuel) t key ins pol c = Ok c.
Proof.
  intros [Hn | (e & d & Hs & Hd & Hc)]; simpl.
  - rewrite Hn. reflexivity.
  - rewrite Hs. simpl. rewrite Hd. simpl. rewrite Hc. reflexivity.
Qed.

Lemma probe_loop_pass (fuel : nat) (t : table) (key : Key) (ins : bool)
  (pol : P) (c : size_type) :
  passes t key ins c ->
  probe_loop (S fuel) t key ins pol c
  = ('(pol', next) <- policy_next pol ;;
     probe_loop fuel t key ins pol' next).
Proof.
  intros (e & d & Hs & Hd & Hc). simpl.
  rewrite Hs. simpl. rewrite Hd. simpl. rewrite Hc. reflexivity.
Qed.

(** What one round of the loop sees: it stops here, or it goes on. *)
Lemma probe_loop_round (fuel : nat) (t : table) (key : Key) (ins : bool)
  (pol : P) (c i : size_type) :
  probe_loop (S fuel) t key ins pol c = Ok i ->
  (stops_at t key ins c /\ i = c)
  \/ (passes t key ins c
      /\ exists pol' next,
          policy_next pol = Ok (pol', next)
          /\ probe_loop fuel t key ins pol' next = Ok i).
Proof.
  intro E. simpl in E. inv_bind E. destruct x as [e |].
  - inv_bind E.
    destruct ((negb x || negb ins) && negb (key_equal (entry_key e) key))
      eqn:Ec.
    + right. split; [exists e, x; auto |].
      inv_bind E. destruct x0 as [pol' next]. exists pol', next. auto.
    + left. inversion E; subst. split; auto. right. exists e, x. auto.
  - left. inversion E; subst. split; auto. left. auto.
Qed.

(** More fuel does not change a result. *)
Lemma probe_loop_mono (fuel : nat) :
  forall (fuel' : nat) (t : table) (key : Key) (ins : bool) (pol : P)
    (c i : size_type),
    (fuel <= fuel')%nat ->
    probe_loop fuel t key ins pol c = Ok i ->
    probe_loop fuel' t key ins pol c = Ok i.
Proof.
  induction fuel as [| fuel IH]; intros fuel' t key ins pol c i Hle E;
    [discriminate |].
  destruct fuel' as [| fuel']; [lia |].
  apply probe_loop_round in E.
  destruct E as [[Hs ->] | (Hp & pol' & next & Hn & E)].
  - apply probe_loop_stop. exact Hs.
  - rewrite probe_loop_pass by exact Hp. rewrite Hn. simpl.
    apply IH; [lia | exact E].
Qed.

Lemma find_index_mono (fuel fuel' : nat) (t : table) (key : Key)
  (ins : bool) (i : size_type) :
  (fuel <= fuel')%nat ->
  find_index fuel t key ins = Ok i -> find_index fuel' t key ins = Ok i.
Proof.
  intros Hle E. unfold find_index in *.
  destruct ((vec_size (t_slots t) =? 0) && negb ins); [exact E |].
  inv_bind E. rewrite E0. simpl. inv_bind E.
  eapply probe_loop_mono in E1; [| exact Hle].
  rewrite E1. simpl. exact E.
Qed.

Lemma find_mono (fuel fuel' : nat) (t : table) (key : Key) (i : size_type) :
  (fuel <= fuel')%nat ->
  find fuel t key = Ok i -> find fuel' t key = Ok i.
Proof.
  rewrite !find_find_index. apply find_index_mono.
Qed.

(** The walk of a lookup, read back from its result. *)
Lemma find_index_walk (fuel : nat) (t : table) (key : Key) (r : size_type) :
  find_index fuel t key false = Ok r ->
  (vec_size (t_slots t) = 0 /\ r = wrap (t_max_size t * 2))
  \/ exists i,
      probe_loop fuel t key false
        (policy_make (hasher key mod vec_size (t_slots t))
           (vec_size (t_slots t)))
        (hasher key mod vec_size (t_slots t)) = Ok i
      /\ stops_at t key false i
      /\ ((exists e,
             vec_at (t_slots t) i = Ok (Some e)
             /\ vec_at (t_deleted t) i = Ok false
             /\ key_equal (entry_key e) key = true
             /\ r = i)
          \/ ((vec_at (t_slots t) i = Ok None
               \/ exists e, vec_at (t_slots t) i = Ok (Some e)
                            /\ vec_at (t_deleted t) i = Ok true)
              /\ r = wrap (t_max_size t * 2))).
Proof.
  unfold find_index. rewrite andb_true_r.
  destruct (vec_size (t_slots t) =? 0) eqn:Ez.
  - intro E. inversion E. left. apply N.eqb_eq in Ez. auto.
  - intro E. right. unfold umod in E. rewrite Ez in E. simpl in E.
    inv_bind E. rename x into i. exists i. split; [exact E0 |].
    pose proof E0 as Hstop. apply probe_loop_stops in Hstop.
    split; [exact Hstop |].
    inv_bind E. destruct x as [e |].
    + inv_bind E. destruct x.
      * simpl in E. inversion E. right. split; auto. right. exists e. auto.
      * simpl in E.
        destruct Hstop as [Hn | (e' & d' & Hs' & Hd' & Hc')];
          [congruence |].
        rewrite E1 in Hs'. rewrite E2 in Hd'.
        inversion Hs'; inversion Hd'; subst e' d'. simpl in Hc'.
        apply negb_false_iff in Hc'. rewrite Hc' in E.
        inversion E; subst. left. exists e. split_and; auto.
    + inversion E. right. split; auto.
Qed.

(** A lookup whose walk stops at a live slot of the key returns the slot. *)
Lemma find_index_hit (fuel : nat) (t : table) (key : Key) (i : size_type)
  (e : value_type) :
  probe_loop fuel t key false
    (policy_make (hasher key mod vec_size (t_slots t))
       (vec_size (t_slots t)))
    (hasher key mod vec_size (t_slots t)) = Ok i ->
  vec_at (t_slots t) i = Ok (Some e) ->
  vec_at (t_deleted t) i = Ok false ->
  key_equal (entry_key e) key = true ->
  find_index fuel t key false = Ok i.
Proof.
  intros Hw Hs Hd Hk. unfold find_index. rewrite andb_true_r.
  apply vec_at_lt in Hs as Hlt.
  destruct (vec_size (t_slots t) =? 0) eqn:Ez;
    [apply N.eqb_eq in Ez; lia |].
  unfold umod. rewrite Ez. simpl. rewrite Hw. simpl.
  rewrite Hs. simpl. rewrite Hd. simpl. rewrite Hk. reflexivity.
Qed.

(** A lookup whose walk stops at an empty slot or at a tombstone returns the
    end index. *)
Lemma find_index_miss (fuel : nat) (t : table) (key : Key) (i : size_type) :
  probe_loop fuel t key false
    (policy_make (hasher key mod vec_size (t_slots t))
       (vec_size (t_slots t)))
    (hasher key mod vec_size (t_slots t)) = Ok i ->
  (vec_at (t_slots t) i = Ok None
   \/ exists e, vec_at (t_slots t) i = Ok (Some e)
                /\ vec_at (t_deleted t) i = Ok true) ->
  find_index fuel t key false = Ok (wrap (t_max_size t * 2)).
Proof.
  intros Hw Hs. unfold find_index. rewrite andb_true_r.
  destruct (vec_size (t_slots t) =? 0) eqn:Ez; [reflexivity |].
  unfold umod. rewrite Ez. simpl. rewrite Hw. simpl.
  destruct Hs as [Hs | (e & Hs & Hd)]; rewrite Hs; simpl; auto.
  rewrite Hd. reflexivity.
Qed.

(** The walk in a second table, for a second key and mode, follows the walk
    in the first one as long as every slot the first walk goes past is one
    the second walk goes past or stops at. *)
Lemma probe_loop_transfer (t t' : table) (key key' : Key) (ins ins' : bool)
  (i : size_type) :
  (forall j, passes t key ins j ->
             passes t' key' ins' j \/ stops_at t' key' ins' j) ->
  stops_at t' key' ins' i ->
  forall (fuel : nat) (pol : P) (c : size_type),
    probe_loop fuel t key ins pol c = Ok i ->
    exists i',
      probe_loop fuel t' key' ins' pol c = Ok i'
      /\ (i' = i \/ (passes t key ins i' /\ stops_at t' key' ins' i')).
Proof.
  intros Hpass Hstop. induction fuel as [| fuel IH]; intros pol c E;
    [discriminate |].
  apply probe_loop_round in E.
  destruct E as [[Hs ->] | (Hp & pol' & next & Hn & E)].
  - exists c. split; auto. apply probe_loop_stop. exact Hstop.
  - destruct (Hpass c Hp) as [Hp' | Hs'].
    + rewrite probe_loop_pass by exact Hp'. rewrite Hn. simpl.
      apply IH. exact E.
    + exists c. split; auto. apply probe_loop_stop. exact Hs'.
Qed.

Lemma probe_loop_follow (t t' : table) (key key' : Key) (ins ins' : bool)
  (i : size_type) (fuel : nat) (pol : P) (c : size_type) :
  (forall j, passes t key ins j -> passes t' key' ins' j) ->
  stops_at t' key' ins' i ->
  probe_loop fuel t key ins pol c = Ok i ->
  probe_loop fuel t' key' ins' pol c = Ok i.
Proof.
  intros Hpass Hstop E.
  destruct (@probe_loop_transfer t t' key key' ins ins' i) with
    (fuel := fuel) (pol := pol) (c := c) as (i' & E' & [-> | [Hp Hs]]);
    auto.
  exfalso. eapply passes_not_stops; [apply Hpass; exact Hp | exact Hs].
Qed.

(** A lookup does not read the deletion marks while it walks. *)
Lemma probe_loop_lookup_ext (t t' : table) (key : Key) :
  t_slots t' = t_slots t ->
  length (t_deleted t') = length (t_deleted t) ->
  forall (fuel : nat) (pol : P) (c : size_type),
    probe_loop fuel t' key false pol c = probe_loop fuel t key false pol c.
Proof.
  intros Hs Hl. induction fuel as [| fuel IH]; intros pol c; simpl; auto.
  rewrite Hs. destruct (vec_at (t_slots t) c) as [[e |] | |]; simpl; auto.
  assert (Hd : forall A (f g : bool -> result A),
             (forall d d', f d = g d') ->
             bind (vec_at (t_deleted t') c) f = bind (vec_at (t_deleted t) c) g).
  { intros A f g Hf. unfold vec_at.
    destruct (nth_error (t_deleted t') (N.to_nat c)) as [d' |] eqn:E';
      destruct (nth_error (t_deleted t) (N.to_nat c)) as [d |] eqn:E; simpl;
      auto.
    - apply nth_error_None in E.
      assert (N.to_nat c < length (t_deleted t'))%nat
        by (apply nth_error_Some; congruence). lia.
    - apply nth_error_None in E'.
      assert (N.to_nat c < length (t_deleted t))%nat
        by (apply nth_error_Some; congruence). lia. }
  apply Hd. intros d d'. rewrite !orb_true_r. simpl.
  destruct (negb (key_equal (entry_key e) key)); auto.
  destruct (policy_next pol) as [[pol' next] | |]; simpl; auto.
Qed.

(** A table without slots: the lookup returns before it probes. *)
Lemma find_no_slots (fuel : nat) (t : table) (key : Key) :
  t_slots t = [] -> find fuel t key = Ok (end_ t).
Proof.
  intro H. rewrite find_find_index. unfold find_index.
  rewrite H. reflexivity.
Qed.

End Walk.

Section KeyEquivalence.

Variable Key : Type.
Variable key_equal : Key -> Key -> bool.
Hypothesis key_equal_sym :
  forall a b, key_equal a b = true -> key_equal b a = true.
Hypothesis key_equal_trans :
  forall a b c,
    key_equal a b = true -> key_equal b c = true -> key_equal a c = true.

(** Keys that [key_equal] identifies compare alike with every key. *)
Lemma key_equal_congr (a k k' : Key) :
  key_equal k k' = true -> key_equal a k = key_equal a k'.
Proof.
  intro H. destruct (key_equal a k) eqn:E1; destruct (key_equal a k') eqn:E2;
    auto.
  - rewrite (key_equal_trans E1 H) in E2. discriminate.
  - rewrite (key_equal_trans E2 (key_equal_sym H)) in E1.
    discriminate.
Qed.

End KeyEquivalence.

(** ** Insertion and lookup under any policy *)

Lemma vec_at_set_same {A : Type} (v : list A) (i : size_type) (a : A) :
  i < vec_size v -> vec_at (list_set v (N.to_nat i) a) i = Ok a.
Proof.
  intro H. apply vec_at_Ok. apply list_set_same. unfold vec_size in H. lia.
Qed.

Lemma vec_at_set_other {A : Type} (v : list A) (i j : size_type) (a : A) :
  i <> j -> vec_at (list_set v (N.to_nat i) a) j = vec_at v j.
Proof.
  intro H. unfold vec_at. rewrite list_set_other; auto. lia.
Qed.

Lemma vec_size_set {A : Type} (v : list A) (i : nat) (a : A) :
  vec_size (list_set v i a) = vec_size v.
Proof. unfold vec_size. rewrite list_set_length. reflexivity. Qed.

Section InsertLookup.

Variables Key value_type : Type.
Variable entry_key : value_type -> Key.
Variable hasher : Key -> size_type.
Variable key_equal : Key -> Key -> bool.
Context {P : Type} {policy : CollisionPolicy P}.

Abbreviation table := (table value_type).
Abbreviation probe_loop := (probe_loop entry_key key_equal (P := P)).
Abbreviation find_index := (find_index entry_key hasher key_equal (P := P)).
Abbreviation find := (find entry_key hasher key_equal (P := P)).
Abbreviation contains := (contains entry_key hasher key_equal (P := P)).
Abbreviation place := (place entry_key hasher key_equal (P := P)).
Abbreviation emplace_impl :=
  (emplace_impl entry_key hasher key_equal (P := P)).
Abbreviation emplace_in := (emplace_in entry_key hasher key_equal (P := P)).
Abbreviation stops_at := (stops_at entry_key key_equal).
Abbreviation passes := (passes entry_key key_equal).
Abbreviation hit := (hit entry_key key_equal).
Abbreviation finds := (finds entry_key hasher key_equal (P := P)).

Lemma hit_in_range (t : table) (key : Key) (i : size_type) :
  wf t -> hit t key i -> i <> wrap (t_max_size t * 2) /\ i <> end_ t.
Proof.
  intros Hwf (e & Hs & _). apply vec_at_lt in Hs.
  destruct (wf_vec_size Hwf) as [Hvs _]. rewrite Hvs in Hs.
  unfold end_. rewrite wrap_small by (pose proof (wf_range Hwf); lia). lia.
Qed.

Lemma hit_find (fuel : nat) (t : table) (key : Key) (i : size_type) :
  probe_loop fuel t key false
    (policy_make (hasher key mod vec_size (t_slots t))
       (vec_size (t_slots t)))
    (hasher key mod vec_size (t_slots t)) = Ok i ->
  hit t key i ->
  find fuel t key = Ok i.
Proof.
  intros Hw (e & Hs & Hd & Hk). rewrite find_find_index.
  eapply find_index_hit; eauto.
Qed.

Lemma finds_find (fuel : nat) (t : table) (key : Key) :
  finds fuel t key ->
  exists i, find fuel t key = Ok i /\ hit t key i.
Proof.
  intros (i & Hw & Hh). exists i. split; [| exact Hh].
  apply hit_find; assumption.
Qed.

Lemma find_finds (fuel : nat) (t : table) (key : Key) (i : size_type) :
  find fuel t key = Ok i -> i <> end_ t ->
  probe_loop fuel t key false
    (policy_make (hasher key mod vec_size (t_slots t))
       (vec_size (t_slots t)))
    (hasher key mod vec_size (t_slots t)) = Ok i
  /\ hit t key i.
Proof.
  rewrite find_find_index. intros E Hne. unfold end_ in Hne.
  apply find_index_walk in E.
  destruct E as [[_ ->] | (j & Hw & _ & [(e & Hs & Hd & Hk & ->) | [_ ->]])];
    try congruence.
  split; [exact Hw |]. exists e; auto.
Qed.

Lemma finds_contains (fuel : nat) (t : table) (key : Key) :
  wf t -> finds fuel t key -> contains fuel t key = Ok true.
Proof.
  intros Hwf Hf. apply finds_find in Hf. destruct Hf as (i & E & Hh).
  unfold contains. rewrite E. simpl.
  destruct (hit_in_range Hwf Hh) as [_ Hne].
  apply N.eqb_neq in Hne. rewrite Hne. reflexivity.
Qed.

Lemma contains_finds (fuel : nat) (t : table) (key : Key) :
  contains fuel t key = Ok true -> finds fuel t key.
Proof.
  unfold contains. intro E. inv_bind E. inversion E as [Hne].
  apply negb_true_iff in Hne. apply N.eqb_neq in Hne.
  exists x. eapply find_finds; eauto.
Qed.

Lemma finds_mono (fuel fuel' : nat) (t : table) (key : Key) :
  (fuel <= fuel')%nat -> finds fuel t key -> finds fuel' t key.
Proof.
  intros Hle (i & Hw & Hh). exists i. split; [| exact Hh].
  eapply probe_loop_mono; eauto.
Qed.

Lemma find_index_insert_walk (fuel : nat) (t : table) (key : Key)
  (i : size_type) :
  find_index fuel t key true = Ok i ->
  vec_size (t_slots t) <> 0
  /\ probe_loop fuel t key true
       (policy_make (hasher key mod vec_size (t_slots t))
          (vec_size (t_slots t)))
       (hasher key mod vec_size (t_slots t)) = Ok i.
Proof.
  unfold find_index. rewrite andb_false_r. unfold umod.
  destruct (vec_size (t_slots t) =? 0) eqn:Ez; simpl; [discriminate |].
  intro E. inv_bind E. inversion E; subst.
  split; [apply N.eqb_neq |]; auto.
Qed.

(** What [place] does, with the walk that led to the slot. *)
Lemma place_walk (fuel : nat) (t t' : table) (v : value_type)
  (i : size_type) (b : bool) :
  place fuel t v = Ok (t', (i, b)) ->
  probe_loop fuel t (entry_key v) true
    (policy_make (hasher (entry_key v) mod vec_size (t_slots t))
       (vec_size (t_slots t)))
    (hasher (entry_key v) mod vec_size (t_slots t)) = Ok i
  /\ ((b = false /\ t' = t /\ hit t (entry_key v) i)
      \/ (b = true
          /\ (vec_at (t_slots t) i = Ok None
              \/ vec_at (t_deleted t) i = Ok true)
          /\ i < vec_size (t_slots t) /\ i < vec_size (t_deleted t)
          /\ t' = {| t_size := wrap (t_size t + 1);
                     t_max_size := t_max_size t;
                     t_slots := list_set (t_slots t) (N.to_nat i) (Some v);
                     t_deleted := list_set (t_deleted t) (N.to_nat i) false;
                     first_ind := if empty t then i
                                  else N.min (first_ind t) i |})).
Proof.
  intro E. unfold place in E. inv_bind E. rename x into ind.
  apply find_index_insert_walk in E0. destruct E0 as [Hm Hw].
  pose proof Hw as Hstop. apply probe_loop_stops in Hstop.
  inv_bind E. rename x into slot. inv_bind E. destruct x.
  - inv_bind E. apply vec_set_Ok in E2. destruct E2 as [Hi ->].
    inv_bind E. unfold update_after_insert in E2. simpl in E2.
    inv_bind E2. apply vec_set_Ok in E3. destruct E3 as [Hi' ->].
    inversion E2; subst; clear E2. inversion E; subst; clear E.
    split; [exact Hw |]. right. split_and; auto.
    destruct slot; auto.
  - inversion E; subst; clear E.
    split; [exact Hw |]. left. split_and; auto.
    destruct slot as [e |]; [| discriminate].
    destruct Hstop as [Hn | (e' & d' & Hs' & Hd' & Hc')]; [congruence |].
    rewrite E0 in Hs'. rewrite E1 in Hd'.
    inversion Hs'; inversion Hd'; subst e' d'. simpl in Hc'.
    apply negb_false_iff in Hc'. exists e. auto.
Qed.

(** A slot that is not live holds no hit. *)
Lemma not_live_no_hit (t : table) (key : Key) (i : size_type) :
  vec_at (t_slots t) i = Ok None \/ vec_at (t_deleted t) i = Ok true ->
  hit t key i -> False.
Proof.
  intros [Hn | Hd] (e & Hs & Hd' & _); congruence.
Qed.

(** A lookup that found the key still finds it after [place]. *)
Lemma place_keeps (fuel0 fuel : nat) (t t' : table) (v : value_type)
  (r : size_type * bool) (key : Key) :
  finds fuel0 t key -> place fuel t v = Ok (t', r) -> finds fuel0 t' key.
Proof.
  intros (i0 & Hw0 & Hh0) E. destruct r as [i b].
  apply place_walk in E.
  destruct E as (_ & [(-> & -> & _) | (-> & Hfree & Hi & Hi' & ->)]).
  - exists i0. auto.
  - set (t' := {| t_size := wrap (t_size t + 1);
                  t_max_size := t_max_size t;
                  t_slots := list_set (t_slots t) (N.to_nat i) (Some v);
                  t_deleted := list_set (t_deleted t) (N.to_nat i) false;
                  first_ind := if empty t then i
                               else N.min (first_ind t) i |}).
    assert (Hne : i <> i0).
    { intros ->. eapply not_live_no_hit; eauto. }
    assert (Hsame : forall j, j <> i ->
              vec_at (t_slots t') j = vec_at (t_slots t) j
              /\ vec_at (t_deleted t') j = vec_at (t_deleted t) j).
    { intros j Hj. unfold t'. cbn [t_slots t_deleted].
      rewrite !vec_at_set_other by auto. auto. }
    assert (Hnew : vec_at (t_slots t') i = Ok (Some v)
                   /\ vec_at (t_deleted t') i = Ok false).
    { unfold t'. cbn [t_slots t_deleted].
      rewrite !vec_at_set_same by assumption. auto. }
    assert (Hsize : vec_size (t_slots t') = vec_size (t_slots t))
      by (unfold t'; cbn [t_slots]; apply vec_size_set).
    assert (Hh0' : hit t' key i0).
    { destruct Hh0 as (e & Hs & Hd & Hk). exists e.
      destruct (Hsame i0) as [-> ->]; auto. }
    destruct (@probe_loop_transfer _ _ entry_key key_equal _ _
                t t' key key false false i0) with
      (fuel := fuel0)
      (pol := policy_make (hasher key mod vec_size (t_slots t))
                (vec_size (t_slots t)))
      (c := hasher key mod vec_size (t_slots t))
      as (i' & E' & Hi0); auto.
    + intros j (e & d & Hs & Hd & Hc).
      destruct (N.eq_dec j i) as [-> | Hj].
      * destruct Hnew as [Hs' Hd'].
        destruct (key_equal (entry_key v) key) eqn:Ek.
        -- right. right. exists v, false. rewrite Ek. auto.
        -- left. exists v, false. rewrite Ek. auto.
      * left. exists e, d. destruct (Hsame j Hj) as [-> ->]. auto.
    + destruct Hh0' as (e & Hs & Hd & Hk).
      right. exists e, false. rewrite Hk. auto.
    + unfold finds. rewrite Hsize.
      destruct Hi0 as [-> | [Hp Hs]].
      * exists i0. auto.
      * exists i'. split; [exact E' |].
        destruct (N.eq_dec i' i) as [-> | Hj].
        -- destruct Hnew as [Hs' Hd'].
           destruct Hs as [Hn | (e' & d' & Hs'' & Hd'' & Hc')];
             [congruence |].
           rewrite Hs' in Hs''. rewrite Hd' in Hd''.
           inversion Hs''; inversion Hd''; subst e' d'. simpl in Hc'.
           apply negb_false_iff in Hc'. exists v. auto.
        -- exfalso. eapply passes_not_stops; [| exact Hs].
           destruct Hp as (e & d & Hs0 & Hd0 & Hc).
           exists e, d. destruct (Hsame i' Hj) as [-> ->]. auto.
Qed.

Section Reflexive.

Hypothesis key_equal_refl : forall a, key_equal a a = true.

(** After [place], a lookup of the key of the value walks to the slot that
    [place] returned. *)
Lemma place_finds (fuel : nat) (t t' : table) (v : value_type)
  (i : size_type) (b : bool) :
  place fuel t v = Ok (t', (i, b)) ->
  probe_loop fuel t' (entry_key v) false
    (policy_make (hasher (entry_key v) mod vec_size (t_slots t'))
       (vec_size (t_slots t')))
    (hasher (entry_key v) mod vec_size (t_slots t')) = Ok i
  /\ exists e,
      vec_at (t_slots t') i = Ok (Some e)
      /\ vec_at (t_deleted t') i = Ok false
      /\ key_equal (entry_key e) (entry_key v) = true
      /\ (b = true -> e = v).
Proof.
  intro E. apply place_walk in E.
  destruct E as (Hw & [(-> & -> & Hh) | (-> & Hfree & Hi & Hi' & ->)]).
  - destruct Hh as (e & Hs & Hd & Hk). split.
    + eapply probe_loop_follow; [| | exact Hw].
      * intros j (e' & d' & Hs' & Hd' & Hc'). exists e', d'.
        split_and; auto. destruct d'; simpl in *; auto; discriminate.
      * right. exists e, false. rewrite Hk. auto.
    + exists e. split_and; auto. discriminate.
  - pose proof Hw as Hstop. apply probe_loop_stops in Hstop.
    cbn [t_slots t_deleted]. rewrite vec_size_set.
    rewrite !vec_at_set_same by assumption. split.
    + eapply probe_loop_follow; [| | exact Hw].
      * intros j Hp.
        assert (Hj : i <> j).
        { intros ->. eapply passes_not_stops; eauto. }
        destruct Hp as (e' & d' & Hs' & Hd' & Hc'). exists e', d'.
        cbn [t_slots t_deleted]. rewrite !vec_at_set_other by auto.
        split_and; auto. destruct d'; simpl in *; auto; discriminate.
      * right. exists v, false. cbn [t_slots t_deleted].
        rewrite !vec_at_set_same by assumption.
        rewrite key_equal_refl. auto.
    + exists v. auto.
Qed.

End Reflexive.

End InsertLookup.

(** ** Erasure and lookup under any policy *)

Section EraseLookup.

Variables Key value_type : Type.
Variable entry_key : value_type -> Key.
Variable hasher : Key -> size_type.
Variable key_equal : Key -> Key -> bool.
Context {P : Type} {policy : CollisionPolicy P}.

Abbreviation table := (table value_type).
Abbreviation probe_loop := (probe_loop entry_key key_equal (P := P)).
Abbreviation find_index := (find_index entry_key hasher key_equal (P := P)).
Abbreviation find := (find entry_key hasher key_equal (P := P)).
Abbreviation erase := (erase entry_key hasher key_equal (P := P)).
Abbreviation hit := (hit entry_key key_equal).

(** What [erase(key)] does, with the lookup that led to the slot. *)
Lemma erase_walk (fuel : nat) (t t' : table) (key : Key) (n : size_type) :
  erase fuel t key = Ok (t', n) ->
  (n = 0 /\ t' = t /\ find fuel t key = Ok (end_ t))
  \/ (n = 1
      /\ exists i it,
          find fuel t key = Ok i
          /\ i <> end_ t
          /\ hit t key i
          /\ i < vec_size (t_deleted t)
          /\ t' = {| t_size := decr (t_size t);
                     t_max_size := t_max_size t;
                     t_slots := t_slots t;
                     t_deleted := list_set (t_deleted t) (N.to_nat i) true;
                     first_ind := if i =? first_ind t then it
                                  else first_ind t |}).
Proof.
  intro E. unfold erase in E. inv_bind E. rename x into i.
  destruct (i =? end_ t) eqn:Ei; simpl in E.
  - apply N.eqb_eq in Ei. subst i. inversion E; subst. left. auto.
  - apply N.eqb_neq in Ei. right.
    pose proof E0 as Hh. apply find_finds in Hh; [| exact Ei].
    destruct Hh as [_ Hh].
    inv_bind E. destruct x as [t1 it]. simpl in E. inversion E; subst t1 n.
    unfold erase_pos in E1. destruct Hh as (e & Hs & Hd & Hk).
    rewrite Hs in E1. simpl in E1. inv_bind E1.
    apply vec_set_Ok in E2. destruct E2 as [Hlt ->].
    inv_bind E1. cbn [t_size t_max_size t_slots t_deleted first_ind] in E1.
    inversion E1; subst. split; auto. exists i, it.
    split_and; auto. exists e. auto.
Qed.

(** After [erase(key)] a lookup of the key returns [end()]. *)
Lemma erase_find (fuel : nat) (t t' : table) (key : Key) (n : size_type) :
  erase fuel t key = Ok (t', n) -> find fuel t' key = Ok (end_ t').
Proof.
  intro E. apply erase_walk in E.
  destruct E as [(_ & -> & E) | (_ & i & it & E & Hne & Hh & Hlt & ->)];
    [exact E |].
  pose proof E as Hw. apply find_finds in Hw; [| exact Hne].
  destruct Hw as [Hw _].
  rewrite find_find_index. unfold end_.
  destruct Hh as (e & Hs & Hd & Hk).
  eapply find_index_miss with (i := i).
  - cbn [t_slots]. rewrite <- Hw. apply probe_loop_lookup_ext; auto.
    cbn [t_deleted]. apply list_set_length.
  - right. exists e. cbn [t_slots t_deleted].
    rewrite vec_at_set_same by assumption. auto.
Qed.

Section Equivalence.

Hypothesis key_equal_sym :
  forall a b, key_equal a b = true -> key_equal b a = true.
Hypothesis key_equal_trans :
  forall a b c,
    key_equal a b = true -> key_equal b c = true -> key_equal a c = true.

(** [erase(key)] does not change what a lookup of another key returns. *)
Lemma erase_find_other (fuel fuel' : nat) (t t' : table) (key key' : Key)
  (n : size_type) :
  key_equal key key' = false ->
  erase fuel t key = Ok (t', n) ->
  find fuel' t' key' = find fuel' t key'.
Proof.
  intros Hk E. apply erase_walk in E.
  destruct E as [(_ & -> & _) | (_ & i & it & _ & _ & Hh & Hlt & ->)];
    [reflexivity |].
  rewrite !find_find_index. unfold find_index.
  cbn [t_slots t_max_size t_deleted].
  destruct ((vec_size (t_slots t) =? 0) && negb false); [reflexivity |].
  destruct (umod (hasher key') (vec_size (t_slots t))) as [c | |]; simpl;
    auto.
  match goal with
  | |- bind ?a _ = bind ?b _ => replace a with b
  end.
  2: { symmetry. apply probe_loop_lookup_ext; auto.
       cbn [t_deleted]. apply list_set_length. }
  match goal with
  | |- bind ?a _ = _ => destruct a as [j | |]; simpl; auto
  end.
  destruct (N.eq_dec i j) as [<- | Hj].
  - destruct Hh as (e & Hs & Hd & Hk'). rewrite Hs. simpl.
    rewrite vec_at_set_same by assumption. rewrite Hd. simpl.
    destruct (key_equal (entry_key e) key') eqn:Ek; auto.
    rewrite (key_equal_trans (key_equal_sym Hk') Ek) in Hk.
    discriminate.
  - rewrite vec_at_set_other by assumption. reflexivity.
Qed.

End Equivalence.

End EraseLookup.

(** ** Live entries as a list *)

Section LiveMembers.

Variable value_type : Type.

Lemma live_entries_In (slots : list (option value_type)) :
  forall (deleted : list bool) (i : nat) (e : value_type),
    nth_error slots i = Some (Some e) ->
    nth_error deleted i = Some false ->
    In e (live_entries_of slots deleted).
Proof.
  induction slots as [| s slots IH]; intros [| d deleted] [| i] e Hs Hd;
    simpl in Hs, Hd; try discriminate.
  - inversion Hs; inversion Hd; subst. left. reflexivity.
  - assert (In e (live_entries_of slots deleted)) by (eapply IH; eauto).
    destruct s as [e' |]; destruct d; simpl; auto.
Qed.

Lemma In_live_entries (slots : list (option value_type)) :
  forall (deleted : list bool) (e : value_type),
    In e (live_entries_of slots deleted) ->
    exists i,
      nth_error slots i = Some (Some e) /\ nth_error deleted i = Some false.
Proof.
  induction slots as [| s slots IH]; intros [| d deleted] e H;
    try (destruct s; contradiction); try contradiction.
  assert (Hrest : In e (live_entries_of slots deleted) ->
                  exists i, nth_error (s :: slots) i = Some (Some e)
                            /\ nth_error (d :: deleted) i = Some false).
  { intro H'. destruct (IH _ _ H') as (i & Hs & Hd). exists (S i). auto. }
  destruct s as [e' |]; destruct d; simpl in H; auto.
  destruct H as [-> | H]; auto. exists O. auto.
Qed.

Lemma live_at_In (t : table value_type) (i : nat) (e : value_type) :
  live_at t i e -> In e (live_entries t).
Proof. intros [Hs Hd]. eapply live_entries_In; eauto. Qed.

Lemma In_live_at (t : table value_type) (e : value_type) :
  In e (live_entries t) -> exists i, live_at t i e.
Proof. apply In_live_entries. Qed.

Lemma live_at_vec_at (t : table value_type) (i : nat) (e : value_type) :
  live_at t i e ->
  vec_at (t_slots t) (N.of_nat i) = Ok (Some e)
  /\ vec_at (t_deleted t) (N.of_nat i) = Ok false.
Proof.
  intros [Hs Hd]. split; apply vec_at_Ok; rewrite Nat2N.id; assumption.
Qed.

Lemma vec_at_live_at (t : table value_type) (i : size_type)
  (e : value_type) :
  vec_at (t_slots t) i = Ok (Some e) ->
  vec_at (t_deleted t) i = Ok false ->
  live_at t (N.to_nat i) e.
Proof.
  intros Hs Hd. split; apply vec_at_Ok; assumption.
Qed.

Lemma fresh_no_live (n : size_type) (i : nat) (e : value_type) :
  live_at (construct (value_type := value_type) n) i e -> False.
Proof.
  intros [Hs _]. unfold construct, vec_make in Hs. cbn [t_slots] in Hs.
  apply nth_error_repeat_Some in Hs. discriminate.
Qed.

End LiveMembers.

(** ** Growth and lookup under any policy *)

Section InsertGrowth.

Variables Key value_type : Type.
Variable entry_key : value_type -> Key.
Variable hasher : Key -> size_type.
Variable key_equal : Key -> Key -> bool.
Context {P : Type} {policy : CollisionPolicy P}.

Abbreviation table := (table value_type).
Abbreviation probe_loop := (probe_loop entry_key key_equal (P := P)).
Abbreviation find_index := (find_index entry_key hasher key_equal (P := P)).
Abbreviation find := (find entry_key hasher key_equal (P := P)).
Abbreviation contains := (contains entry_key hasher key_equal (P := P)).
Abbreviation place := (place entry_key hasher key_equal (P := P)).
Abbreviation emplace_impl :=
  (emplace_impl entry_key hasher key_equal (P := P)).
Abbreviation emplace_in := (emplace_in entry_key hasher key_equal (P := P)).
Abbreviation stops_at := (stops_at entry_key key_equal).
Abbreviation passes := (passes entry_key key_equal).
Abbreviation hit := (hit entry_key key_equal).
Abbreviation finds := (finds entry_key hasher key_equal (P := P)).

(** The two ways through [emplace_impl]: the table has room and the value
    is placed in it, or the table is migrated into a larger one first. *)
Lemma emplace_impl_cases (fuel : nat) (t t' : table) (v : value_type)
  (r : size_type * bool) :
  wf t -> 4 * t_max_size t + 2 <= SIZE_MAX ->
  emplace_impl fuel t v = Ok (t', r) ->
  exists f t1,
    fuel = S f
    /\ place (S f) t1 v = Ok (t', r)
    /\ wf t1 /\ t_size t1 < t_max_size t1
    /\ ((has_room t /\ t1 = t)
        \/ (fge (load_factor t) max_load_factor = true
            /\ 2 * rehash_new_size (wrap (t_max_size t * 2)) t <= SIZE_MAX
            /\ 2 * t_size t < rehash_new_size (wrap (t_max_size t * 2)) t
            /\ t_max_size t1 = rehash_new_size (wrap (t_max_size t * 2)) t
            /\ t_size t1 <= t_size t
            /\ migrate (emplace_in f) (t_slots t) (t_deleted t)
                 (construct (rehash_new_size (wrap (t_max_size t * 2)) t))
               = Ok t1)).
Proof.
  intros Hwf Hfit E. destruct fuel as [| f]; [discriminate |].
  rewrite emplace_impl_unfold in E. inv_bind E. rename x into t1.
  exists f, t1. split; [reflexivity |]. split; [exact E |].
  destruct (fge (load_factor t) max_load_factor) eqn:Htest.
  - rewrite check_fullness_full in E0 by assumption.
    destruct (check_fullness_grows Hwf Hfit) as (Hg1 & Hg2 & Hg3).
    pose proof E0 as Hspec. apply rehash_with_spec in Hspec; auto.
    destruct Hspec as (Hwf1 & Hmax1 & Hsize1).
    split_and; auto; [lia |]. right. split_and; auto.
  - rewrite check_fullness_room in E0 by assumption.
    inversion E0; subst t1. split_and; auto.
    apply has_room_lt; assumption.
Qed.

(** An invariant of the migration loop: [Inv] holds of the new table
    throughout, and [Post e] holds of it from the placement of [e] on. *)
Lemma migrate_inv (fuel : nat) (Src : value_type -> Prop)
  (Inv : table -> Prop) (Post : value_type -> table -> Prop) :
  (forall t e t' r,
      wf t -> t_size t < t_max_size t -> Src e -> Inv t ->
      place fuel t e = Ok (t', r) -> Inv t' /\ Post e t') ->
  (forall t e0 e t' r,
      wf t -> t_size t < t_max_size t -> Src e -> Inv t -> Post e0 t ->
      place fuel t e = Ok (t', r) -> Post e0 t') ->
  forall (temp_map : list (option value_type)) (temp_deleted : list bool)
    (t t' : table),
    (forall e, In e (live_entries_of temp_map temp_deleted) -> Src e) ->
    wf t ->
    2 * (t_size t
         + N.of_nat (length (live_entries_of temp_map temp_deleted)))
    < t_max_size t ->
    Inv t ->
    migrate (emplace_in fuel) temp_map temp_deleted t = Ok t' ->
    Inv t'
    /\ (forall e0, Post e0 t -> Post e0 t')
    /\ (forall e, In e (live_entries_of temp_map temp_deleted) ->
                  Post e t').
Proof.
  intros Hstep Hkeep.
  induction temp_map as [| slot temp_map IH];
    intros temp_deleted t t' Hsrc Hwf Hroom Hinv E; simpl in E.
  - inversion E; subst. split_and; auto.
    intros e []. 
  - destruct slot as [e |].
    + destruct temp_deleted as [| [|] temp_deleted]; try discriminate.
      * cbn [live_entries_of] in Hroom, Hsrc |- *. eapply IH; eauto.
      * cbn [live_entries_of length] in Hroom, Hsrc |- *.
        inv_bind E. rename x into t1.
        unfold emplace_in in E0. inv_bind E0.
        destruct x as [t1' [i b]]. simpl in E0. inversion E0; subst t1'.
        destruct fuel as [| fuel]; [discriminate |].
        rewrite emplace_impl_room in E1 by (apply half_has_room; auto; lia).
        assert (Hlt : t_size t < t_max_size t) by lia.
        pose proof E1 as Hspec. apply place_spec in Hspec; auto.
        destruct Hspec as (Hwf1 & Hmax1 & Hsize1 & _).
        assert (He : Src e) by (apply Hsrc; left; reflexivity).
        destruct (Hstep _ _ _ _ Hwf Hlt He Hinv E1) as [Hinv1 Hpost1].
        destruct (IH temp_deleted t1 t') as (Hinv' & Hkeep' & Hpost');
          auto.
        { intros e' He'. apply Hsrc. right. exact He'. }
        { rewrite Hmax1, Hsize1. destruct b; lia. }
        split_and; auto.
        -- intros e0 H0. apply Hkeep'.
           exact (Hkeep _ _ _ _ _ Hwf Hlt He Hinv H0 E1).
        -- intros e' [<- | He']; auto.
    + destruct temp_deleted as [| d temp_deleted];
        cbn [live_entries_of length tl] in *.
      * assert (Hnil : live_entries_of temp_map [] = [])
          by (destruct temp_map as [| [?|] ?]; reflexivity).
        destruct (IH [] t t') as (Hinv' & Hkeep' & Hpost'); auto.
        -- rewrite Hnil. intros e [].
        -- rewrite Hnil. exact Hroom.
        -- split_and; auto. intros e [].
      * eapply IH; eauto.
Qed.

Section Equivalence.

Hypothesis key_equal_refl : forall a, key_equal a a = true.
Hypothesis key_equal_sym :
  forall a b, key_equal a b = true -> key_equal b a = true.
Hypothesis key_equal_trans :
  forall a b c,
    key_equal a b = true -> key_equal b c = true -> key_equal a c = true.
Hypothesis hasher_compat :
  forall a b, key_equal a b = true -> hasher a = hasher b.

(** Lookups of keys that [key_equal] identifies walk alike. *)
Lemma probe_loop_congr (fuel : nat) (t : table) (key key' : Key)
  (pol : P) (c i : size_type) :
  key_equal key key' = true ->
  probe_loop fuel t key false pol c = Ok i ->
  probe_loop fuel t key' false pol c = Ok i.
Proof.
  intros Hk E. pose proof E as Hstop. apply probe_loop_stops in Hstop.
  eapply probe_loop_follow; [| | exact E].
  - intros j (e & d & Hs & Hd & Hc). exists e, d. split_and; auto.
    rewrite <- (@key_equal_congr _ key_equal key_equal_sym key_equal_trans
                  (entry_key e) key key' Hk).
    exact Hc.
  - destruct Hstop as [Hn | (e & d & Hs & Hd & Hc)]; [left; exact Hn |].
    right. exists e, d. split_and; auto.
    rewrite <- (@key_equal_congr _ key_equal key_equal_sym key_equal_trans
                  (entry_key e) key key' Hk).
    exact Hc.
Qed.

Lemma finds_congr (fuel : nat) (t : table) (key key' : Key) :
  key_equal key key' = true -> finds fuel t key -> finds fuel t key'.
Proof.
  intros Hk (i & Hw & (e & Hs & Hd & He)). exists i.
  rewrite <- (hasher_compat Hk). split.
  - eapply probe_loop_congr; eauto.
  - exists e. split_and; auto. eapply key_equal_trans; eauto.
Qed.

(** A key that a lookup found is still found after [emplace_impl], whether
    or not the table was rehashed on the way. *)
Lemma emplace_impl_keeps (fuel : nat) (t t' : table) (v : value_type)
  (r : size_type * bool) (key : Key) :
  wf t -> 4 * t_max_size t + 2 <= SIZE_MAX ->
  finds fuel t key ->
  emplace_impl fuel t v = Ok (t', r) ->
  finds fuel t' key.
Proof.
  intros Hwf Hfit Hfound E.
  apply emplace_impl_cases in E; auto.
  destruct E as (f & t1 & -> & E & Hwf1 & Hlt1
                 & [[_ ->] | (_ & Hg1 & Hg2 & _ & _ & Em)]).
  - eapply place_keeps; eauto.
  - eapply place_keeps; [| exact E].
    destruct Hfound as (i & Hw & (e & Hs & Hd & He)).
    apply finds_congr with (key := entry_key e); [exact He |].
    apply finds_mono with (fuel := f); [lia |].
    pose proof (vec_at_live_at _ _ Hs Hd) as Hlive.
    apply live_at_In in Hlive.
    apply migrate_inv with (Src := fun _ => True) (Inv := fun _ => True)
      (Post := fun e0 t0 => finds f t0 (entry_key e0)) in Em; auto.
    + destruct Em as (_ & _ & Hpost). apply Hpost. exact Hlive.
    + intros t0 e0 t0' [i0 b0] _ _ _ _ E0. split; [exact I |].
      apply place_finds in E0; auto.
      destruct E0 as (Hw0 & e1 & Hs1 & Hd1 & Hk1 & _).
      exists i0. split; [exact Hw0 |]. exists e1. auto.
    + intros t0 e0 e1 t0' r0 _ _ _ _ Hf0 E0. eapply place_keeps; eauto.
    + apply wf_construct. exact Hg1.
    + cbn [t_size t_max_size construct].
      pose proof (wf_size Hwf) as Hz. unfold live_count, live_entries in Hz.
      lia.
Qed.

End Equivalence.

End InsertGrowth.

(** ** Tables without tombstones *)

Section CleanTables.

Variables Key value_type : Type.
Variable entry_key : value_type -> Key.
Variable hasher : Key -> size_type.
Variable key_equal : Key -> Key -> bool.
Context {P : Type} {policy : CollisionPolicy P}.

Abbreviation table := (table value_type).
Abbreviation probe_loop := (probe_loop entry_key key_equal (P := P)).
Abbreviation find_index := (find_index entry_key hasher key_equal (P := P)).
Abbreviation find := (find entry_key hasher key_equal (P := P)).
Abbreviation contains := (contains entry_key hasher key_equal (P := P)).
Abbreviation place := (place entry_key hasher key_equal (P := P)).
Abbreviation emplace_impl :=
  (emplace_impl entry_key hasher key_equal (P := P)).
Abbreviation emplace_in := (emplace_in entry_key hasher key_equal (P := P)).
Abbreviation stops_at := (stops_at entry_key key_equal).
Abbreviation passes := (passes entry_key key_equal).
Abbreviation hit := (hit entry_key key_equal).
Abbreviation finds := (finds entry_key hasher key_equal (P := P)).
Abbreviation all_findable :=
  (all_findable entry_key hasher key_equal (P := P)).
Abbreviation distinct_live_keys := (distinct_live_keys entry_key key_equal).

(** [place] adds at most the value, at the slot it returns. *)
Lemma place_live (fuel : nat) (t t' : table) (v : value_type)
  (i : size_type) (b : bool) (j : nat) (e : value_type) :
  place fuel t v = Ok (t', (i, b)) ->
  live_at t' j e ->
  (b = true /\ j = N.to_nat i /\ e = v) \/ live_at t j e.
Proof.
  intros E Hl. apply place_walk in E.
  destruct E as (_ & [(-> & -> & _) | (-> & Hfree & Hi & Hi' & ->)]);
    [right; exact Hl |].
  destruct Hl as [Hs Hd]. cbn [t_slots t_deleted] in Hs, Hd.
  destruct (Nat.eq_dec (N.to_nat i) j) as [<- | Hj].
  - rewrite list_set_same in Hs by (unfold vec_size in Hi; lia).
    inversion Hs. left. auto.
  - rewrite list_set_other in Hs by assumption.
    rewrite list_set_other in Hd by assumption. right. split; auto.
Qed.

(** [place] keeps every live entry where it is. *)
Lemma place_live_keeps (fuel : nat) (t t' : table) (v : value_type)
  (r : size_type * bool) (j : nat) (e : value_type) :
  place fuel t v = Ok (t', r) -> live_at t j e -> live_at t' j e.
Proof.
  intros E Hl. destruct r as [i b]. apply place_walk in E.
  destruct E as (_ & [(-> & -> & _) | (-> & Hfree & Hi & Hi' & ->)]);
    [exact Hl |].
  destruct Hl as [Hs Hd].
  assert (Hj : N.to_nat i <> j).
  { intros <-. apply vec_at_Ok in Hs, Hd.
    destruct Hfree; congruence. }
  split; cbn [t_slots t_deleted]; rewrite list_set_other by assumption;
    assumption.
Qed.

Lemma fresh_no_tombstones (n : size_type) :
  no_tombstones (construct (value_type := value_type) n).
Proof.
  intros i e Hs. unfold construct, vec_make in Hs. cbn [t_slots] in Hs.
  apply nth_error_repeat_Some in Hs. discriminate.
Qed.

Lemma fresh_all_findable (fuel : nat) (n : size_type) :
  all_findable fuel (construct n).
Proof.
  intros i e Hl. exfalso. eapply fresh_no_live; eauto.
Qed.

Lemma all_findable_mono (fuel fuel' : nat) (t : table) :
  (fuel <= fuel')%nat -> all_findable fuel t -> all_findable fuel' t.
Proof.
  intros Hle H i e Hl. eapply find_mono; eauto.
Qed.

(** The walk that finds a live entry of a table in which every live entry
    is found. *)
Lemma all_findable_walk (fuel : nat) (t : table) (i : nat)
  (e : value_type) :
  wf t -> all_findable fuel t -> live_at t i e ->
  probe_loop fuel t (entry_key e) false
    (policy_make (hasher (entry_key e) mod vec_size (t_slots t))
       (vec_size (t_slots t)))
    (hasher (entry_key e) mod vec_size (t_slots t)) = Ok (N.of_nat i).
Proof.
  intros Hwf Hall Hl. pose proof (Hall _ _ Hl) as E.
  apply find_finds in E; [destruct E as [E _]; exact E |].
  destruct Hl as [Hs _].
  assert (Hlt : (i < length (t_slots t))%nat)
    by (apply nth_error_Some; congruence).
  unfold end_. rewrite wrap_small by (pose proof (wf_range Hwf); lia).
  rewrite (wf_slots Hwf) in Hlt. lia.
Qed.

Section Equivalence.

Hypothesis key_equal_refl : forall a, key_equal a a = true.
Hypothesis key_equal_sym :
  forall a b, key_equal a b = true -> key_equal b a = true.
Hypothesis key_equal_trans :
  forall a b c,
    key_equal a b = true -> key_equal b c = true -> key_equal a c = true.
Hypothesis hasher_compat :
  forall a b, key_equal a b = true -> hasher a = hasher b.

(** In a table without tombstones in which every live entry is found,
    [place] keeps both. *)
Lemma place_clean (fuel : nat) (t t' : table) (v : value_type)
  (r : size_type * bool) :
  wf t -> no_tombstones t -> all_findable fuel t ->
  place fuel t v = Ok (t', r) ->
  no_tombstones t' /\ all_findable fuel t'.
Proof.
  intros Hwf Hnt Hall E. destruct r as [i b].
  pose proof E as Hfinds. apply place_finds in Hfinds; auto.
  destruct Hfinds as (Hw' & e' & Hs' & Hd' & Hk' & He').
  pose proof E as Hwalk. apply place_walk in Hwalk.
  destruct Hwalk as (_ & [(-> & -> & _) | (-> & Hfree & Hi & Hi' & Ht')]);
    [auto |].
  assert (Hnone : vec_at (t_slots t) i = Ok None).
  { destruct Hfree as [Hn | Hd]; [exact Hn |].
    destruct (vec_at_defined (t_slots t) Hi) as [[e |] Hs]; [| exact Hs].
    apply vec_at_Ok in Hs, Hd. rewrite (Hnt _ _ Hs) in Hd. discriminate. }
  rewrite (He' eq_refl) in *. clear He'.
  split.
  - intros j e Hs. subst t'. cbn [t_slots t_deleted] in *.
    destruct (Nat.eq_dec (N.to_nat i) j) as [<- | Hj].
    + apply list_set_same. unfold vec_size in Hi'. lia.
    + rewrite list_set_other in Hs by assumption.
      rewrite list_set_other by assumption. eapply Hnt; eauto.
  - intros j e Hl.
    destruct (@place_live _ _ _ _ _ _ _ _ E Hl) as [(_ & -> & ->) | Hl0].
    + rewrite N2Nat.id. apply hit_find; [exact Hw' |].
      exists v. auto.
    + pose proof (all_findable_walk Hwf Hall Hl0) as Hw0.
      pose proof (@place_live_keeps _ _ _ _ _ _ _ E Hl0) as Hl1.
      apply live_at_vec_at in Hl1. destruct Hl1 as [Hs1 Hd1].
      assert (Hsize : vec_size (t_slots t') = vec_size (t_slots t))
        by (subst t'; cbn [t_slots]; apply vec_size_set).
      apply hit_find.
      * rewrite Hsize. eapply probe_loop_follow; [| | exact Hw0].
        -- intros j' (e0 & d0 & Hs0 & Hd0 & Hc0).
           assert (Hj' : i <> j') by (intros ->; congruence).
           exists e0, d0. subst t'. cbn [t_slots t_deleted].
           rewrite !vec_at_set_other by assumption. auto.
        -- right. exists e, false. rewrite key_equal_refl. auto.
      * exists e. auto.
Qed.

(** Live entries whose keys [key_equal] identifies sit in one slot, when
    every live entry is found. *)
Lemma all_findable_distinct (fuel : nat) (t : table) :
  wf t -> all_findable fuel t -> distinct_live_keys t.
Proof.
  intros Hwf Hall i j e1 e2 H1 H2 Hk.
  pose proof (all_findable_walk Hwf Hall H1) as Hw1.
  rewrite (hasher_compat Hk) in Hw1.
  apply probe_loop_congr with (key' := entry_key e2) in Hw1; auto.
  apply hit_find in Hw1.
  - rewrite (Hall _ _ H2) in Hw1. inversion Hw1. lia.
  - apply live_at_vec_at in H1. destruct H1 as [Hs Hd]. exists e1. auto.
Qed.

(** Distinct live keys make the list of live entries free of repetition. *)
Lemma distinct_NoDup (slots : list (option value_type)) :
  forall deleted : list bool,
    (forall i j e1 e2,
        nth_error slots i = Some (Some e1) ->
        nth_error deleted i = Some false ->
        nth_error slots j = Some (Some e2) ->
        nth_error deleted j = Some false ->
        key_equal (entry_key e1) (entry_key e2) = true -> i = j) ->
    NoDup (live_entries_of slots deleted).
Proof.
  induction slots as [| s slots IH]; intros [| d deleted] Hdist;
    try (destruct s; constructor); try constructor.
  assert (Hrest : NoDup (live_entries_of slots deleted)).
  { apply IH. intros i j e1 e2 Hs1 Hd1 Hs2 Hd2 Hk.
    assert (S i = S j) by (eapply Hdist; eauto). lia. }
  destruct s as [e |]; destruct d; simpl; auto.
  constructor; [| exact Hrest].
  intro Hin. apply In_live_entries in Hin. destruct Hin as (j & Hs & Hd).
  assert (O = S j); [| discriminate].
  eapply Hdist with (e1 := e) (e2 := e); simpl; eauto.
Qed.

(** What the migration loop of [rehash] leaves in the new table: no
    tombstone, entries of the old table only, each found by a lookup, and
    every key of the old table. *)
Lemma migrate_fresh (fuel : nat) (t t1 : table) (n : size_type) :
  wf t -> 2 * n <= SIZE_MAX -> 2 * t_size t < n ->
  migrate (emplace_in fuel) (t_slots t) (t_deleted t) (construct n) = Ok t1 ->
  wf t1
  /\ t_max_size t1 = n
  /\ t_size t1 <= t_size t
  /\ no_tombstones t1
  /\ all_findable fuel t1
  /\ (forall j e, live_at t1 j e -> In e (live_entries t))
  /\ (forall e, In e (live_entries t) -> finds fuel t1 (entry_key e)).
Proof.
  intros Hwf Hfit Hbig E.
  pose proof (wf_size Hwf) as Hz. unfold live_count, live_entries in Hz.
  pose proof (@wf_construct value_type n Hfit) as Hwf0.
  assert (Hroom : 2 * (t_size (construct (value_type := value_type) n)
                  + N.of_nat (length (live_entries_of (t_slots t)
                                        (t_deleted t))))
                  < t_max_size (construct (value_type := value_type) n))
    by (cbn [t_size t_max_size construct]; lia).
  pose proof E as Hspec. apply migrate_spec in Hspec; auto.
  destruct Hspec as (Hwf1 & Hmax1 & Hsize1).
  cbn [t_size t_max_size construct] in Hmax1, Hsize1.
  apply migrate_inv with
    (Src := fun e => In e (live_entries t))
    (Inv := fun t0 => no_tombstones t0 /\ all_findable fuel t0
                      /\ forall j e, live_at t0 j e ->
                                     In e (live_entries t))
    (Post := fun e0 t0 => finds fuel t0 (entry_key e0)) in E; auto.
  - destruct E as ((Hnt & Hall & Hprov) & _ & Hpost).
    split_and; auto. lia.
  - intros t0 e0 t0' [i0 b0] Hwf' _ Hsrc (Hnt & Hall & Hprov) E0.
    destruct (@place_clean fuel t0 t0' e0 (i0, b0) Hwf' Hnt Hall E0)
      as [Hnt' Hall'].
    split; [split_and; auto |].
    + intros j e Hl. destruct (@place_live _ _ _ _ _ _ _ _ E0 Hl) as [(_ & _ & ->) | Hl0];
        eauto.
    + apply place_finds in E0; auto.
      destruct E0 as (Hw0 & e1 & Hs1 & Hd1 & Hk1 & _).
      exists i0. split; [exact Hw0 |]. exists e1. auto.
  - intros t0 e0 e1 t0' r0 _ _ _ _ Hf0 E0. eapply place_keeps; eauto.
  - split_and.
    + apply fresh_no_tombstones.
    + apply fresh_all_findable.
    + intros j e Hl. exfalso. eapply fresh_no_live; eauto.
Qed.

(** When the keys of the old table are distinct, the migration loses no
    entry. *)
Lemma migrate_fresh_all (fuel : nat) (t t1 : table) (n : size_type) :
  wf t -> 2 * n <= SIZE_MAX -> 2 * t_size t < n ->
  distinct_live_keys t ->
  migrate (emplace_in fuel) (t_slots t) (t_deleted t) (construct n) = Ok t1 ->
  (forall e, In e (live_entries t) -> In e (live_entries t1))
  /\ t_size t1 = t_size t.
Proof.
  intros Hwf Hfit Hbig Hdist E.
  apply migrate_fresh in E; auto.
  destruct E as (Hwf1 & _ & Hsize & _ & _ & Hprov & Hfinds).
  assert (Hin : forall e, In e (live_entries t) -> In e (live_entries t1)).
  { intros e He. destruct (Hfinds _ He) as (i & _ & (e' & Hs & Hd & Hk)).
    pose proof (vec_at_live_at _ _ Hs Hd) as Hl'.
    pose proof (Hprov _ _ Hl') as He'.
    apply In_live_at in He, He'.
    destruct He as (j & Hj). destruct He' as (j' & Hj').
    assert (j' = j) by (eapply Hdist; eauto). subst j'.
    destruct Hj as [Hj _]. destruct Hj' as [Hj' _].
    assert (e' = e) by congruence. subst e'.
    eapply live_at_In; eauto. }
  split; [exact Hin |].
  assert (Hnd : NoDup (live_entries t)).
  { apply distinct_NoDup. intros i j e1 e2 Hs1 Hd1 Hs2 Hd2 Hk.
    eapply Hdist; eauto; split; eauto. }
  pose proof (NoDup_incl_length Hnd Hin) as Hlen.
  pose proof (wf_size Hwf) as Hz. pose proof (wf_size Hwf1) as Hz1.
  unfold live_count in *. lia.
Qed.

(** [emplace_impl] keeps a table free of tombstones with every live entry
    found; a table that it rehashes comes out so whatever it was. *)
Lemma emplace_impl_clean (fuel : nat) (t t' : table) (v : value_type)
  (r : size_type * bool) :
  wf t -> 4 * t_max_size t + 2 <= SIZE_MAX ->
  (has_room t -> no_tombstones t /\ all_findable fuel t) ->
  emplace_impl fuel t v = Ok (t', r) ->
  no_tombstones t' /\ all_findable fuel t'.
Proof.
  intros Hwf Hfit Hclean E.
  apply emplace_impl_cases in E; auto.
  destruct E as (f & t1 & -> & E & Hwf1 & Hlt1
                 & [[Hroom ->] | (_ & Hg1 & Hg2 & _ & _ & Em)]).
  - destruct (Hclean Hroom) as [Hnt Hall]. eapply place_clean; eauto.
  - apply migrate_fresh in Em; auto.
    destruct Em as (_ & _ & _ & Hnt & Hall & _).
    eapply place_clean; eauto.
    eapply all_findable_mono; [| exact Hall]. lia.
Qed.

(** Insertion into a table without tombstones in which every live entry
    is found: the value is added exactly when no live entry has its key,
    and no other entry is added, lost or changed. *)
Lemma emplace_impl_clean_spec (fuel : nat) (t t' : table) (v : value_type)
  (i : size_type) (b : bool) :
  wf t -> 4 * t_max_size t + 2 <= SIZE_MAX ->
  no_tombstones t -> all_findable fuel t ->
  emplace_impl fuel t v = Ok (t', (i, b)) ->
  (b = false
   <-> exists e, In e (live_entries t)
                 /\ key_equal (entry_key e) (entry_key v) = true)
  /\ (forall e, In e (live_entries t')
                <-> In e (live_entries t) \/ (b = true /\ e = v))
  /\ t_size t' = (if b then t_size t + 1 else t_size t).
Proof.
  intros Hwf Hfit Hnt Hall E.
  pose proof (all_findable_distinct Hwf Hall) as Hdist.
  apply emplace_impl_cases in E; auto.
  destruct E as (f & t1 & -> & E & Hwf1 & Hlt1 & Hcase).
  assert (Hmid : no_tombstones t1 /\ all_findable (S f) t1
                 /\ (forall e, In e (live_entries t1)
                               <-> In e (live_entries t))
                 /\ t_size t1 = t_size t).
  { destruct Hcase as [[Hroom ->] | (_ & Hg1 & Hg2 & _ & _ & Em)].
    - split_and; auto. intro e. reflexivity.
    - pose proof Em as Em'. apply migrate_fresh in Em; auto.
      apply migrate_fresh_all in Em'; auto.
      destruct Em as (_ & _ & _ & Hnt1 & Hall1 & Hprov & _).
      destruct Em' as [Hin Hsize]. split_and; auto.
      + eapply all_findable_mono; [| exact Hall1]. lia.
      + intro e. split; [| apply Hin].
        intro He. apply In_live_at in He. destruct He as (j & Hj). eauto. }
  destruct Hmid as (Hnt1 & Hall1 & Hsame & Hsize).
  pose proof E as Hspec. apply place_spec in Hspec; auto.
  destruct Hspec as (_ & _ & Hsize' & Hnew & _).
  pose proof E as Hwalk. apply place_walk in Hwalk.
  destruct Hwalk as (Hw & Hwalk).
  split_and.
  - split.
    + intros ->.
      destruct Hwalk as [(_ & _ & (e & Hs & Hd & Hk)) | (Hb & _)];
        [| discriminate].
      exists e. split; [| exact Hk].
      apply Hsame. eapply live_at_In. eapply vec_at_live_at; eauto.
    + intros (e & He & Hk). destruct b; [| reflexivity]. exfalso.
      destruct Hwalk as [(Hb & _) | (_ & Hfree & Hi & _)];
        [discriminate |].
      apply Hsame in He. apply In_live_at in He. destruct He as (j & Hj).
      pose proof (all_findable_walk Hwf1 Hall1 Hj) as Hwj.
      rewrite (hasher_compat Hk) in Hwj.
      apply probe_loop_congr with (key' := entry_key v) in Hwj; auto.
      assert (Hnone : vec_at (t_slots t1) i = Ok None).
      { destruct Hfree as [Hn | Hd]; [exact Hn |].
        destruct (vec_at_defined (t_slots t1) Hi) as [[e0 |] Hs];
          [| exact Hs].
        apply vec_at_Ok in Hs, Hd. rewrite (Hnt1 _ _ Hs) in Hd.
        discriminate. }
      assert (Hwi : probe_loop (S f) t1 (entry_key v) false
                (policy_make
                   (hasher (entry_key v) mod vec_size (t_slots t1))
                   (vec_size (t_slots t1)))
                (hasher (entry_key v) mod vec_size (t_slots t1)) = Ok i).
      { eapply probe_loop_follow; [| | exact Hw].
        - intros j' (e0 & d0 & Hs0 & Hd0 & Hc0). exists e0, d0.
          split_and; auto. destruct d0; simpl in *; auto; discriminate.
        - left. exact Hnone. }
      rewrite Hwj in Hwi. inversion Hwi; subst i.
      apply live_at_vec_at in Hj. destruct Hj as [Hs _]. congruence.
  - intro e. split.
    + intro He. apply In_live_at in He. destruct He as (j & Hj).
      destruct (@place_live _ _ _ _ _ _ _ _ E Hj) as [(Hb & _ & ->) | Hl0]; auto.
      left. apply Hsame. eapply live_at_In; eauto.
    + intros [He | [-> ->]].
      * apply Hsame in He. apply In_live_at in He. destruct He as (j & Hj).
        eapply live_at_In. eapply place_live_keeps; eauto.
      * eapply live_at_In. apply Hnew. reflexivity.
  - rewrite Hsize'. rewrite Hsize. reflexivity.
Qed.

End Equivalence.

End CleanTables.

(** ** Sequences of insertions *)

Section InsertRange.

Variables Key value_type : Type.
Variable entry_key : value_type -> Key.
Variable hasher : Key -> size_type.
Variable key_equal : Key -> Key -> bool.
Context {P : Type} {policy : CollisionPolicy P}.

Abbreviation table := (table value_type).
Abbreviation probe_loop := (probe_loop entry_key key_equal (P := P)).
Abbreviation find := (find entry_key hasher key_equal (P := P)).
Abbreviation contains := (contains entry_key hasher key_equal (P := P)).
Abbreviation place := (place entry_key hasher key_equal (P := P)).
Abbreviation emplace_impl :=
  (emplace_impl entry_key hasher key_equal (P := P)).
Abbreviation insert := (insert entry_key hasher key_equal (P := P)).
Abbreviation insert_range :=
  (insert_range entry_key hasher key_equal (P := P)).
Abbreviation hit := (hit entry_key key_equal).
Abbreviation finds := (finds entry_key hasher key_equal (P := P)).
Abbreviation all_findable :=
  (all_findable entry_key hasher key_equal (P := P)).
Abbreviation distinct_live_keys := (distinct_live_keys entry_key key_equal).
Abbreviation first_with_key := (first_with_key entry_key key_equal).

(** One insertion at most doubles the capacity, plus one. *)
Lemma emplace_impl_max (fuel : nat) (t t' : table) (v : value_type)
  (r : size_type * bool) :
  wf t -> 4 * t_max_size t + 2 <= SIZE_MAX ->
  emplace_impl fuel t v = Ok (t', r) ->
  wf t' /\ t_max_size t' + 2 <= 2 * (t_max_size t + 2).
Proof.
  intros Hwf Hfit E. destruct r as [i b].
  apply emplace_impl_spec in E; auto.
  destruct E as (Hwf1 & _ & _ & Hroom & Hfull).
  split; [exact Hwf1 |].
  destruct (fge (load_factor t) max_load_factor) eqn:Htest.
  - rewrite (Hfull eq_refl). destruct (t_max_size t =? 0); lia.
  - rewrite (Hroom Htest). lia.
Qed.

(** After [emplace_impl], a lookup of the key of the value walks to the
    slot that was returned. *)
Lemma emplace_impl_finds (fuel : nat) (t t' : table) (v : value_type)
  (i : size_type) (b : bool) :
  (forall a, key_equal a a = true) ->
  emplace_impl fuel t v = Ok (t', (i, b)) ->
  probe_loop fuel t' (entry_key v) false
    (policy_make (hasher (entry_key v) mod vec_size (t_slots t'))
       (vec_size (t_slots t')))
    (hasher (entry_key v) mod vec_size (t_slots t')) = Ok i
  /\ exists e,
      vec_at (t_slots t') i = Ok (Some e)
      /\ vec_at (t_deleted t') i = Ok false
      /\ key_equal (entry_key e) (entry_key v) = true
      /\ (b = true -> e = v).
Proof.
  intros Hrefl E. destruct fuel as [| f]; [discriminate |].
  rewrite emplace_impl_unfold in E. inv_bind E.
  eapply place_finds; eauto.
Qed.

Section Equivalence.

Hypothesis key_equal_refl : forall a, key_equal a a = true.
Hypothesis key_equal_sym :
  forall a b, key_equal a b = true -> key_equal b a = true.
Hypothesis key_equal_trans :
  forall a b c,
    key_equal a b = true -> key_equal b c = true -> key_equal a c = true.
Hypothesis hasher_compat :
  forall a b, key_equal a b = true -> hasher a = hasher b.

(** A sequence of insertions into a table without tombstones in which
    every live entry is found: the table stays so, and what it holds in the
    end is what it held and the first value of every new key. *)
Lemma insert_range_clean (values : list value_type) :
  forall (fuel : nat) (t t' : table) (m0 k : N),
    wf t ->
    t_size t <= k -> t_max_size t <= m0 + 4 * k ->
    m0 + 4 * (k + N.of_nat (length values)) <= 2 ^ 61 ->
    no_tombstones t -> all_findable fuel t ->
    insert_range fuel t values = Ok t' ->
    wf t' /\ no_tombstones t' /\ all_findable fuel t'
    /\ (forall e,
           In e (live_entries t')
           <-> In e (live_entries t)
               \/ (first_with_key e values
                   /\ forall e0, In e0 (live_entries t) ->
                                 key_equal (entry_key e0) (entry_key e)
                                 = false)).
Proof.
  induction values as [| v values IH];
    intros fuel t t' m0 k Hwf Hsize Hmax Hbudget Hnt Hall E; simpl in E.
  - inversion E; subst. split_and; auto.
    intro e. split; [auto |]. intros [H | [(l1 & l2 & H & _) _]]; auto.
    destruct l1; discriminate.
  - inv_bind E. destruct x as [t1 [i b]].
    cbn [length] in Hbudget. rewrite Nat2N.inj_succ in Hbudget.
    destruct (@emplace_impl_budget Key value_type entry_key hasher key_equal
                P policy fuel t t1 v (i, b) m0 k Hwf Hsize Hmax)
      as (Hfit & Hwf1 & Hsize1 & Hmax1); [lia | exact E0 |].
    pose proof (@emplace_impl_clean _ _ entry_key hasher key_equal _ _
                  key_equal_refl fuel t t1 v (i, b) Hwf Hfit
                  (fun _ => conj Hnt Hall) E0) as [Hnt1 Hall1].
    pose proof (@emplace_impl_clean_spec _ _ entry_key hasher key_equal _ _
                  key_equal_refl key_equal_sym key_equal_trans hasher_compat
                  fuel t t1 v i b Hwf Hfit Hnt Hall E0)
      as (Hb & Hlive & _).
    destruct (IH fuel t1 t' m0 (k + 1) Hwf1 Hsize1 Hmax1)
      as (Hwf' & Hnt' & Hall' & Hlive'); auto; [lia |].
    split_and; auto.
    intro e. rewrite Hlive'. split.
    + intros [He | [(l1 & l2 & Hl & Hbefore) Hno]].
      * apply Hlive in He. destruct He as [He | [-> ->]]; [auto |].
        right. split.
        -- exists [], values. split; [reflexivity |]. intros x [].
        -- intros e0 He0.
           destruct (key_equal (entry_key e0) (entry_key v)) eqn:Ek; auto.
           assert (true = false); [| discriminate].
           apply Hb. exists e0. auto.
      * right. split.
        -- exists (v :: l1), l2. split; [rewrite Hl; reflexivity |].
           intros x [<- | Hx]; [| auto].
           destruct (key_equal (entry_key v) (entry_key e)) eqn:Ek; auto.
           destruct b.
           ++ rewrite <- Ek. apply Hno. apply Hlive. auto.
           ++ destruct Hb as [Hb _].
              destruct (Hb eq_refl) as (e0 & He0 & Hk0).
              rewrite <- (key_equal_trans Hk0 Ek).
              apply Hno. apply Hlive. auto.
        -- intros e0 He0. apply Hno. apply Hlive. auto.
    + intros [He | [(l1 & l2 & Hl & Hbefore) Hno]].
      * left. apply Hlive. auto.
      * destruct l1 as [| x l1]; simpl in Hl; inversion Hl; subst.
        -- left. apply Hlive. right. split; [| reflexivity].
           destruct b; [reflexivity |].
           destruct Hb as [Hb _].
           destruct (Hb eq_refl) as (e0 & He0 & Hk0).
           rewrite (Hno _ He0) in Hk0. discriminate.
        -- right. split.
           ++ exists l1, l2. split; [reflexivity |].
              intros y Hy. apply Hbefore. right. exact Hy.
           ++ intros e0 He0. apply Hlive in He0.
              destruct He0 as [He0 | [_ ->]]; [auto |].
              apply Hbefore. left. reflexivity.
Qed.

(** Every key that a lookup found, and the key of every value inserted,
    is found after a sequence of insertions. *)
Lemma insert_range_finds (values : list value_type) :
  forall (fuel : nat) (t t' : table) (m0 k : N),
    wf t ->
    t_size t <= k -> t_max_size t <= m0 + 4 * k ->
    m0 + 4 * (k + N.of_nat (length values)) <= 2 ^ 61 ->
    insert_range fuel t values = Ok t' ->
    (forall key, finds fuel t key -> finds fuel t' key)
    /\ (forall v, In v values -> finds fuel t' (entry_key v)).
Proof.
  induction values as [| v values IH];
    intros fuel t t' m0 k Hwf Hsize Hmax Hbudget E; simpl in E.
  - inversion E; subst. split; auto. intros v [].
  - inv_bind E. destruct x as [t1 [i b]].
    cbn [length] in Hbudget. rewrite Nat2N.inj_succ in Hbudget.
    destruct (@emplace_impl_budget Key value_type entry_key hasher key_equal
                P policy fuel t t1 v (i, b) m0 k Hwf Hsize Hmax)
      as (Hfit & Hwf1 & Hsize1 & Hmax1); [lia | exact E0 |].
    destruct (IH fuel t1 t' m0 (k + 1) Hwf1 Hsize1 Hmax1) as [Hkeep Hnew];
      auto; [lia |].
    split.
    + intros key Hf. apply Hkeep.
      eapply emplace_impl_keeps with (t := t); eauto.
    + intros x [<- | Hx]; [| auto].
      apply Hkeep. apply emplace_impl_finds in E0; auto.
      destruct E0 as (Hw & e & Hs & Hd & Hk & _).
      exists i. split; [exact Hw |]. exists e. auto.
Qed.

End Equivalence.

End InsertRange.

(** ** Lookups under [LinearProbing] in a table without tombstones *)

Section LinearClean.

Variables Key value_type : Type.
Variable entry_key : value_type -> Key.
Variable hasher : Key -> size_type.
Variable key_equal : Key -> Key -> bool.

Abbreviation table := (table value_type).
Abbreviation probe_loop :=
  (probe_loop entry_key key_equal (P := LinearProbing.t)).
Abbreviation find_index :=
  (find_index entry_key hasher key_equal (P := LinearProbing.t)).
Abbreviation find := (find entry_key hasher key_equal (P := LinearProbing.t)).
Abbreviation contains :=
  (contains entry_key hasher key_equal (P := LinearProbing.t)).
Abbreviation emplace_impl :=
  (emplace_impl entry_key hasher key_equal (P := LinearProbing.t)).
Abbreviation insert_range :=
  (insert_range entry_key hasher key_equal (P := LinearProbing.t)).
Abbreviation finds :=
  (finds entry_key hasher key_equal (P := LinearProbing.t)).
Abbreviation all_findable :=
  (all_findable entry_key hasher key_equal (P := LinearProbing.t)).
Abbreviation erase :=
  (erase entry_key hasher key_equal (P := LinearProbing.t)).

(** A table without tombstones has an empty slot. *)
Lemma clean_has_empty_slot (t : table) :
  wf t -> 0 < t_max_size t -> no_tombstones t ->
  exists j, nth_error (t_slots t) j = Some None.
Proof.
  intros Hwf Hpos Hnt.
  destruct (@not_all_live _ (t_slots t) (t_deleted t))
    as (j & slot & d & Hs & Hd & Hl).
  - apply (wf_deleted Hwf).
  - pose proof (wf_size Hwf) as Hz. pose proof (wf_load Hwf) as Hload.
    pose proof (wf_slots Hwf) as Hlen.
    unfold live_count, live_entries in Hz. lia.
  - exists j. destruct slot as [e |]; [| exact Hs].
    rewrite (Hnt _ _ Hs) in Hd. inversion Hd; subst d. discriminate.
Qed.

Section Equivalence.

Hypothesis key_equal_sym :
  forall a b, key_equal a b = true -> key_equal b a = true.
Hypothesis key_equal_trans :
  forall a b c,
    key_equal a b = true -> key_equal b c = true -> key_equal a c = true.
Hypothesis hasher_compat :
  forall a b, key_equal a b = true -> hasher a = hasher b.

(** In a table without tombstones in which every live entry is found,
    [contains] says whether a live entry has the key. *)
Lemma clean_contains (fuel : nat) (t : table) (key : Key) :
  wf t -> no_tombstones t -> all_findable fuel t ->
  (N.to_nat (2 * t_max_size t) < fuel)%nat ->
  contains fuel t key
  = Ok (existsb (fun e => key_equal (entry_key e) key) (live_entries t)).
Proof.
  intros Hwf Hnt Hall Hfuel.
  destruct (existsb (fun e => key_equal (entry_key e) key) (live_entries t))
    eqn:Ex.
  - apply existsb_exists in Ex. destruct Ex as (e & He & Hk).
    apply In_live_at in He. destruct He as (j & Hj).
    apply finds_contains; [exact Hwf |].
    apply finds_congr with (key := entry_key e); auto.
    exists (N.of_nat j). split.
    + apply all_findable_walk; auto.
    + apply live_at_vec_at in Hj. destruct Hj as [Hs Hd].
      exists e. split_and; auto.
      destruct (key_equal (entry_key e) (entry_key e)) eqn:Er; auto.
      rewrite (key_equal_trans Hk (key_equal_sym Hk)) in Er. discriminate.
  - assert (Hno : forall i e, live_at t i e ->
                              key_equal (entry_key e) key = false).
    { intros i e Hl.
      destruct (key_equal (entry_key e) key) eqn:Hk; [| reflexivity].
      assert (Ht : existsb (fun e => key_equal (entry_key e) key)
                     (live_entries t) = true).
      { apply existsb_exists. exists e. split; [| exact Hk].
        eapply live_at_In; eauto. }
      congruence. }
    unfold contains.
    assert (E : find fuel t key = Ok (end_ t)).
    { destruct (N.eq_dec (t_max_size t) 0) as [Hz | Hz].
      - apply find_no_slots. pose proof (wf_slots Hwf) as Hlen.
        rewrite Hz in Hlen. destruct (t_slots t); [reflexivity |].
        discriminate.
      - destruct (clean_has_empty_slot Hwf) as (j & Hj); auto; [lia |].
        eapply find_absent; eauto. }
    rewrite E. simpl. rewrite N.eqb_refl. reflexivity.
Qed.

End Equivalence.

(** Enough fuel for a sequence of insertions: fuel for one insertion into
    the largest table on the way. *)
Lemma insert_range_total (values : list value_type) :
  forall (fuel : nat) (t : table) (m0 k : N),
    wf t ->
    t_size t <= k -> t_max_size t <= m0 + 4 * k ->
    m0 + 4 * (k + N.of_nat (length values)) <= 2 ^ 61 ->
    (N.to_nat (4 * (m0 + 4 * (k + N.of_nat (length values))) + 6)
     <= fuel)%nat ->
    exists t', insert_range fuel t values = Ok t'.
Proof.
  induction values as [| v values IH];
    intros fuel t m0 k Hwf Hsize Hmax Hbudget Hfuel; simpl.
  - exists t. reflexivity.
  - cbn [length] in Hbudget, Hfuel. rewrite Nat2N.inj_succ in Hbudget, Hfuel.
    assert (Hfit : 4 * t_max_size t + 2 <= SIZE_MAX).
    { change (2 ^ 61) with 2305843009213693952 in Hbudget.
      unfold SIZE_MAX. lia. }
    destruct (@emplace_impl_total _ _ entry_key hasher key_equal fuel t v)
      as (t1 & i & b & E); auto; [lia |].
    unfold insert. rewrite E. simpl.
    destruct (@emplace_impl_budget Key value_type entry_key hasher key_equal
                LinearProbing.t _ fuel t t1 v (i, b) m0 k Hwf Hsize Hmax)
      as (_ & Hwf1 & Hsize1 & Hmax1); [lia | exact E |].
    apply (IH fuel t1 m0 (k + 1)); auto; lia.
Qed.

(** Linear probing reaches an empty slot when the table has one, so a
    lookup returns with fuel for one walk over the slots. *)
Lemma linear_find_total (fuel : nat) (t : table) (key : Key) (j : nat) :
  wf t -> nth_error (t_slots t) j = Some None ->
  (N.to_nat (2 * t_max_size t) < fuel)%nat ->
  exists it, find fuel t key = Ok it.
Proof.
  intros Hwf Hj Hfuel.
  destruct (wf_vec_size Hwf) as [Hvs Hvd].
  pose proof (wf_range Hwf) as Hr.
  pose proof (wf_slots Hwf) as Hsl.
  assert (Hlen : (j < length (t_slots t))%nat)
    by (apply nth_error_Some; congruence).
  assert (Hpos : 0 < 2 * t_max_size t) by lia.
  assert (Hp : exists i,
             probe_loop fuel t key false
               (LinearProbing.make (hasher key mod (2 * t_max_size t))
                  (2 * t_max_size t))
               (hasher key mod (2 * t_max_size t)) = Ok i).
  { apply linear_probe_terminates with (j := N.of_nat j); auto.
    - apply N.mod_lt. lia.
    - left. apply vec_at_Ok. rewrite Nat2N.id. exact Hj. }
  destruct Hp as (i & Ei).
  rewrite find_find_index. unfold find_index. rewrite Hvs.
  destruct (2 * t_max_size t =? 0) eqn:Ez; [apply N.eqb_eq in Ez; lia |].
  cbn [andb]. unfold umod. rewrite Ez. cbn [bind].
  change (policy_make (hasher key mod (2 * t_max_size t)) (2 * t_max_size t))
    with (LinearProbing.make (hasher key mod (2 * t_max_size t))
            (2 * t_max_size t)).
  rewrite Ei. cbn [bind].
  apply probe_loop_stops in Ei.
  destruct Ei as [Hn | (e & d & Hs & Hd & _)].
  - rewrite Hn. cbn [bind]. eexists; reflexivity.
  - rewrite Hs. cbn [bind]. rewrite Hd. cbn [bind].
    destruct (negb d && key_equal (entry_key e) key); eexists; reflexivity.
Qed.

(** So does [erase(key)]: the lookup returns, and stepping the iterator
    past the erased slot stops at the end of the slots at the latest. *)
Lemma linear_erase_total (fuel : nat) (t : table) (key : Key) (j : nat) :
  wf t -> nth_error (t_slots t) j = Some None ->
  (N.to_nat (2 * t_max_size t) < fuel)%nat ->
  exists t' n, erase fuel t key = Ok (t', n).
Proof.
  intros Hwf Hj Hfuel.
  destruct (@linear_find_total fuel t key j Hwf Hj Hfuel) as (it & Ef).
  unfold erase. rewrite Ef. cbn [bind].
  destruct (it =? end_ t) eqn:Ee; cbn [negb].
  - eexists _, _. reflexivity.
  - apply N.eqb_neq in Ee. apply find_finds in Ef; [| exact Ee].
    destruct Ef as (_ & e & Hs & Hd & _).
    assert (Hlt : it < vec_size (t_deleted t))
      by (eapply vec_at_lt; eexact Hd).
    unfold erase_pos. rewrite Hs. cbn [bind].
    rewrite vec_set_defined by exact Hlt. cbn [bind].
    match goal with
    | |- context [iterator_incr ?T ?c] =>
        assert (Hsk : exists r, iterator_incr T c = Ok r)
    end.
    { unfold iterator_incr. apply skip_loop_total.
      cbn [t_slots t_deleted]. rewrite list_set_length.
      exact (wf_deleted Hwf). }
    destruct Hsk as (r & Er). rewrite Er. cbn [bind].
    eexists _, _. reflexivity.
Qed.

End LinearClean.

(** ** Erasure of the whole range *)

Section EraseRange.

Variable value_type : Type.

Abbreviation table := (table value_type).

(** [erase(begin())] on a table that is not empty. *)
Lemma erase_pos_first (t : table) :
  wf t -> first_ind_ok t -> first_ind t <> end_ t ->
  exists t' it,
    erase_pos t (first_ind t) = Ok (t', it)
    /\ iterator_incr t' (first_ind t) = Ok it
    /\ first_ind t' = it
    /\ wf t' /\ first_ind_ok t'
    /\ S (live_count t') = live_count t
    /\ t_slots t' = t_slots t
    /\ t_max_size t' = t_max_size t.
Proof.
  intros Hwf Hfirst Hne.
  pose proof (wf_deleted Hwf) as Hlen. pose proof (wf_range Hwf) as Hr.
  pose proof (wf_slots Hwf) as Hslots.
  destruct (wf_vec_size Hwf) as [Hvs Hvd].
  unfold end_ in Hne. rewrite wrap_small in Hne by lia.
  unfold first_ind_ok in Hfirst.
  set (c := first_live (t_slots t) (t_deleted t)) in *.
  pose proof (first_live_le (t_slots t) (t_deleted t)) as Hle.
  fold c in Hle.
  assert (Hc : (c < length (t_slots t))%nat) by lia.
  destruct (first_live_is_live (t_slots t) (t_deleted t) Hlen Hc)
    as (e & Hs & Hd).
  fold c in Hs, Hd.
  set (d' := list_set (t_deleted t) c true).
  set (it := N.of_nat (next_live (t_slots t) d' (S c))).
  set (t' := {| t_size := decr (t_size t);
                t_max_size := t_max_size t;
                t_slots := t_slots t;
                t_deleted := d';
                first_ind := it |}).
  assert (Hincr : forall f s,
            iterator_incr {| t_size := s;
                             t_max_size := t_max_size t;
                             t_slots := t_slots t;
                             t_deleted := d';
                             first_ind := f |} (N.of_nat c) = Ok it).
  { intros f s. apply iterator_incr_spec; cbn [t_slots t_deleted];
      unfold d'; rewrite ?list_set_length; auto. lia. }
  exists t', it. rewrite Hfirst.
  split_and; auto.
  - unfold erase_pos.
    assert (Es : vec_at (t_slots t) (N.of_nat c) = Ok (Some e))
      by (apply vec_at_Ok; rewrite Nat2N.id; exact Hs).
    rewrite Es. cbn [bind].
    rewrite vec_set_defined by lia. cbn [bind]. rewrite Nat2N.id.
    fold d'. rewrite Hincr. cbn [bind t_size t_max_size t_slots t_deleted
                                   first_ind].
    rewrite Hfirst. rewrite N.eqb_refl. reflexivity.
  - apply Hincr.
  - pose proof (live_length_tombstone _ _ _ Hs Hd) as Hcount.
    pose proof (wf_size Hwf) as Hz. pose proof (wf_load Hwf) as Hload.
    unfold live_count, live_entries in Hz.
    assert (Hdecr : decr (t_size t) + 1 = t_size t).
    { replace (t_size t) with ((t_size t - 1) + 1) at 1 by lia.
      rewrite decr_succ by lia. lia. }
    fold d' in Hcount.
    split; unfold t'; cbn [t_slots t_deleted t_max_size t_size];
      unfold live_count, live_entries; cbn [t_slots t_deleted];
      unfold d'; rewrite ?list_set_length; auto; fold d'; lia.
  - unfold first_ind_ok, t'. cbn [first_ind t_slots t_deleted].
    unfold d'. rewrite (first_live_tombstone _ _ _ Hs Hd).
    fold c. rewrite Nat.eqb_refl. reflexivity.
  - unfold live_count, live_entries, t'. cbn [t_slots t_deleted].
    apply (live_length_tombstone _ _ _ Hs Hd).
Qed.

(** [erase(begin(), end())] *)
Lemma erase_range_all (n : nat) :
  forall (fuel : nat) (t : table),
    live_count t = n -> wf t -> first_ind_ok t -> (n <= fuel)%nat ->
    exists t',
      erase_range fuel t (first_ind t) (end_ t) = Ok (t', end_ t)
      /\ wf t' /\ first_ind_ok t'
      /\ live_count t' = 0%nat
      /\ first_ind t' = end_ t
      /\ t_slots t' = t_slots t
      /\ t_max_size t' = t_max_size t.
Proof.
  induction n as [| n IH]; intros fuel t Hn Hwf Hfirst Hfuel.
  - destruct (first_ind_ok_spec Hwf Hfirst) as [_ Hempty].
    apply Hempty in Hn.
    assert (He : first_ind t = end_ t).
    { rewrite Hn. unfold end_, physical_length.
      rewrite (wf_slots Hwf).
      rewrite wrap_small by (pose proof (wf_range Hwf); lia). lia. }
    exists t. split_and; auto.
    + rewrite He. destruct fuel; simpl; rewrite N.eqb_refl; reflexivity.
    + destruct (first_ind_ok_spec Hwf Hfirst) as [_ Hempty'].
      apply Hempty'. exact Hn.
  - assert (Hne : first_ind t <> end_ t).
    { intro He. destruct (first_ind_ok_spec Hwf Hfirst) as [_ Hempty].
      assert (live_count t = 0%nat); [| lia].
      apply Hempty. rewrite He. unfold end_, physical_length.
      rewrite (wf_slots Hwf).
      rewrite wrap_small by (pose proof (wf_range Hwf); lia). lia. }
    destruct (erase_pos_first Hwf Hfirst Hne)
      as (t1 & it & E & Eincr & Hit & Hwf1 & Hfirst1 & Hcount & Hs1 & Hm1).
    destruct fuel as [| fuel]; [lia |].
    destruct (IH fuel t1) as (t' & E' & Hwf' & Hfirst' & Hc' & Hf' & Hs' & Hm');
      auto; try lia.
    exists t'. split_and; auto; try congruence.
    + cbn [erase_range]. apply N.eqb_neq in Hne. rewrite Hne.
      rewrite E. cbn [bind]. rewrite Eincr. cbn [bind].
      rewrite <- Hit.
      replace (end_ t) with (end_ t1) by (unfold end_; congruence).
      exact E'.
    + rewrite Hf'. unfold end_. congruence.
Qed.

End EraseRange.

(** ** The members of [HashMap] that read or write mapped values *)

Section MapFacts.

Variables Key T : Type.
Variable hasher : Key -> size_type.
Variable key_equal : Key -> Key -> bool.
Context {P : Type} {policy : CollisionPolicy P}.

Abbreviation table := (table (Key * T)).
Abbreviation probe_loop := (probe_loop (@fst Key T) key_equal (P := P)).
Abbreviation find := (find (@fst Key T) hasher key_equal (P := P)).
Abbreviation emplace_impl :=
  (emplace_impl (@fst Key T) hasher key_equal (P := P)).
Abbreviation at_ := (at_ hasher key_equal (P := P)).
Abbreviation try_emplace := (try_emplace hasher key_equal (P := P)).
Abbreviation subscript := (subscript hasher key_equal (P := P)).
Abbreviation insert_or_assign :=
  (insert_or_assign hasher key_equal (P := P)).
Abbreviation hit := (hit (@fst Key T) key_equal).

(** [try_emplace] runs the statements of [emplace_impl] on the pair of the
    key and the mapped value. *)
Lemma try_emplace_emplace (fuel : nat) (t : table) (key : Key) (mapped : T) :
  try_emplace fuel t key mapped = emplace_impl fuel t (key, mapped).
Proof. destruct fuel; reflexivity. Qed.

(** [at] returns the mapped value of the slot that a lookup walks to. *)
Lemma at_hit (fuel : nat) (t : table) (key : Key) (i : size_type)
  (e : Key * T) :
  wf t ->
  probe_loop fuel t key false
    (policy_make (hasher key mod vec_size (t_slots t))
       (vec_size (t_slots t)))
    (hasher key mod vec_size (t_slots t)) = Ok i ->
  vec_at (t_slots t) i = Ok (Some e) ->
  vec_at (t_deleted t) i = Ok false ->
  key_equal (fst e) key = true ->
  at_ fuel t key = Ok (Value (snd e)).
Proof.
  intros Hwf Hw Hs Hd Hk.
  assert (Hh : hit t key i) by (exists e; auto).
  assert (Ef : find fuel t key = Ok i) by (apply hit_find; assumption).
  unfold at_. rewrite Ef. cbn [bind].
  destruct (hit_in_range Hwf Hh) as [_ Hne].
  apply N.eqb_neq in Hne. rewrite Hne. cbn [negb].
  unfold iterator_deref. rewrite Hs. reflexivity.
Qed.

(** What [insert_or_assign] does after its [emplace]. *)
Lemma insert_or_assign_inv (fuel : nat) (t t' : table) (key : Key)
  (value : T) (it : size_type) (b : bool) :
  insert_or_assign fuel t key value = Ok (t', (it, b)) ->
  exists t1,
    emplace_impl fuel t (key, value) = Ok (t1, (it, b))
    /\ ((b = true /\ t' = t1)
        \/ (b = false
            /\ exists e,
                vec_at (t_slots t1) it = Ok (Some e)
                /\ t' = {| t_size := t_size t1;
                           t_max_size := t_max_size t1;
                           t_slots := list_set (t_slots t1) (N.to_nat it)
                                        (Some (fst e, value));
                           t_deleted := t_deleted t1;
                           first_ind := first_ind t1 |})).
Proof.
  intro E. unfold insert_or_assign in E.
  inv_bind E. destruct x as [t1 [it1 b1]]. exists t1.
  cbn beta iota in E. destruct b1.
  - inversion E; subst. split; auto.
  - inv_bind E. destruct x as [e |]; [| discriminate].
    inv_bind E. apply vec_set_Ok in E2. destruct E2 as [_ ->].
    inversion E; subst. split; auto. right. split; auto. exists e. auto.
Qed.

End MapFacts.

(** ** [rehash] under any policy *)

Section Rehash.

Variables Key value_type : Type.
Variable entry_key : value_type -> Key.
Variable hasher : Key -> size_type.
Variable key_equal : Key -> Key -> bool.
Context {P : Type} {policy : CollisionPolicy P}.

Abbreviation table := (table value_type).
Abbreviation contains := (contains entry_key hasher key_equal (P := P)).
Abbreviation rehash := (rehash entry_key hasher key_equal (P := P)).
Abbreviation emplace_in := (emplace_in entry_key hasher key_equal (P := P)).
Abbreviation finds := (finds entry_key hasher key_equal (P := P)).
Abbreviation all_findable :=
  (all_findable entry_key hasher key_equal (P := P)).
Abbreviation distinct_live_keys := (distinct_live_keys entry_key key_equal).

(** The capacity that [rehash(count)] chooses, away from the end of the
    range of [size_t]. *)
Lemma rehash_new_size_bounds (count : size_type) (t : table) :
  wf t -> count <= 2 ^ 62 -> t_max_size t <= 2 ^ 61 ->
  2 * rehash_new_size count t <= SIZE_MAX
  /\ 2 * t_size t < rehash_new_size count t
  /\ count < rehash_new_size count t.
Proof.
  intros Hwf Hc Hm. pose proof (wf_load Hwf) as Hload.
  change (2 ^ 62) with 4611686018427387904 in Hc.
  change (2 ^ 61) with 2305843009213693952 in Hm.
  unfold rehash_new_size, size.
  destruct ((count =? 0) && (vec_size (t_slots t) =? 0)) eqn:E0.
  - apply andb_true_iff in E0. destruct E0 as [E0 E1].
    apply N.eqb_eq in E0, E1.
    destruct (wf_vec_size Hwf) as [Hvs _]. unfold SIZE_MAX. lia.
  - rewrite (wrap_small (x := t_size t * 2)) by (unfold SIZE_MAX; lia).
    destruct (count <? t_size t * 2) eqn:E1.
    + apply N.ltb_lt in E1.
      rewrite wrap_small by (unfold SIZE_MAX; lia). unfold SIZE_MAX. lia.
    + apply N.ltb_ge in E1.
      rewrite wrap_small by (unfold SIZE_MAX; lia). unfold SIZE_MAX. lia.
Qed.

Section Equivalence.

Hypothesis key_equal_refl : forall a, key_equal a a = true.
Hypothesis key_equal_sym :
  forall a b, key_equal a b = true -> key_equal b a = true.
Hypothesis key_equal_trans :
  forall a b c,
    key_equal a b = true -> key_equal b c = true -> key_equal a c = true.
Hypothesis hasher_compat :
  forall a b, key_equal a b = true -> hasher a = hasher b.

(** [rehash(count)] builds the table anew. *)
Lemma rehash_rebuilds (fuel : nat) (count : size_type) (t t' : table) :
  wf t -> count <= 2 ^ 62 -> t_max_size t <= 2 ^ 61 ->
  rehash fuel count t = Ok t' ->
  wf t'
  /\ t_max_size t' = rehash_new_size count t
  /\ t_size t' <= t_size t
  /\ no_tombstones t'
  /\ all_findable fuel t'
  /\ distinct_live_keys t'
  /\ (forall e, In e (live_entries t') -> In e (live_entries t))
  /\ (forall key, contains fuel t key = Ok true ->
                  contains fuel t' key = Ok true)
  /\ (distinct_live_keys t ->
      t_size t' = t_size t
      /\ forall e, In e (live_entries t) -> In e (live_entries t')).
Proof.
  intros Hwf Hc Hm E.
  destruct (rehash_new_size_bounds Hwf Hc Hm) as (Hfit & Hbig & _).
  assert (Em : migrate (emplace_in fuel) (t_slots t) (t_deleted t)
                 (construct (rehash_new_size count t)) = Ok t')
    by exact E.
  clear E. pose proof Em as Hfresh. apply migrate_fresh in Hfresh; auto.
  destruct Hfresh as (Hwf' & Hmax' & Hsize' & Hnt' & Hall' & Hprov & Hfinds).
  split_and; auto.
  - eapply all_findable_distinct; eauto.
  - intros e He. apply In_live_at in He. destruct He as (j & Hj). eauto.
  - intros key Hk. apply contains_finds in Hk.
    destruct Hk as (i & _ & (e & Hs & Hd & Hk)).
    apply finds_contains; [exact Hwf' |].
    apply finds_congr with (key := entry_key e); auto.
    apply Hfinds. eapply live_at_In. eapply vec_at_live_at; eauto.
  - intro Hdist. apply migrate_fresh_all in Em; auto.
    destruct Em as [Hin Hsize]. auto.
Qed.

End Equivalence.

End Rehash.

(** ** The capacity after a sequence of insertions *)

Section InsertRangeCapacity.

Variables Key value_type : Type.
Variable entry_key : value_type -> Key.
Variable hasher : Key -> size_type.
Variable key_equal : Key -> Key -> bool.
Context {P : Type} {policy : CollisionPolicy P}.

Abbreviation table := (table value_type).
Abbreviation insert_range :=
  (insert_range entry_key hasher key_equal (P := P)).

Lemma insert_range_max (values : list value_type) :
  forall (fuel : nat) (t t' : table) (m0 k : N),
    wf t ->
    t_size t <= k -> t_max_size t <= m0 + 4 * k ->
    m0 + 4 * (k + N.of_nat (length values)) <= 2 ^ 61 ->
    insert_range fuel t values = Ok t' ->
    wf t'
    /\ t_max_size t' <= m0 + 4 * (k + N.of_nat (length values)).
Proof.
  induction values as [| v values IH];
    intros fuel t t' m0 k Hwf Hsize Hmax Hbudget E; simpl in E.
  - inversion E; subst. split; [exact Hwf |]. cbn [length]. lia.
  - inv_bind E. destruct x as [t1 [i b]].
    cbn [length] in Hbudget |- *. rewrite Nat2N.inj_succ in Hbudget |- *.
    destruct (@emplace_impl_budget Key value_type entry_key hasher key_equal
                P policy fuel t t1 v (i, b) m0 k Hwf Hsize Hmax)
      as (_ & Hwf1 & Hsize1 & Hmax1); [lia | exact E0 |].
    destruct (IH fuel t1 t' m0 (k + 1) Hwf1 Hsize1 Hmax1) as [Hwf' Hmax'];
      auto; [lia |].
    split; [exact Hwf' |]. lia.
Qed.

End InsertRangeCapacity.

(** ** The loop of [operator==] *)

Section Equality.

Variables Key value_type : Type.
Variable entry_key : value_type -> Key.
Variable hasher : Key -> size_type.
Variable key_equal : Key -> Key -> bool.

Abbreviation table := (table value_type).
Abbreviation contains :=
  (contains entry_key hasher key_equal (P := LinearProbing.t)).
Abbreviation equal_from :=
  (equal_from entry_key hasher key_equal (P := LinearProbing.t)).
Abbreviation all_findable :=
  (all_findable entry_key hasher key_equal (P := LinearProbing.t)).

Hypothesis key_equal_sym :
  forall a b, key_equal a b = true -> key_equal b a = true.
Hypothesis key_equal_trans :
  forall a b c,
    key_equal a b = true -> key_equal b c = true -> key_equal a c = true.
Hypothesis hasher_compat :
  forall a b, key_equal a b = true -> hasher a = hasher b.

Lemma equal_from_spec (lhs rhs : table) (f0 : nat) :
  wf lhs -> wf rhs -> no_tombstones rhs -> all_findable f0 rhs ->
  (N.to_nat (2 * t_max_size rhs) < f0)%nat ->
  forall (fuel c : nat),
    (f0 + (length (t_slots lhs) - c) < fuel)%nat ->
    (c <= length (t_slots lhs))%nat ->
    next_live (t_slots lhs) (t_deleted lhs) c = c ->
    equal_from fuel lhs rhs (N.of_nat c)
    = Ok (forallb
            (fun e =>
               existsb (fun e' => key_equal (entry_key e') (entry_key e))
                 (live_entries rhs))
            (live_entries_of (skipn c (t_slots lhs))
               (skipn c (t_deleted lhs)))).
Proof.
  intros Hwf Hwfr Hnt Hall Hf0. destruct (wf_vec_size Hwf) as [Hvs _].
  pose proof (wf_range Hwf) as Hr. pose proof (wf_deleted Hwf) as Hlen.
  assert (Hend : end_ lhs = N.of_nat (length (t_slots lhs))).
  { unfold end_. rewrite wrap_small by lia. unfold vec_size in Hvs. lia. }
  induction fuel as [| fuel IH]; intros c Hfuel Hc Hlive; [lia |].
  cbn [equal_from]. rewrite Hend.
  destruct (N.of_nat c =? N.of_nat (length (t_slots lhs))) eqn:E.
  - apply N.eqb_eq in E. rewrite !skipn_all2 by lia. reflexivity.
  - apply N.eqb_neq in E.
    assert (Hlt : (c < length (t_slots lhs))%nat) by lia.
    destruct (@next_live_is_live value_type (t_slots lhs) (t_deleted lhs) c
                Hlen) as (e & Es & Ed); [lia |].
    rewrite Hlive in Es, Ed.
    unfold iterator_deref.
    pose proof Es as Es'. rewrite <- (Nat2N.id c) in Es'.
    apply vec_at_Ok in Es'. rewrite Es'. cbn [bind].
    rewrite clean_contains; auto; [| | lia].
    2: { eapply all_findable_mono; [| exact Hall]. lia. }
    cbn [bind].
    rewrite (skipn_cons_nth _ _ Es), (skipn_cons_nth _ _ Ed).
    cbn [live_entries_of forallb].
    destruct (existsb (fun e' => key_equal (entry_key e') (entry_key e))
                (live_entries rhs)); [| reflexivity].
    rewrite iterator_incr_spec by (auto; lia). cbn [bind andb].
    pose proof (@next_live_bounds value_type (t_slots lhs) (t_deleted lhs)
                  (S c)) as Hb.
    rewrite IH; try lia.
    + rewrite <- live_entries_next by exact Hlen. reflexivity.
    + pose proof (@next_live_is_live value_type (t_slots lhs)
                    (t_deleted lhs) (S c) Hlen) as Hnl.
      unfold next_live at 1.
      set (c' := next_live (t_slots lhs) (t_deleted lhs) (S c)) in *.
      clearbody c'.
      destruct (Nat.eq_dec c' (length (t_slots lhs))) as [H | H].
      * rewrite !skipn_all2 by lia. simpl. lia.
      * destruct Hnl as (e' & Es1 & Ed1); [lia |].
        rewrite (skipn_cons_nth _ _ Es1), (skipn_cons_nth _ _ Ed1).
        simpl. lia.
Qed.

End Equality.

(** * The public interface: further properties *)

(** [N.eqb] and the identity hash meet what the containers ask of [Equal]
    and [Hash]. *)
Lemma eqb_sym (a b : N) : (a =? b) = true -> (b =? a) = true.
Proof. intro H. apply N.eqb_eq in H. subst. apply N.eqb_refl. Qed.

Lemma eqb_trans (a b c : N) :
  (a =? b) = true -> (b =? c) = true -> (a =? c) = true.
Proof.
  intros H1 H2. apply N.eqb_eq in H1, H2. subst. apply N.eqb_refl.
Qed.

Lemma hash_id_compat (a b : N) :
  (a =? b) = true -> Run.hash_id a = Run.hash_id b.
Proof. intro H. apply N.eqb_eq in H. subst. reflexivity. Qed.

(** X1. Constructor, [insert] and [erase(key)]: every table that a
    table constructed with capacity hint [n] reaches by a history of
    insertions and erasures, with [n] plus four times the length of the
    history within 2^61, keeps the representation invariant; its capacity
    is at most [n] plus four times the length of the history; [begin()] is
    the index of its first live slot, it equals [end()] exactly when no
    slot is live, and [empty()] says whether the table has a live entry. *)
Theorem reachable_table_invariant
  (Key value_type : Type) (entry_key : value_type -> Key)
  (hasher : Key -> size_type) (key_equal : Key -> Key -> bool)
  (P : Type) (policy : CollisionPolicy P)
  (n : size_type) (ops : list (op Key value_type)) (fuel : nat)
  (t : table value_type) :
  n + 4 * N.of_nat (length ops) <= 2 ^ 61 ->
  run (P := P) entry_key hasher key_equal fuel (construct n) ops = Ok t ->
  wf t
  /\ max_size t <= n + 4 * N.of_nat (length ops)
  /\ begin_ t = N.of_nat (first_live (t_slots t) (t_deleted t))
  /\ (forall i e, live_at t i e -> begin_ t <= N.of_nat i)
  /\ (begin_ t = end_ t <-> live_entries t = [])
  /\ (empty t = true <-> live_entries t = []).
Proof.
  intros Hfit E.
  apply reachable_wf in E; [| exact Hfit].
  destruct E as (Hwf & Hfirst & Hmax).
  destruct (first_ind_ok_spec Hwf Hfirst) as [Hleast Hnone].
  assert (Hlen : live_count t = 0%nat <-> live_entries t = []).
  { unfold live_count. split; [apply length_zero_iff_nil |].
    intros ->. reflexivity. }
  split_and; auto.
  - rewrite <- Hlen, <- Hnone. unfold begin_, end_, physical_length.
    rewrite (wf_slots Hwf).
    rewrite wrap_small by (pose proof (wf_range Hwf); lia).
    split; intro H; rewrite H; lia.
  - rewrite <- Hlen. unfold empty. rewrite (wf_size Hwf).
    rewrite N.eqb_eq. lia.
Qed.

Lemma reachable_table_invariant_witness :
  exists t,
    Run.map_run 10 (construct 2) Run.map_wrapped = Ok t
    /\ wf t /\ begin_ t = 0.
Proof.
  destruct (Run.map_run 10 (construct 2) Run.map_wrapped) as [t | |] eqn:E;
    [| vm_compute in E; discriminate ..].
  destruct (@reachable_table_invariant N (N * N) fst Run.hash_id N.eqb
              LinearProbing.t _ 2 Run.map_wrapped 10%nat t)
    as (Hwf & _ & Hbegin & _).
  - vm_compute. discriminate.
  - exact E.
  - exists t. split_and; auto.
    vm_compute in E. inversion E; subst t. reflexivity.
Defined.

(** X2. [begin()], [end()], iterator [operator++] and [operator*]: on a
    well-formed table whose [begin()] is its first live slot, a walk from
    [begin()] to [end()] returns within one round per slot, and yields the
    live entries in slot order, each once; [size()] is their number. *)
Theorem iteration_yields_live_entries
  (value_type : Type) (t : table value_type) (fuel : nat) :
  wf t -> first_ind_ok t ->
  (length (t_slots t) < fuel)%nat ->
  iterate fuel t = Ok (live_entries t)
  /\ size t = N.of_nat (length (live_entries t)).
Proof.
  intros Hwf Hfirst Hfuel. split.
  - apply iterate_live_entries; assumption.
  - apply (wf_size Hwf).
Qed.

Lemma iteration_yields_live_entries_witness :
  exists t,
    Run.map_run 10 (construct 2) Run.map_wrapped = Ok t
    /\ iterate 10 t = Ok [(7, 71)].
Proof.
  pose (t := {| t_size := 1;
                t_max_size := 2;
                t_slots := [Some (7, 71); None; None; Some (3, 30)];
                t_deleted := [false; true; true; true];
                first_ind := 0 |} : table (N * N)).
  destruct (@iteration_yields_live_entries (N * N) t 10%nat) as (Hit & _).
  - split; vm_compute; try reflexivity; discriminate.
  - reflexivity.
  - vm_compute. lia.
  - exists t. split; [reflexivity | exact Hit].
Defined.

(** X3. [insert] then [find], under any probing policy: after an
    insertion that returns, a lookup of the key of the value returns the
    iterator that the insertion returned; the entry there has the key, and
    is the value itself when the insertion reports it as added. *)
Theorem insert_then_find
  (Key value_type : Type) (entry_key : value_type -> Key)
  (hasher : Key -> size_type) (key_equal : Key -> Key -> bool)
  (P : Type) (policy : CollisionPolicy P)
  (t t' : table value_type) (v : value_type) (it : size_type) (b : bool)
  (fuel : nat) :
  (forall a, key_equal a a = true) ->
  wf t -> 4 * t_max_size t + 2 <= SIZE_MAX ->
  insert (P := P) entry_key hasher key_equal fuel t v = Ok (t', (it, b)) ->
  find (P := P) entry_key hasher key_equal fuel t' (entry_key v) = Ok it
  /\ contains (P := P) entry_key hasher key_equal fuel t' (entry_key v)
     = Ok true
  /\ count (P := P) entry_key hasher key_equal fuel t' (entry_key v) = Ok 1
  /\ exists e,
      iterator_deref t' it = Ok e
      /\ key_equal (entry_key e) (entry_key v) = true
      /\ (b = true -> e = v).
Proof.
  intros Hrefl Hwf Hfit E. unfold insert in E.
  pose proof E as Hwf'. apply emplace_impl_spec in Hwf'; auto.
  destruct Hwf' as (Hwf' & _).
  apply emplace_impl_finds in E; auto.
  destruct E as (Hw & e & Hs & Hd & Hk & He).
  assert (Hh : hit entry_key key_equal t' (entry_key v) it)
    by (exists e; auto).
  assert (Ef : find (P := P) entry_key hasher key_equal fuel t'
                 (entry_key v) = Ok it) by (apply hit_find; assumption).
  destruct (hit_in_range Hwf' Hh) as [_ Hne]. apply N.eqb_neq in Hne.
  split_and; auto.
  - unfold contains. rewrite Ef. cbn [bind]. rewrite Hne. reflexivity.
  - unfold count. rewrite Ef. cbn [bind]. rewrite Hne. reflexivity.
  - exists e. split_and; auto.
    unfold iterator_deref. rewrite Hs. reflexivity.
Qed.

Lemma insert_then_find_witness :
  exists t',
    Run.map_insert 10 (construct 2) (7, 70) = Ok (t', (3, true))
    /\ Run.map_find 10 t' 7 = Ok 3.
Proof.
  pose (t' := {| t_size := 1;
                 t_max_size := 2;
                 t_slots := [None; None; None; Some (7, 70)];
                 t_deleted := [true; true; true; false];
                 first_ind := 3 |}).
  destruct (@insert_then_find N (N * N) fst Run.hash_id N.eqb
              LinearProbing.t _ (construct 2) t' (7, 70) 3 true 10%nat)
    as (Hfind & _).
  - apply N.eqb_refl.
  - split; vm_compute; try reflexivity; discriminate.
  - vm_compute. discriminate.
  - reflexivity.
  - exists t'. split; [reflexivity | exact Hfind].
Defined.

(** X4. [insert] and the rehash inside it, under any probing policy: a
    key that the table contains is contained after any insertion, whether
    or not the insertion rehashed the table. *)
Theorem insert_keeps_contained_keys
  (Key value_type : Type) (entry_key : value_type -> Key)
  (hasher : Key -> size_type) (key_equal : Key -> Key -> bool)
  (P : Type) (policy : CollisionPolicy P)
  (t t' : table value_type) (v : value_type) (r : size_type * bool)
  (key : Key) (fuel : nat) :
  (forall a, key_equal a a = true) ->
  (forall a b, key_equal a b = true -> key_equal b a = true) ->
  (forall a b c,
      key_equal a b = true -> key_equal b c = true -> key_equal a c = true) ->
  (forall a b, key_equal a b = true -> hasher a = hasher b) ->
  wf t -> 4 * t_max_size t + 2 <= SIZE_MAX ->
  contains (P := P) entry_key hasher key_equal fuel t key = Ok true ->
  insert (P := P) entry_key hasher key_equal fuel t v = Ok (t', r) ->
  contains (P := P) entry_key hasher key_equal fuel t' key = Ok true.
Proof.
  intros Hrefl Hsym Htrans Hhash Hwf Hfit Hc E. unfold insert in E.
  apply contains_finds in Hc.
  pose proof E as Hwf'. destruct r as [it b].
  apply emplace_impl_spec in Hwf'; auto. destruct Hwf' as (Hwf' & _).
  apply finds_contains; [exact Hwf' |].
  eapply emplace_impl_keeps with (t := t); eauto.
Qed.

Lemma insert_keeps_contained_keys_witness :
  exists t t',
    Run.map_run 10 (construct 1) [Insert (1, 10)] = Ok t
    /\ Run.map_insert 10 t (2, 20) = Ok (t', (2, true))
    /\ t_max_size t' = 3
    /\ Run.map_find 10 t' 1 = Ok 1.
Proof.
  pose (t := {| t_size := 1;
                t_max_size := 1;
                t_slots := [None; Some (1, 10)];
                t_deleted := [true; false];
                first_ind := 1 |}).
  pose (t' := {| t_size := 2;
                 t_max_size := 3;
                 t_slots := [None; Some (1, 10); Some (2, 20); None; None;
                             None];
                 t_deleted := [true; false; false; true; true; true];
                 first_ind := 1 |}).
  pose proof (@insert_keeps_contained_keys N (N * N) fst Run.hash_id N.eqb
                LinearProbing.t _ t t' (2, 20) (2, true) 1 10%nat
                N.eqb_refl eqb_sym eqb_trans hash_id_compat) as H.
  exists t, t'. split; [reflexivity |]. split; [reflexivity |].
  split; [reflexivity |].
  assert (Hc : contains (P := LinearProbing.t) fst Run.hash_id N.eqb 10 t' 1
               = Ok true).
  { apply H.
    - split; vm_compute; try reflexivity; discriminate.
    - vm_compute. discriminate.
    - reflexivity.
    - reflexivity. }
  reflexivity.
Defined.

(** X5. [erase(key)] then [find], under any probing policy and in any
    state of the table: after an erasure that returns, a lookup of the key
    returns [end()], [contains] is false, [count] is 0, and a second
    erasure returns 0 and leaves the table as it is. *)
Theorem erase_then_find
  (Key value_type : Type) (entry_key : value_type -> Key)
  (hasher : Key -> size_type) (key_equal : Key -> Key -> bool)
  (P : Type) (policy : CollisionPolicy P)
  (t t' : table value_type) (key : Key) (n : size_type) (fuel : nat) :
  erase (P := P) entry_key hasher key_equal fuel t key = Ok (t', n) ->
  find (P := P) entry_key hasher key_equal fuel t' key = Ok (end_ t')
  /\ contains (P := P) entry_key hasher key_equal fuel t' key = Ok false
  /\ count (P := P) entry_key hasher key_equal fuel t' key = Ok 0
  /\ equal_range (P := P) entry_key hasher key_equal fuel t' key
     = Ok (end_ t', end_ t')
  /\ erase (P := P) entry_key hasher key_equal fuel t' key = Ok (t', 0).
Proof.
  intro E. apply erase_find in E.
  unfold contains, count, equal_range, erase. rewrite E. cbn [bind].
  rewrite N.eqb_refl. auto.
Qed.

Lemma erase_then_find_witness :
  exists t t',
    Run.map_run 10 (construct 2) [Insert (3, 30); Insert (7, 71)] = Ok t
    /\ Run.map_erase 10 t 3 = Ok (t', 1)
    /\ Run.map_find 10 t' 3 = Ok (end_ t')
    /\ Run.map_erase 10 t' 3 = Ok (t', 0).
Proof.
  pose (t := {| t_size := 2;
                t_max_size := 2;
                t_slots := [Some (7, 71); None; None; Some (3, 30)];
                t_deleted := [false; true; true; false];
                first_ind := 0 |}).
  pose (t' := {| t_size := 1;
                 t_max_size := 2;
                 t_slots := [Some (7, 71); None; None; Some (3, 30)];
                 t_deleted := [false; true; true; true];
                 first_ind := 0 |}).
  destruct (@erase_then_find N (N * N) fst Run.hash_id N.eqb
              LinearProbing.t _ t t' 3 1 10%nat)
    as (Hfind & _ & _ & _ & Hagain).
  - reflexivity.
  - exists t, t'. split; [reflexivity |]. split; [reflexivity |].
    split; [exact Hfind | exact Hagain].
Defined.

(** X6. [erase(key)] and the lookups of other keys, under any probing
    policy: an erasure leaves what [find] and [contains] return for every
    key that [key_equal] tells from the erased one, with any fuel. *)
Theorem erase_leaves_other_lookups
  (Key value_type : Type) (entry_key : value_type -> Key)
  (hasher : Key -> size_type) (key_equal : Key -> Key -> bool)
  (P : Type) (policy : CollisionPolicy P)
  (t t' : table value_type) (key key' : Key) (n : size_type)
  (fuel fuel' : nat) :
  (forall a b, key_equal a b = true -> key_equal b a = true) ->
  (forall a b c,
      key_equal a b = true -> key_equal b c = true -> key_equal a c = true) ->
  key_equal key key' = false ->
  erase (P := P) entry_key hasher key_equal fuel t key = Ok (t', n) ->
  find (P := P) entry_key hasher key_equal fuel' t' key'
  = find (P := P) entry_key hasher key_equal fuel' t key'
  /\ contains (P := P) entry_key hasher key_equal fuel' t' key'
     = contains (P := P) entry_key hasher key_equal fuel' t key'.
Proof.
  intros Hsym Htrans Hk E.
  assert (Hend : end_ t' = end_ t).
  { pose proof E as Ew. apply erase_walk in Ew.
    destruct Ew as [(_ & -> & _) | (_ & i & it & _ & _ & _ & _ & ->)];
      reflexivity. }
  assert (Ef : find (P := P) entry_key hasher key_equal fuel' t' key'
               = find (P := P) entry_key hasher key_equal fuel' t key')
    by (eapply erase_find_other; eauto).
  split; [exact Ef |]. unfold contains. rewrite Ef, Hend. reflexivity.
Qed.

Lemma erase_leaves_other_lookups_witness :
  exists t t',
    Run.map_run 10 (construct 2) [Insert (3, 30); Insert (7, 71)] = Ok t
    /\ Run.map_erase 10 t 3 = Ok (t', 1)
    /\ Run.map_find 10 t' 7 = Run.map_find 10 t 7.
Proof.
  pose (t := {| t_size := 2;
                t_max_size := 2;
                t_slots := [Some (7, 71); None; None; Some (3, 30)];
                t_deleted := [false; true; true; false];
                first_ind := 0 |}).
  pose (t' := {| t_size := 1;
                 t_max_size := 2;
                 t_slots := [Some (7, 71); None; None; Some (3, 30)];
                 t_deleted := [false; true; true; true];
                 first_ind := 0 |}).
  destruct (@erase_leaves_other_lookups N (N * N) fst Run.hash_id N.eqb
              LinearProbing.t _ t t' 3 7 1 10%nat 10%nat eqb_sym eqb_trans)
    as (Hfind & _).
  - reflexivity.
  - reflexivity.
  - exists t, t'. split; [reflexivity |]. split; [reflexivity |].
    exact Hfind.
Defined.

(** X7. [erase(key)] on a well-formed table, under any probing policy: when
    it returns 0 it found no entry and leaves the table as it is; when it
    returns 1 it turned the slot of one live entry with the key into a
    tombstone, took one off [size()] and left every other slot, the stored
    entries and the capacity as they are.  Under [LinearProbing] it does
    return whenever the table has an empty slot, with fuel for one walk
    over the slots; in a table without an empty slot the lookup it starts
    with need not return. *)
Theorem erase_removes_one_entry
  (Key value_type : Type) (entry_key : value_type -> Key)
  (hasher : Key -> size_type) (key_equal : Key -> Key -> bool)
  (t : table value_type) (key : Key) (fuel : nat) :
  wf t ->
  (forall (P : Type) (policy : CollisionPolicy P)
          (t' : table value_type) (n : size_type),
      erase (P := P) entry_key hasher key_equal fuel t key = Ok (t', n) ->
      wf t'
      /\ t_slots t' = t_slots t
      /\ max_size t' = max_size t
      /\ ((n = 0 /\ t' = t
           /\ contains (P := P) entry_key hasher key_equal fuel t key
              = Ok false)
          \/ (n = 1
              /\ contains (P := P) entry_key hasher key_equal fuel t key
                 = Ok true
              /\ size t' + 1 = size t
              /\ exists i e,
                  find (P := P) entry_key hasher key_equal fuel t key
                  = Ok (N.of_nat i)
                  /\ live_at t i e
                  /\ key_equal (entry_key e) key = true
                  /\ tombstone_at t' i
                  /\ forall j e',
                      live_at t' j e' <-> live_at t j e' /\ j <> i)))
  /\ (forall j : nat,
        nth_error (t_slots t) j = Some None ->
        (N.to_nat (2 * t_max_size t) < fuel)%nat ->
        exists t' n,
          erase (P := LinearProbing.t) entry_key hasher key_equal fuel t key
          = Ok (t', n)).
Proof.
  intro Hwf. split; [| intros j Hj Hfuel; eapply linear_erase_total; eauto].
  intros P policy t' n E.
  pose proof E as Hspec. apply erase_spec in Hspec; auto.
  destruct Hspec as [Hwf' Hmax].
  apply erase_walk in E.
  destruct E as [(-> & -> & Ef) | (-> & i & it & Ef & Hne & Hh & Hlt & ->)].
  - split_and; auto. left. split_and; auto.
    unfold contains. rewrite Ef. cbn [bind]. rewrite N.eqb_refl. reflexivity.
  - split_and; auto. right.
    destruct Hh as (e & Hs & Hd & Hk).
    pose proof (vec_at_live_at _ _ Hs Hd) as Hl.
    destruct Hl as [Hs' Hd'].
    split_and; auto.
    + unfold contains. rewrite Ef. cbn [bind].
      apply N.eqb_neq in Hne. rewrite Hne. reflexivity.
    + unfold size. cbn [t_size].
      pose proof (wf_size Hwf) as Hz. pose proof (wf_load Hwf) as Hload.
      pose proof (wf_range Hwf) as Hr.
      assert (Hpos : (0 < live_count t)%nat).
      { pose proof (live_entries_In _ _ _ Hs' Hd') as Hin.
        unfold live_count, live_entries.
        destruct (live_entries_of (t_slots t) (t_deleted t));
          [destruct Hin | simpl; lia]. }
      replace (t_size t) with ((t_size t - 1) + 1) at 1 by lia.
      rewrite decr_succ by lia. lia.
    + exists (N.to_nat i), e. rewrite N2Nat.id.
      split_and; auto.
      * split; assumption.
      * split; cbn [t_slots t_deleted]; [exists e; exact Hs' |].
        apply list_set_same. unfold vec_size in Hlt. lia.
      * intros j e'. unfold live_at. cbn [t_slots t_deleted].
        destruct (Nat.eq_dec (N.to_nat i) j) as [<- | Hj].
        -- rewrite list_set_same by (unfold vec_size in Hlt; lia).
           split; [intros [_ H]; discriminate | intros [_ H]; congruence].
        -- rewrite list_set_other by assumption.
           split; [intros [H1 H2]; auto | intros [[H1 H2] _]; auto].
Qed.

Lemma erase_removes_one_entry_witness :
  exists t t',
    Run.map_run 10 (construct 2) [Insert (3, 30); Insert (7, 71)] = Ok t
    /\ Run.map_erase 10 t 3 = Ok (t', 1)
    /\ wf t' /\ t_slots t' = t_slots t
    /\ exists t'' n, Run.map_erase 10 t 3 = Ok (t'', n).
Proof.
  pose (t := {| t_size := 2;
                t_max_size := 2;
                t_slots := [Some (7, 71); None; None; Some (3, 30)];
                t_deleted := [false; true; true; false];
                first_ind := 0 |}).
  pose (t' := {| t_size := 1;
                 t_max_size := 2;
                 t_slots := [Some (7, 71); None; None; Some (3, 30)];
                 t_deleted := [false; true; true; true];
                 first_ind := 0 |}).
  destruct (@erase_removes_one_entry N (N * N) fst Run.hash_id N.eqb
              t 3 10%nat)
    as [Hone Hreturns].
  - split; vm_compute; try reflexivity; discriminate.
  - destruct (Hone LinearProbing.t _ t' 1 eq_refl) as (Hwf & Hslots & _).
    exists t, t'. split; [reflexivity |]. split; [reflexivity |].
    split; [exact Hwf |]. split; [exact Hslots |].
    apply (Hreturns 1%nat); [reflexivity | vm_compute; lia].
Defined.

(** X8. The constructor from a range and [insert(first, last)], under any
    probing policy: a table built from an empty one of capacity hint [n] by
    the insertions of a range, with [n] plus four times the length of the
    range within 2^61, has no tombstone and no two live entries with keys
    that [key_equal] identifies; its live entries are, for every key of the
    range, the first value of the range with that key; every key of the
    range is contained, and every live entry is found at its own slot. *)
Theorem range_construction_keeps_first_values
  (Key value_type : Type) (entry_key : value_type -> Key)
  (hasher : Key -> size_type) (key_equal : Key -> Key -> bool)
  (P : Type) (policy : CollisionPolicy P)
  (values : list value_type) (n : size_type) (fuel : nat)
  (t : table value_type) :
  (forall a, key_equal a a = true) ->
  (forall a b, key_equal a b = true -> key_equal b a = true) ->
  (forall a b c,
      key_equal a b = true -> key_equal b c = true -> key_equal a c = true) ->
  (forall a b, key_equal a b = true -> hasher a = hasher b) ->
  n + 4 * N.of_nat (length values) <= 2 ^ 61 ->
  construct_range (P := P) entry_key hasher key_equal fuel values n = Ok t ->
  wf t
  /\ no_tombstones t
  /\ distinct_live_keys entry_key key_equal t
  /\ (forall e, In e (live_entries t)
                <-> first_with_key entry_key key_equal e values)
  /\ (forall v, In v values ->
                contains (P := P) entry_key hasher key_equal fuel t
                  (entry_key v) = Ok true)
  /\ (forall i e, live_at t i e ->
                  find (P := P) entry_key hasher key_equal fuel t
                    (entry_key e) = Ok (N.of_nat i)).
Proof.
  intros Hrefl Hsym Htrans Hhash Hfit E. unfold construct_range in E.
  assert (Hn : 2 * n <= SIZE_MAX).
  { change (2 ^ 61) with 2305843009213693952 in Hfit. unfold SIZE_MAX. lia. }
  pose proof (@wf_construct value_type n Hn) as Hwf0.
  assert (Hsize0 : t_size (@construct value_type n) <= 0)
    by (cbn [t_size construct]; lia).
  assert (Hmax0 : t_max_size (@construct value_type n) <= n + 4 * 0)
    by (cbn [t_max_size construct]; lia).
  assert (Hbudget : n + 4 * (0 + N.of_nat (length values)) <= 2 ^ 61)
    by exact Hfit.
  pose proof E as Hclean.
  apply insert_range_clean with (m0 := n) (k := 0) in Hclean; auto.
  2: apply fresh_no_tombstones.
  2: apply fresh_all_findable.
  destruct Hclean as (Hwf & Hnt & Hall & Hlive).
  pose proof E as Hfinds.
  apply insert_range_finds with (m0 := n) (k := 0) in Hfinds; auto.
  destruct Hfinds as [_ Hfinds].
  split_and; auto.
  - eapply all_findable_distinct; eauto.
  - intro e. rewrite Hlive. split.
    + intros [He | [Hf _]]; [| exact Hf].
      apply In_live_at in He. destruct He as (j & Hj).
      exfalso. eapply fresh_no_live; eauto.
    + intro Hf. right. split; [exact Hf |].
      intros e0 He0. apply In_live_at in He0. destruct He0 as (j & Hj).
      exfalso. eapply fresh_no_live; eauto.
  - intros v Hv. apply finds_contains; auto.
Qed.

Lemma range_construction_keeps_first_values_witness :
  exists t,
    construct_range (P := LinearProbing.t) fst Run.hash_id N.eqb 10
      [(1, 10); (5, 50); (1, 11)] 2 = Ok t
    /\ no_tombstones t
    /\ live_entries t = [(1, 10); (5, 50)].
Proof.
  pose (t := {| t_size := 2;
                t_max_size := 5;
                t_slots := [None; Some (1, 10); None; None; None;
                            Some (5, 50); None; None; None; None];
                t_deleted := [true; false; true; true; true; false; true;
                              true; true; true];
                first_ind := 1 |} : table (N * N)).
  destruct (@range_construction_keeps_first_values N (N * N) fst
              Run.hash_id N.eqb LinearProbing.t _
              [(1, 10); (5, 50); (1, 11)] 2 10%nat t
              N.eqb_refl eqb_sym eqb_trans hash_id_compat)
    as (_ & Hnt & _).
  - vm_compute. discriminate.
  - reflexivity.
  - exists t. split; [reflexivity |]. split; [exact Hnt | reflexivity].
Defined.

(** X9. [insert] into a table without tombstones in which every live
    entry is found by a lookup (a table built by insertions only, or just
    rehashed), under any probing policy: the value is added exactly when no
    live entry has its key; no other entry is added, lost or changed, also
    when the table is rehashed on the way; [size()] grows by one exactly
    when the value is added; and the table stays as described. *)
Theorem insert_without_tombstones
  (Key value_type : Type) (entry_key : value_type -> Key)
  (hasher : Key -> size_type) (key_equal : Key -> Key -> bool)
  (P : Type) (policy : CollisionPolicy P)
  (t t' : table value_type) (v : value_type) (it : size_type) (b : bool)
  (fuel : nat) :
  (forall a, key_equal a a = true) ->
  (forall a b, key_equal a b = true -> key_equal b a = true) ->
  (forall a b c,
      key_equal a b = true -> key_equal b c = true -> key_equal a c = true) ->
  (forall a b, key_equal a b = true -> hasher a = hasher b) ->
  wf t -> 4 * t_max_size t + 2 <= SIZE_MAX ->
  no_tombstones t ->
  all_findable (P := P) entry_key hasher key_equal fuel t ->
  insert (P := P) entry_key hasher key_equal fuel t v = Ok (t', (it, b)) ->
  (b = false
   <-> exists e, In e (live_entries t)
                 /\ key_equal (entry_key e) (entry_key v) = true)
  /\ (forall e, In e (live_entries t')
                <-> In e (live_entries t) \/ (b = true /\ e = v))
  /\ size t' = (if b then size t + 1 else size t)
  /\ no_tombstones t'
  /\ all_findable (P := P) entry_key hasher key_equal fuel t'.
Proof.
  intros Hrefl Hsym Htrans Hhash Hwf Hfit Hnt Hall E. unfold insert in E.
  pose proof E as Hspec. apply emplace_impl_clean_spec in Hspec; auto.
  destruct Hspec as (Hb & Hlive & Hsize).
  destruct (@emplace_impl_clean Key value_type entry_key hasher key_equal
              P policy Hrefl fuel t t' v (it, b) Hwf Hfit
              (fun _ => conj Hnt Hall) E) as [Hnt' Hall'].
  split_and; auto.
Qed.

Lemma insert_without_tombstones_witness :
  exists t t',
    construct_range (P := LinearProbing.t) fst Run.hash_id N.eqb 10
      [(1, 10); (5, 50)] 2 = Ok t
    /\ Run.map_insert 10 t (5, 51) = Ok (t', (5, false))
    /\ size t' = size t.
Proof.
  pose (t0 := {| t_size := 2;
                 t_max_size := 2;
                 t_slots := [None; Some (1, 10); Some (5, 50); None];
                 t_deleted := [true; false; false; true];
                 first_ind := 1 |} : table (N * N)).
  pose (t1 := {| t_size := 2;
                 t_max_size := 5;
                 t_slots := [None; Some (1, 10); None; None; None;
                             Some (5, 50); None; None; None; None];
                 t_deleted := [true; false; true; true; true; false; true;
                               true; true; true];
                 first_ind := 1 |} : table (N * N)).
  destruct (@insert_without_tombstones N (N * N) fst Run.hash_id N.eqb
              LinearProbing.t _ t0 t1 (5, 51) 5 false 10%nat
              N.eqb_refl eqb_sym eqb_trans hash_id_compat)
    as (_ & _ & Hsize & _).
  - split; vm_compute; try reflexivity; discriminate.
  - vm_compute. discriminate.
  - intros i e H.
    destruct i as [| [| [| [| i]]]]; simpl in H |- *; try discriminate;
      try reflexivity.
    destruct i; discriminate.
  - intros i e [H1 H2].
    destruct i as [| [| [| [| i]]]]; simpl in H1, H2; try discriminate.
    + inversion H1; subst e. reflexivity.
    + inversion H1; subst e. reflexivity.
    + destruct i; discriminate.
  - reflexivity.
  - exists t0, t1. split; [reflexivity |]. split; [reflexivity |].
    exact Hsize.
Defined.

(** X10. [HashMap::insert] and [HashMap::at] on a map without tombstones
    in which every live entry is found, under any probing policy: an
    insertion does not change the value that [at] returns for any key that
    the map holds, the key of the inserted pair included, also when the map
    is rehashed on the way. *)
Theorem insert_keeps_mapped_values
  (Key T : Type) (hasher : Key -> size_type)
  (key_equal : Key -> Key -> bool)
  (P : Type) (policy : CollisionPolicy P)
  (t t' : table (Key * T)) (v : Key * T) (r : size_type * bool)
  (key : Key) (y : T) (fuel : nat) :
  (forall a, key_equal a a = true) ->
  (forall a b, key_equal a b = true -> key_equal b a = true) ->
  (forall a b c,
      key_equal a b = true -> key_equal b c = true -> key_equal a c = true) ->
  (forall a b, key_equal a b = true -> hasher a = hasher b) ->
  wf t -> 4 * t_max_size t + 2 <= SIZE_MAX ->
  no_tombstones t ->
  all_findable (P := P) (@fst Key T) hasher key_equal fuel t ->
  at_ (P := P) hasher key_equal fuel t key = Ok (Value y) ->
  insert (P := P) (@fst Key T) hasher key_equal fuel t v = Ok (t', r) ->
  at_ (P := P) hasher key_equal fuel t' key = Ok (Value y).
Proof.
  intros Hrefl Hsym Htrans Hhash Hwf Hfit Hnt Hall Hat E.
  unfold insert in E. destruct r as [it b].
  unfold at_ in Hat. inv_bind Hat. rename x into it0.
  destruct (negb (it0 =? end_ t)) eqn:Hne; [| discriminate].
  apply negb_true_iff, N.eqb_neq in Hne.
  inv_bind Hat. rename x into e0. inversion Hat; subst y. clear Hat.
  apply find_finds in E0; [| exact Hne].
  destruct E0 as (_ & e & Hs & Hd & Hk).
  unfold iterator_deref in E1. rewrite Hs in E1. cbn [bind] in E1.
  inversion E1; subst e0. clear E1.
  pose proof (vec_at_live_at _ _ Hs Hd) as Hl. apply live_at_In in Hl.
  pose proof E as Hwf'. apply emplace_impl_spec in Hwf'; auto.
  destruct Hwf' as (Hwf' & _).
  pose proof E as Hspec. apply emplace_impl_clean_spec in Hspec; auto.
  destruct Hspec as (_ & Hlive & _).
  destruct (@emplace_impl_clean Key (Key * T) fst hasher key_equal
              P policy Hrefl fuel t t' v (it, b) Hwf Hfit
              (fun _ => conj Hnt Hall) E) as [Hnt' Hall'].
  assert (Hl' : In e (live_entries t')) by (apply Hlive; auto).
  apply In_live_at in Hl'. destruct Hl' as (j & Hj).
  pose proof (all_findable_walk Hwf' Hall' Hj) as Hw.
  rewrite (Hhash _ _ Hk) in Hw.
  apply probe_loop_congr with (key' := key) in Hw; auto.
  apply live_at_vec_at in Hj. destruct Hj as [Hs' Hd'].
  eapply at_hit; eauto.
Qed.

Lemma insert_keeps_mapped_values_witness :
  exists t t',
    construct_range (P := LinearProbing.t) fst Run.hash_id N.eqb 10
      [(1, 10); (5, 50)] 2 = Ok t
    /\ Run.map_insert 10 t (5, 51) = Ok (t', (5, false))
    /\ at_ (P := LinearProbing.t) Run.hash_id N.eqb 10 t' 5
       = Ok (Value 50).
Proof.
  pose (t0 := {| t_size := 2;
                 t_max_size := 2;
                 t_slots := [None; Some (1, 10); Some (5, 50); None];
                 t_deleted := [true; false; false; true];
                 first_ind := 1 |} : table (N * N)).
  pose (t1 := {| t_size := 2;
                 t_max_size := 5;
                 t_slots := [None; Some (1, 10); None; None; None;
                             Some (5, 50); None; None; None; None];
                 t_deleted := [true; false; true; true; true; false; true;
                               true; true; true];
                 first_ind := 1 |} : table (N * N)).
  pose proof (@insert_keeps_mapped_values N N Run.hash_id N.eqb
                LinearProbing.t _ t0 t1 (5, 51) (5, false) 5 50 10%nat
                N.eqb_refl eqb_sym eqb_trans hash_id_compat) as H.
  exists t0, t1. split; [reflexivity |]. split; [reflexivity |].
  apply H.
  - split; vm_compute; try reflexivity; discriminate.
  - vm_compute. discriminate.
  - intros i e Hs.
    destruct i as [| [| [| [| i]]]]; simpl in Hs |- *; try discriminate;
      try reflexivity.
    destruct i; discriminate.
  - intros i e [H1 H2].
    destruct i as [| [| [| [| i]]]]; simpl in H1, H2; try discriminate.
    + inversion H1; subst e. reflexivity.
    + inversion H1; subst e. reflexivity.
    + destruct i; discriminate.
  - reflexivity.
  - reflexivity.
Defined.

(** X11. [rehash(count)], under any probing policy and whatever the
    table held before: the table that a rehash returns has the capacity
    that [rehash] computes, no tombstone, and no two live entries with keys
    that [key_equal] identifies; every live entry of it was a live entry
    before, every key contained before is contained after, and when the
    live keys were distinct before, no entry is lost. *)
Theorem rehash_rebuilds_table
  (Key value_type : Type) (entry_key : value_type -> Key)
  (hasher : Key -> size_type) (key_equal : Key -> Key -> bool)
  (P : Type) (policy : CollisionPolicy P)
  (t t' : table value_type) (count : size_type) (fuel : nat) :
  (forall a, key_equal a a = true) ->
  (forall a b, key_equal a b = true -> key_equal b a = true) ->
  (forall a b c,
      key_equal a b = true -> key_equal b c = true -> key_equal a c = true) ->
  (forall a b, key_equal a b = true -> hasher a = hasher b) ->
  wf t -> count <= 2 ^ 62 -> t_max_size t <= 2 ^ 61 ->
  rehash (P := P) entry_key hasher key_equal fuel count t = Ok t' ->
  wf t'
  /\ max_size t' = rehash_new_size count t
  /\ count < max_size t'
  /\ size t' <= size t
  /\ no_tombstones t'
  /\ distinct_live_keys entry_key key_equal t'
  /\ (forall e, In e (live_entries t') -> In e (live_entries t))
  /\ (forall key,
         contains (P := P) entry_key hasher key_equal fuel t key = Ok true ->
         contains (P := P) entry_key hasher key_equal fuel t' key = Ok true)
  /\ (distinct_live_keys entry_key key_equal t ->
      size t' = size t
      /\ forall e, In e (live_entries t) -> In e (live_entries t')).
Proof.
  intros Hrefl Hsym Htrans Hhash Hwf Hc Hm E.
  destruct (rehash_new_size_bounds Hwf Hc Hm) as (_ & _ & Hlt).
  apply rehash_rebuilds in E; auto.
  destruct E as (Hwf' & Hmax & Hsize & Hnt & _ & Hdist & Hprov & Hkeep
                 & Hall).
  unfold max_size, size. rewrite Hmax. split_and; auto.
Qed.

Lemma rehash_rebuilds_table_witness :
  exists t t',
    Run.map_run 10 (construct 2) Run.map_wrapped = Ok t
    /\ Run.map_rehash 10 0 t = Ok t'
    /\ no_tombstones t'
    /\ max_size t' = 4.
Proof.
  pose (t := {| t_size := 1;
                t_max_size := 2;
                t_slots := [Some (7, 71); None; None; Some (3, 30)];
                t_deleted := [false; true; true; true];
                first_ind := 0 |} : table (N * N)).
  pose (t' := {| t_size := 1;
                 t_max_size := 4;
                 t_slots := [None; None; None; None; None; None; None;
                             Some (7, 71)];
                 t_deleted := [true; true; true; true; true; true; true;
                               false];
                 first_ind := 7 |} : table (N * N)).
  destruct (@rehash_rebuilds_table N (N * N) fst Run.hash_id N.eqb
              LinearProbing.t _ t t' 0 10%nat
              N.eqb_refl eqb_sym eqb_trans hash_id_compat)
    as (_ & Hmax & _ & _ & Hnt & _).
  - split; vm_compute; try reflexivity; discriminate.
  - vm_compute. discriminate.
  - vm_compute. discriminate.
  - reflexivity.
  - exists t, t'. split; [reflexivity |]. split; [reflexivity |].
    split; [exact Hnt | reflexivity].
Defined.

(** X12. [reserve(count)], under any probing policy: a call with
    [count <= 2 * size() + 2] leaves the table as it is; any other call
    rehashes it to the capacity [count + 1], and keeps every contained
    key. *)
Theorem reserve_grows_or_keeps
  (Key value_type : Type) (entry_key : value_type -> Key)
  (hasher : Key -> size_type) (key_equal : Key -> Key -> bool)
  (P : Type) (policy : CollisionPolicy P)
  (t t' : table value_type) (count : size_type) (fuel : nat) :
  (forall a, key_equal a a = true) ->
  (forall a b, key_equal a b = true -> key_equal b a = true) ->
  (forall a b c,
      key_equal a b = true -> key_equal b c = true -> key_equal a c = true) ->
  (forall a b, key_equal a b = true -> hasher a = hasher b) ->
  wf t -> count <= 2 ^ 62 -> t_max_size t <= 2 ^ 61 ->
  reserve (P := P) entry_key hasher key_equal fuel count t = Ok t' ->
  (count <= 2 * size t + 2 -> t' = t)
  /\ (2 * size t + 2 < count ->
      wf t'
      /\ max_size t' = count + 1
      /\ bucket_count t' = 2 * count + 2
      /\ no_tombstones t'
      /\ forall key,
          contains (P := P) entry_key hasher key_equal fuel t key
          = Ok true ->
          contains (P := P) entry_key hasher key_equal fuel t' key
          = Ok true).
Proof.
  intros Hrefl Hsym Htrans Hhash Hwf Hc Hm E.
  pose proof (wf_load Hwf) as Hload.
  assert (Hc' : count <= 4611686018427387904) by exact Hc.
  assert (Hm' : t_max_size t <= 2305843009213693952) by exact Hm.
  unfold reserve, size in *.
  rewrite (wrap_small (x := t_size t * 2)) in E by (unfold SIZE_MAX; lia).
  rewrite wrap_small in E by (unfold SIZE_MAX; lia).
  destruct (t_size t * 2 + 2 <? count) eqn:Ec.
  - apply N.ltb_lt in Ec. split; [lia |]. intros _.
    assert (Hnew : rehash_new_size count t = count + 1).
    { unfold rehash_new_size, size.
      destruct (count =? 0) eqn:E0; [apply N.eqb_eq in E0; lia |].
      rewrite andb_false_l.
      rewrite (wrap_small (x := t_size t * 2)) by (unfold SIZE_MAX; lia).
      destruct (count <? t_size t * 2) eqn:E1;
        [apply N.ltb_lt in E1; lia |].
      apply wrap_small. unfold SIZE_MAX. lia. }
    apply rehash_rebuilds in E; auto.
    destruct E as (Hwf' & Hmax & _ & Hnt & _ & _ & _ & Hkeep & _).
    unfold max_size, bucket_count. rewrite Hmax, Hnew.
    split_and; auto.
    rewrite wrap_small by (unfold SIZE_MAX; lia). lia.
  - apply N.ltb_ge in Ec. inversion E; subst t'.
    split; [reflexivity | lia].
Qed.

Lemma reserve_grows_or_keeps_witness :
  exists t t',
    Run.map_run 10 (construct 2) [Insert (3, 30)] = Ok t
    /\ reserve (P := LinearProbing.t) fst Run.hash_id N.eqb 10 5 t = Ok t'
    /\ max_size t' = 6.
Proof.
  pose (t := {| t_size := 1;
                t_max_size := 2;
                t_slots := [None; None; None; Some (3, 30)];
                t_deleted := [true; true; true; false];
                first_ind := 3 |} : table (N * N)).
  pose (t' := {| t_size := 1;
                 t_max_size := 6;
                 t_slots := [None; None; None; Some (3, 30); None; None;
                             None; None; None; None; None; None];
                 t_deleted := [true; true; true; false; true; true; true;
                               true; true; true; true; true];
                 first_ind := 3 |} : table (N * N)).
  destruct (@reserve_grows_or_keeps N (N * N) fst Run.hash_id N.eqb
              LinearProbing.t _ t t' 5 10%nat
              N.eqb_refl eqb_sym eqb_trans hash_id_compat)
    as (_ & Hgrow).
  - split; vm_compute; try reflexivity; discriminate.
  - vm_compute. discriminate.
  - vm_compute. discriminate.
  - reflexivity.
  - exists t, t'. split; [reflexivity |]. split; [reflexivity |].
    destruct Hgrow as (_ & Hmax & _); [vm_compute; reflexivity |].
    exact Hmax.
Defined.

(** X13. Lookups in a table without slots (a container constructed with
    the default capacity 0), under any probing policy and with any fuel:
    [find] returns [end()], [contains] false, [count] 0, and [erase(key)]
    returns 0 and leaves the table as it is, none of them probing; while
    [bucket(key)] divides by zero. *)
Theorem lookups_in_table_without_slots
  (Key value_type : Type) (entry_key : value_type -> Key)
  (hasher : Key -> size_type) (key_equal : Key -> Key -> bool)
  (P : Type) (policy : CollisionPolicy P)
  (t : table value_type) (key : Key) (fuel : nat) :
  t_slots t = [] ->
  find (P := P) entry_key hasher key_equal fuel t key = Ok (end_ t)
  /\ contains (P := P) entry_key hasher key_equal fuel t key = Ok false
  /\ count (P := P) entry_key hasher key_equal fuel t key = Ok 0
  /\ erase (P := P) entry_key hasher key_equal fuel t key = Ok (t, 0)
  /\ bucket hasher t key = Undefined.
Proof.
  intro H.
  assert (E : find (P := P) entry_key hasher key_equal fuel t key
              = Ok (end_ t)) by (apply find_no_slots; exact H).
  unfold contains, count, erase, bucket, umod. rewrite E, H. cbn [bind].
  rewrite N.eqb_refl. auto.
Qed.

Lemma lookups_in_table_without_slots_witness :
  Run.map_find 0 (construct 0) 5 = Ok 0
  /\ Run.map_erase 0 (construct 0) 5 = Ok (construct 0, 0).
Proof.
  destruct (@lookups_in_table_without_slots N (N * N) fst Run.hash_id N.eqb
              LinearProbing.t _ (construct 0) 5 0%nat)
    as (Hfind & _ & _ & Herase & _).
  - reflexivity.
  - split; [exact Hfind | exact Herase].
Defined.

(** X14. [HashMap::at] for a key that is not there, under any probing
    policy: [at] throws [std::out_of_range] in a map without slots, after
    [clear()], and after an [erase] of the key. *)
Theorem at_reports_missing_key
  (Key T : Type) (hasher : Key -> size_type)
  (key_equal : Key -> Key -> bool)
  (P : Type) (policy : CollisionPolicy P)
  (t : table (Key * T)) (key : Key) (fuel : nat) :
  (t_slots t = [] ->
   at_ (P := P) hasher key_equal fuel t key = Ok OutOfRange)
  /\ at_ (P := P) hasher key_equal (S fuel) (clear t) key = Ok OutOfRange
  /\ (forall t' n,
         erase (P := P) (@fst Key T) hasher key_equal fuel t key
         = Ok (t', n) ->
         at_ (P := P) hasher key_equal fuel t' key = Ok OutOfRange).
Proof.
  split_and.
  - intro H. unfold at_. rewrite find_no_slots by exact H. cbn [bind].
    rewrite N.eqb_refl. reflexivity.
  - unfold at_. rewrite find_find_index.
    assert (E : find_index (P := P) (@fst Key T) hasher key_equal (S fuel)
                  (clear t) key false = Ok (end_ (clear t))).
    { unfold find_index, clear, end_. cbn [t_slots t_deleted t_max_size].
      rewrite andb_true_r.
      set (m := wrap (t_max_size t * 2)).
      assert (Hm : vec_size (vec_make m (@None (Key * T))) = m).
      { unfold vec_size. rewrite vec_make_length. apply N2Nat.id. }
      rewrite Hm. unfold umod.
      destruct (m =? 0) eqn:Ez; [reflexivity |]. apply N.eqb_neq in Ez.
      cbn [bind].
      assert (Hlt : hasher key mod m < m) by (apply N.mod_lt; exact Ez).
      assert (Hs : vec_at (vec_make m (@None (Key * T))) (hasher key mod m)
                   = Ok None).
      { apply vec_at_Ok. unfold vec_make. apply nth_error_repeat_lt. lia. }
      cbn [probe_loop t_slots]. rewrite Hs. cbn [bind]. rewrite Hs.
      reflexivity. }
    rewrite E. cbn [bind]. rewrite N.eqb_refl. reflexivity.
  - intros t' n E. apply erase_find in E.
    unfold at_. rewrite E. cbn [bind]. rewrite N.eqb_refl. reflexivity.
Qed.

(** X15. [clear()], under any probing policy: after [clear()] the table
    has the capacity it had, size 0, no live entry and no tombstone; every
    lookup returns [end()], and [erase(key)] returns 0. *)
Theorem clear_empties_table
  (Key value_type : Type) (entry_key : value_type -> Key)
  (hasher : Key -> size_type) (key_equal : Key -> Key -> bool)
  (P : Type) (policy : CollisionPolicy P)
  (t : table value_type) (key : Key) (fuel : nat) :
  size (clear t) = 0
  /\ empty (clear t) = true
  /\ max_size (clear t) = max_size t
  /\ bucket_count (clear t) = bucket_count t
  /\ live_entries (clear t) = []
  /\ no_tombstones (clear t)
  /\ find (P := P) entry_key hasher key_equal (S fuel) (clear t) key
     = Ok (end_ (clear t))
  /\ contains (P := P) entry_key hasher key_equal (S fuel) (clear t) key
     = Ok false
  /\ count (P := P) entry_key hasher key_equal (S fuel) (clear t) key = Ok 0
  /\ erase (P := P) entry_key hasher key_equal (S fuel) (clear t) key
     = Ok (clear t, 0).
Proof.
  assert (E : find (P := P) entry_key hasher key_equal (S fuel) (clear t) key
              = Ok (end_ (clear t))).
  { rewrite find_find_index.
    unfold find_index, clear, end_. cbn [t_slots t_deleted t_max_size].
    rewrite andb_true_r.
    set (m := wrap (t_max_size t * 2)).
    assert (Hm : vec_size (vec_make m (@None value_type)) = m).
    { unfold vec_size. rewrite vec_make_length. apply N2Nat.id. }
    rewrite Hm. unfold umod.
    destruct (m =? 0) eqn:Ez; [reflexivity |]. apply N.eqb_neq in Ez.
    cbn [bind].
    assert (Hlt : hasher key mod m < m) by (apply N.mod_lt; exact Ez).
    assert (Hs : vec_at (vec_make m (@None value_type)) (hasher key mod m)
                 = Ok None).
    { apply vec_at_Ok. unfold vec_make. apply nth_error_repeat_lt. lia. }
    cbn [probe_loop t_slots]. rewrite Hs. cbn [bind]. rewrite Hs.
    reflexivity. }
  split_and; try reflexivity.
  - unfold live_entries, clear, vec_make. cbn [t_slots t_deleted].
    apply live_entries_fresh.
  - intros i e Hs. unfold clear, vec_make in Hs. cbn [t_slots] in Hs.
    apply nth_error_repeat_Some in Hs. discriminate.
  - exact E.
  - unfold contains. rewrite E. cbn [bind]. rewrite N.eqb_refl. reflexivity.
  - unfold count. rewrite E. cbn [bind]. rewrite N.eqb_refl. reflexivity.
  - unfold erase. rewrite E. cbn [bind]. rewrite N.eqb_refl. reflexivity.
Qed.

(** X16. [erase(first, last)] over the whole table: on a well-formed
    table whose [begin()] is its first live slot, [erase(begin(), end())]
    returns [end()] and leaves a table of size 0 with no live entry, with
    [begin() == end()], the capacity it had and every erased entry still in
    its slot as a tombstone. *)
Theorem erase_whole_range_empties_table
  (value_type : Type) (t : table value_type) (fuel : nat) :
  wf t -> first_ind_ok t -> (live_count t <= fuel)%nat ->
  exists t',
    erase_range fuel t (begin_ t) (end_ t) = Ok (t', end_ t')
    /\ wf t'
    /\ size t' = 0
    /\ live_entries t' = []
    /\ begin_ t' = end_ t'
    /\ t_slots t' = t_slots t
    /\ max_size t' = max_size t.
Proof.
  intros Hwf Hfirst Hfuel.
  destruct (@erase_range_all value_type (live_count t) fuel t eq_refl
              Hwf Hfirst Hfuel)
    as (t' & E & Hwf' & _ & Hc & Hf & Hs & Hm).
  assert (Hend : end_ t' = end_ t) by (unfold end_; congruence).
  exists t'. unfold begin_, size, max_size. rewrite Hend.
  split_and; auto.
  - rewrite (wf_size Hwf'), Hc. reflexivity.
  - unfold live_count in Hc. apply length_zero_iff_nil. exact Hc.
Qed.

Lemma erase_whole_range_empties_table_witness :
  exists t t',
    Run.map_run 10 (construct 2) [Insert (3, 30); Insert (7, 71)] = Ok t
    /\ erase_range 10 t (begin_ t) (end_ t) = Ok (t', end_ t')
    /\ size t' = 0.
Proof.
  pose (t := {| t_size := 2;
                t_max_size := 2;
                t_slots := [Some (7, 71); None; None; Some (3, 30)];
                t_deleted := [false; true; true; false];
                first_ind := 0 |} : table (N * N)).
  destruct (@erase_whole_range_empties_table (N * N) t 10%nat)
    as (t' & E & _ & Hsize & _).
  - split; vm_compute; try reflexivity; discriminate.
  - reflexivity.
  - vm_compute. lia.
  - exists t, t'. split; [reflexivity |]. split; [exact E | exact Hsize].
Defined.

Lemma at_reports_missing_key_witness :
  exists t',
    Run.map_erase 10
      {| t_size := 1;
         t_max_size := 2;
         t_slots := [None; None; None; Some (3, 30)];
         t_deleted := [true; true; true; false];
         first_ind := 3 |} 3 = Ok (t', 1)
    /\ at_ (P := LinearProbing.t) Run.hash_id N.eqb 10 t' 3 = Ok OutOfRange.
Proof.
  pose (t := {| t_size := 1;
                t_max_size := 2;
                t_slots := [None; None; None; Some (3, 30)];
                t_deleted := [true; true; true; false];
                first_ind := 3 |} : table (N * N)).
  pose (t' := {| t_size := 0;
                 t_max_size := 2;
                 t_slots := [None; None; None; Some (3, 30)];
                 t_deleted := [true; true; true; true];
                 first_ind := 4 |} : table (N * N)).
  destruct (@at_reports_missing_key N N Run.hash_id N.eqb LinearProbing.t _
              t 3 10%nat) as (_ & _ & H).
  exists t'. split; [reflexivity |]. apply (H t' 1). reflexivity.
Defined.

(** X17. [HashMap::insert_or_assign] then [HashMap::at], under any probing
    policy and in any state of the map: after [insert_or_assign(key, x)]
    the key is found at the iterator returned, and [at(key)] returns [x],
    whether the pair was added or the value was assigned to the entry
    found. *)
Theorem insert_or_assign_then_at
  (Key T : Type) (hasher : Key -> size_type)
  (key_equal : Key -> Key -> bool)
  (P : Type) (policy : CollisionPolicy P)
  (t t' : table (Key * T)) (key : Key) (x : T) (it : size_type) (b : bool)
  (fuel : nat) :
  (forall a, key_equal a a = true) ->
  wf t -> 4 * t_max_size t + 2 <= SIZE_MAX ->
  insert_or_assign (P := P) hasher key_equal fuel t key x
  = Ok (t', (it, b)) ->
  find (P := P) (@fst Key T) hasher key_equal fuel t' key = Ok it
  /\ it <> end_ t'
  /\ at_ (P := P) hasher key_equal fuel t' key = Ok (Value x)
  /\ max_size t' + 2 <= 2 * (max_size t + 2).
Proof.
  intros Hrefl Hwf Hfit E. apply insert_or_assign_inv in E.
  destruct E as (t1 & E & Hcase).
  destruct (@emplace_impl_max Key (Key * T) fst hasher key_equal P policy
              fuel t t1 (key, x) (it, b) Hwf Hfit E) as [Hwf1 Hmax1].
  apply emplace_impl_finds in E; auto. cbn [fst] in E.
  destruct E as (Hw & e & Hs & Hd & Hk & He).
  destruct (wf_vec_size Hwf1) as [Hvs _].
  assert (Hlt : it < vec_size (t_slots t1)) by (eapply vec_at_lt; eauto).
  assert (Hend : it <> end_ t1).
  { unfold end_. rewrite wrap_small by (pose proof (wf_range Hwf1); lia).
    lia. }
  destruct Hcase as [[-> ->] | (-> & e' & Hs' & ->)].
  - rewrite (He eq_refl) in Hs.
    assert (Hat : at_ (P := P) hasher key_equal fuel t1 key
                  = Ok (Value (snd (key, x))))
      by (eapply at_hit; eauto).
    split_and; auto.
    apply hit_find; [exact Hw |]. exists (key, x). auto.
  - rewrite Hs in Hs'. inversion Hs'; subst e'. clear Hs'.
    set (t' := {| t_size := t_size t1;
                  t_max_size := t_max_size t1;
                  t_slots := list_set (t_slots t1) (N.to_nat it)
                               (Some (fst e, x));
                  t_deleted := t_deleted t1;
                  first_ind := first_ind t1 |}).
    assert (Hs' : vec_at (t_slots t') it = Ok (Some (fst e, x))).
    { unfold t'. cbn [t_slots]. apply vec_at_set_same. exact Hlt. }
    assert (Hw' : probe_loop (P := P) (@fst Key T) key_equal fuel t' key
                    false
                    (policy_make (hasher key mod vec_size (t_slots t'))
                       (vec_size (t_slots t')))
                    (hasher key mod vec_size (t_slots t')) = Ok it).
    { unfold t' at 2 3 4. cbn [t_slots]. rewrite vec_size_set.
      eapply probe_loop_follow; [| | exact Hw].
      - intros j (e0 & d0 & Hs0 & Hd0 & Hc0).
        assert (Hj : it <> j).
        { intros <-. rewrite Hs in Hs0. inversion Hs0; subst e0.
          rewrite Hk in Hc0. rewrite andb_false_r in Hc0. discriminate. }
        exists e0, d0. unfold t'. cbn [t_slots t_deleted].
        rewrite vec_at_set_other by assumption. auto.
      - right. exists (fst e, x), false. cbn [fst]. rewrite Hk. auto. }
    assert (Hwf' : wf t').
    { destruct Hwf1 as [Hr Hsl Hdl Hz Hl].
      split; unfold t'; cbn [t_slots t_deleted t_max_size t_size];
        rewrite ?list_set_length; auto.
      unfold live_count, live_entries. cbn [t_slots t_deleted].
      rewrite Hz. unfold live_count, live_entries. f_equal.
      clear - Hs Hd. apply vec_at_Ok in Hs, Hd.
      revert Hs Hd. generalize (N.to_nat it) as k.
      generalize (t_deleted t1) as ds.
      induction (t_slots t1) as [| s l IH]; intros [| d ds] [| k] Hs Hd;
        simpl in *; try discriminate; auto.
      - inversion Hs; inversion Hd; subst. reflexivity.
      - destruct s; [destruct d |]; simpl; auto. }
    assert (Hat : at_ (P := P) hasher key_equal fuel t' key
                  = Ok (Value (snd (fst e, x)))).
    { eapply at_hit; eauto. }
    split_and; auto.
    apply hit_find; [exact Hw' |]. exists (fst e, x). auto.
Qed.

Lemma insert_or_assign_then_at_witness :
  exists t t',
    Run.map_run 10 (construct 2) [Insert (3, 30)] = Ok t
    /\ insert_or_assign (P := LinearProbing.t) Run.hash_id N.eqb 10 t 3 31
       = Ok (t', (3, false))
    /\ at_ (P := LinearProbing.t) Run.hash_id N.eqb 10 t' 3 = Ok (Value 31).
Proof.
  pose (t := {| t_size := 1;
                t_max_size := 2;
                t_slots := [None; None; None; Some (3, 30)];
                t_deleted := [true; true; true; false];
                first_ind := 3 |} : table (N * N)).
  pose (t' := {| t_size := 1;
                 t_max_size := 2;
                 t_slots := [None; None; None; Some (3, 31)];
                 t_deleted := [true; true; true; false];
                 first_ind := 3 |} : table (N * N)).
  destruct (@insert_or_assign_then_at N N Run.hash_id N.eqb LinearProbing.t _
              t t' 3 31 3 false 10%nat) as (_ & _ & Hat & _).
  - apply N.eqb_refl.
  - split; vm_compute; try reflexivity; discriminate.
  - vm_compute. discriminate.
  - reflexivity.
  - exists t, t'. split; [reflexivity |]. split; [reflexivity | exact Hat].
Defined.

(** X18. [HashMap::operator[]] and [HashMap::try_emplace], under any
    probing policy and in any state of the map: [try_emplace(key, x)] does
    what [emplace] does on the pair of the key and [x]; after [map[key]]
    has returned a value, the key is contained and [at(key)] returns that
    value. *)
Theorem subscript_then_at
  (Key T : Type) (hasher : Key -> size_type)
  (key_equal : Key -> Key -> bool)
  (P : Type) (policy : CollisionPolicy P)
  (default_value : T) (t t' : table (Key * T)) (key : Key) (x : T)
  (fuel : nat) :
  (forall a, key_equal a a = true) ->
  wf t -> 4 * t_max_size t + 2 <= SIZE_MAX ->
  subscript (P := P) hasher key_equal default_value fuel t key = Ok (t', x) ->
  (exists it b,
      emplace (P := P) (@fst Key T) hasher key_equal fuel t
        (key, default_value) = Ok (t', (it, b))
      /\ (b = true -> x = default_value))
  /\ contains (P := P) (@fst Key T) hasher key_equal fuel t' key = Ok true
  /\ at_ (P := P) hasher key_equal fuel t' key = Ok (Value x).
Proof.
  intros Hrefl Hwf Hfit E. unfold subscript in E.
  rewrite try_emplace_emplace in E. inv_bind E.
  destruct x0 as [t1 [it b]]. cbn beta iota in E. inv_bind E.
  inversion E; subst t1 x. clear E.
  destruct (@emplace_impl_max Key (Key * T) fst hasher key_equal P policy
              fuel t t' (key, default_value) (it, b) Hwf Hfit E0)
    as [Hwf' _].
  pose proof E0 as Hf. apply emplace_impl_finds in Hf; auto. cbn [fst] in Hf.
  destruct Hf as (Hw & e & Hs & Hd & Hk & He).
  unfold iterator_deref in E1. rewrite Hs in E1. cbn [bind] in E1.
  inversion E1; subst x0. clear E1.
  split_and.
  - exists it, b. split; [exact E0 |]. intro Hb. rewrite (He Hb). reflexivity.
  - apply finds_contains; [exact Hwf' |]. exists it. split; [exact Hw |].
    exists e. auto.
  - eapply at_hit; eauto.
Qed.

Lemma subscript_then_at_witness :
  exists t',
    subscript (P := LinearProbing.t) Run.hash_id N.eqb 0 10 (construct 2) 3
    = Ok (t', 0)
    /\ at_ (P := LinearProbing.t) Run.hash_id N.eqb 10 t' 3 = Ok (Value 0).
Proof.
  pose (t' := {| t_size := 1;
                 t_max_size := 2;
                 t_slots := [None; None; None; Some (3, 0)];
                 t_deleted := [true; true; true; false];
                 first_ind := 3 |} : table (N * N)).
  destruct (@subscript_then_at N N Run.hash_id N.eqb LinearProbing.t _
              0 (construct 2) t' 3 0 10%nat) as (_ & _ & Hat).
  - apply N.eqb_refl.
  - split; vm_compute; try reflexivity; discriminate.
  - vm_compute. discriminate.
  - reflexivity.
  - exists t'. split; [reflexivity | exact Hat].
Defined.

(** X19. [insert] under [LinearProbing]: on a well-formed table an
    insertion returns, given fuel for one walk over the grown table; the
    table it returns is well-formed, holds at most one entry more, and
    contains the key of the value. *)
Theorem linear_insert_returns
  (Key value_type : Type) (entry_key : value_type -> Key)
  (hasher : Key -> size_type) (key_equal : Key -> Key -> bool)
  (t : table value_type) (v : value_type) (fuel : nat) :
  (forall a, key_equal a a = true) ->
  wf t -> 4 * t_max_size t + 2 <= SIZE_MAX ->
  (N.to_nat (4 * t_max_size t + 6) <= fuel)%nat ->
  exists t' it b,
    insert (P := LinearProbing.t) entry_key hasher key_equal fuel t v
    = Ok (t', (it, b))
    /\ wf t'
    /\ size t' <= size t + 1
    /\ contains (P := LinearProbing.t) entry_key hasher key_equal fuel t'
         (entry_key v) = Ok true.
Proof.
  intros Hrefl Hwf Hfit Hfuel.
  destruct (@emplace_impl_total Key value_type entry_key hasher key_equal
              fuel t v Hwf Hfit Hfuel) as (t' & it & b & E).
  exists t', it, b. split; [exact E |].
  pose proof E as Hspec. apply emplace_impl_spec in Hspec; auto.
  destruct Hspec as (Hwf' & _ & Hsize & _).
  apply emplace_impl_finds in E; auto.
  destruct E as (Hw & e & Hs & Hd & Hk & _).
  split_and; auto.
  apply finds_contains; [exact Hwf' |]. exists it. split; [exact Hw |].
  exists e. auto.
Qed.

Lemma linear_insert_returns_witness :
  exists t' it b,
    Run.map_insert 14 (construct 2) (7, 70) = Ok (t', (it, b))
    /\ wf t'.
Proof.
  destruct (@linear_insert_returns N (N * N) fst Run.hash_id N.eqb
              (construct 2) (7, 70) 14%nat)
    as (t' & it & b & E & Hwf & _).
  - apply N.eqb_refl.
  - split; vm_compute; try reflexivity; discriminate.
  - vm_compute. discriminate.
  - vm_compute. lia.
  - exists t', it, b. split; [exact E | exact Hwf].
Defined.

(** X20. The constructor from a range under [LinearProbing], from
    capacity hint [n] and with [n] plus four times the length of the range
    within 2^61: with fuel for one insertion into the largest table on the
    way, which has at most that capacity, the construction returns, and
    the table contains a key exactly when a value of the range has it. *)
Theorem linear_range_construction_returns
  (Key value_type : Type) (entry_key : value_type -> Key)
  (hasher : Key -> size_type) (key_equal : Key -> Key -> bool)
  (values : list value_type) (n : size_type) (fuel : nat) :
  (forall a, key_equal a a = true) ->
  (forall a b, key_equal a b = true -> key_equal b a = true) ->
  (forall a b c,
      key_equal a b = true -> key_equal b c = true -> key_equal a c = true) ->
  (forall a b, key_equal a b = true -> hasher a = hasher b) ->
  n + 4 * N.of_nat (length values) <= 2 ^ 61 ->
  (N.to_nat (4 * (n + 4 * N.of_nat (length values)) + 6) <= fuel)%nat ->
  exists t,
    construct_range (P := LinearProbing.t) entry_key hasher key_equal fuel
      values n = Ok t
    /\ forall key,
        contains (P := LinearProbing.t) entry_key hasher key_equal fuel t key
        = Ok (existsb (fun v => key_equal (entry_key v) key) values).
Proof.
  intros Hrefl Hsym Htrans Hhash Hfit Hfuel. unfold construct_range.
  assert (Hn : 2 * n <= SIZE_MAX).
  { change (2 ^ 61) with 2305843009213693952 in Hfit. unfold SIZE_MAX. lia. }
  pose proof (@wf_construct value_type n Hn) as Hwf0.
  assert (Hsize0 : t_size (@construct value_type n) <= 0)
    by (cbn [t_size construct]; lia).
  assert (Hmax0 : t_max_size (@construct value_type n) <= n + 4 * 0)
    by (cbn [t_max_size construct]; lia).
  assert (Hbudget : n + 4 * (0 + N.of_nat (length values)) <= 2 ^ 61)
    by exact Hfit.
  destruct (@insert_range_total Key value_type entry_key hasher key_equal
              values fuel (construct n) n 0 Hwf0 Hsize0 Hmax0 Hbudget Hfuel)
    as (t & E).
  exists t. split; [exact E |].
  pose proof E as Hclean.
  apply insert_range_clean with (m0 := n) (k := 0) in Hclean; auto.
  2: apply fresh_no_tombstones.
  2: apply fresh_all_findable.
  destruct Hclean as (Hwf & Hnt & Hall & Hlive).
  pose proof E as Hfinds.
  apply insert_range_finds with (m0 := n) (k := 0) in Hfinds; auto.
  destruct Hfinds as [_ Hfinds].
  pose proof E as Hmax.
  apply insert_range_max with (m0 := n) (k := 0) in Hmax; auto.
  destruct Hmax as [_ Hmax].
  intro key.
  destruct (existsb (fun v => key_equal (entry_key v) key) values) eqn:Ex.
  - apply existsb_exists in Ex. destruct Ex as (v & Hv & Hk).
    apply finds_contains; [exact Hwf |].
    apply finds_congr with (key := entry_key v); auto.
  - rewrite clean_contains; auto; [| lia].
    f_equal.
    destruct (existsb (fun e => key_equal (entry_key e) key)
                (live_entries t)) eqn:Ex'; [| reflexivity].
    apply existsb_exists in Ex'. destruct Ex' as (e & He & Hk).
    apply Hlive in He. destruct He as [He | [(l1 & l2 & Hl & _) _]].
    + apply In_live_at in He. destruct He as (j & Hj).
      exfalso. eapply fresh_no_live; eauto.
    + assert (Ht : existsb (fun v => key_equal (entry_key v) key) values
                   = true).
      { apply existsb_exists. exists e. split; [| exact Hk].
        rewrite Hl. apply in_or_app. right. left. reflexivity. }
      congruence.
Qed.

Lemma linear_range_construction_returns_witness :
  exists t,
    construct_range (P := LinearProbing.t) fst Run.hash_id N.eqb 128
      [(1, 10); (5, 50); (1, 11)] 2 = Ok t
    /\ contains (P := LinearProbing.t) fst Run.hash_id N.eqb 128 t 5
       = Ok true
    /\ contains (P := LinearProbing.t) fst Run.hash_id N.eqb 128 t 9
       = Ok false.
Proof.
  destruct (@linear_range_construction_returns N (N * N) fst Run.hash_id
              N.eqb [(1, 10); (5, 50); (1, 11)] 2 128%nat
              N.eqb_refl eqb_sym eqb_trans hash_id_compat)
    as (t & E & Hc).
  - vm_compute. discriminate.
  - vm_compute. lia.
  - exists t. split; [exact E |]. split; [apply (Hc 5) | apply (Hc 9)].
Defined.

(** X21. [find], [contains] and [count] under [LinearProbing] in a table
    without tombstones in which every live entry is found (a table built
    by insertions only, or just rehashed): with fuel for one walk over the
    table every lookup returns, and it reports the key exactly when a live
    entry has it. *)
Theorem lookup_without_tombstones
  (Key value_type : Type) (entry_key : value_type -> Key)
  (hasher : Key -> size_type) (key_equal : Key -> Key -> bool)
  (t : table value_type) (key : Key) (fuel : nat) :
  (forall a b, key_equal a b = true -> key_equal b a = true) ->
  (forall a b c,
      key_equal a b = true -> key_equal b c = true -> key_equal a c = true) ->
  (forall a b, key_equal a b = true -> hasher a = hasher b) ->
  wf t -> no_tombstones t ->
  all_findable (P := LinearProbing.t) entry_key hasher key_equal fuel t ->
  (N.to_nat (2 * t_max_size t) < fuel)%nat ->
  let present :=
    existsb (fun e => key_equal (entry_key e) key) (live_entries t) in
  contains (P := LinearProbing.t) entry_key hasher key_equal fuel t key
  = Ok present
  /\ count (P := LinearProbing.t) entry_key hasher key_equal fuel t key
     = Ok (if present then 1 else 0)
  /\ exists it,
      find (P := LinearProbing.t) entry_key hasher key_equal fuel t key
      = Ok it
      /\ (it = end_ t <-> present = false).
Proof.
  intros Hsym Htrans Hhash Hwf Hnt Hall Hfuel present.
  assert (Hc : contains (P := LinearProbing.t) entry_key hasher key_equal
                 fuel t key = Ok present)
    by (apply clean_contains; auto).
  split; [exact Hc |].
  unfold contains in Hc. unfold count.
  destruct (find (P := LinearProbing.t) entry_key hasher key_equal fuel t
              key) as [it | |]; try discriminate.
  cbn [bind] in *. inversion Hc as [Hp].
  destruct (it =? end_ t) eqn:Ee; cbn [negb].
  - split; [reflexivity |]. exists it. split; [reflexivity |].
    apply N.eqb_eq in Ee. split; auto.
  - split; [reflexivity |]. exists it. split; [reflexivity |].
    apply N.eqb_neq in Ee. split; [contradiction | discriminate].
Qed.

Lemma lookup_without_tombstones_witness :
  contains (P := LinearProbing.t) fst Run.hash_id N.eqb 10
    {| t_size := 2;
       t_max_size := 2;
       t_slots := [None; Some (1, 10); Some (5, 50); None];
       t_deleted := [true; false; false; true];
       first_ind := 1 |} 5 = Ok true.
Proof.
  pose (t := {| t_size := 2;
                t_max_size := 2;
                t_slots := [None; Some (1, 10); Some (5, 50); None];
                t_deleted := [true; false; false; true];
                first_ind := 1 |} : table (N * N)).
  destruct (@lookup_without_tombstones N (N * N) fst Run.hash_id N.eqb
              t 5 10%nat eqb_sym eqb_trans hash_id_compat)
    as (Hc & _).
  - split; vm_compute; try reflexivity; discriminate.
  - intros i e Hs.
    destruct i as [| [| [| [| i]]]]; simpl in Hs |- *; try discriminate;
      try reflexivity.
    destruct i; discriminate.
  - intros i e [H1 H2].
    destruct i as [| [| [| [| i]]]]; simpl in H1, H2; try discriminate.
    + inversion H1; subst e. reflexivity.
    + inversion H1; subst e. reflexivity.
    + destruct i; discriminate.
  - vm_compute. lia.
  - exact Hc.
Defined.

(** X22. [operator==] under [LinearProbing]: for a well-formed left table
    whose [begin()] is its first live slot and a right table without
    tombstones in which every live entry is found, the comparison returns,
    and it is true exactly when the sizes agree and every live key of the
    left table is a live key of the right one; what is stored with the
    keys is not compared. *)
Theorem equality_compares_sizes_and_keys
  (Key value_type : Type) (entry_key : value_type -> Key)
  (hasher : Key -> size_type) (key_equal : Key -> Key -> bool)
  (lhs rhs : table value_type) (f0 fuel : nat) :
  (forall a b, key_equal a b = true -> key_equal b a = true) ->
  (forall a b c,
      key_equal a b = true -> key_equal b c = true -> key_equal a c = true) ->
  (forall a b, key_equal a b = true -> hasher a = hasher b) ->
  wf lhs -> first_ind_ok lhs ->
  wf rhs -> no_tombstones rhs ->
  all_findable (P := LinearProbing.t) entry_key hasher key_equal f0 rhs ->
  (N.to_nat (2 * t_max_size rhs) < f0)%nat ->
  (f0 + length (t_slots lhs) < fuel)%nat ->
  equal (P := LinearProbing.t) entry_key hasher key_equal fuel lhs rhs
  = Ok ((size lhs =? size rhs)
        && forallb
             (fun e =>
                existsb (fun e' => key_equal (entry_key e') (entry_key e))
                  (live_entries rhs))
             (live_entries lhs)).
Proof.
  intros Hsym Htrans Hhash Hwf Hfirst Hwfr Hnt Hall Hf0 Hfuel.
  unfold equal. destruct (size lhs =? size rhs); [| reflexivity].
  cbn [negb andb]. unfold begin_. rewrite Hfirst.
  pose proof (wf_deleted Hwf) as Hlen.
  pose proof (first_live_le (t_slots lhs) (t_deleted lhs)) as Hle.
  rewrite equal_from_spec with (f0 := f0); auto; try lia.
  - unfold live_entries at 2. rewrite <- live_entries_skip by exact Hlen.
    reflexivity.
  - pose proof (@first_live_is_live value_type (t_slots lhs) (t_deleted lhs)
                  Hlen) as Hfl.
    unfold next_live.
    set (c := first_live (t_slots lhs) (t_deleted lhs)) in *. clearbody c.
    destruct (Nat.eq_dec c (length (t_slots lhs))) as [H | H].
    + rewrite !skipn_all2 by lia. simpl. lia.
    + destruct Hfl as (e & Es & Ed); [lia |].
      rewrite (skipn_cons_nth _ _ Es), (skipn_cons_nth _ _ Ed).
      simpl. lia.
Qed.

Lemma equality_compares_sizes_and_keys_witness :
  equal (P := LinearProbing.t) fst Run.hash_id N.eqb 10
    {| t_size := 1;
       t_max_size := 2;
       t_slots := [None; None; None; Some (3, 30)];
       t_deleted := [true; true; true; false];
       first_ind := 3 |}
    {| t_size := 1;
       t_max_size := 2;
       t_slots := [None; None; None; Some (3, 31)];
       t_deleted := [true; true; true; false];
       first_ind := 3 |}
  = Ok true.
Proof.
  pose (lhs := {| t_size := 1;
                  t_max_size := 2;
                  t_slots := [None; None; None; Some (3, 30)];
                  t_deleted := [true; true; true; false];
                  first_ind := 3 |} : table (N * N)).
  pose (rhs := {| t_size := 1;
                  t_max_size := 2;
                  t_slots := [None; None; None; Some (3, 31)];
                  t_deleted := [true; true; true; false];
                  first_ind := 3 |} : table (N * N)).
  pose proof (@equality_compares_sizes_and_keys N (N * N) fst Run.hash_id
                N.eqb lhs rhs 5%nat 10%nat eqb_sym eqb_trans hash_id_compat)
    as H.
  etransitivity; [apply H |]; try reflexivity.
  - split; vm_compute; try reflexivity; discriminate.
  - split; vm_compute; try reflexivity; discriminate.
  - intros i e Hs.
    destruct i as [| [| [| [| i]]]]; simpl in Hs |- *; try discriminate;
      try reflexivity.
    destruct i; discriminate.
  - intros i e [H1 H2].
    destruct i as [| [| [| [| i]]]]; simpl in H1, H2; try discriminate.
    + inversion H1; subst e. reflexivity.
    + destruct i; discriminate.
  - vm_compute. lia.
  - vm_compute. lia.
Defined.

(** X23. [find] and [HashMap::at] in any state of the table, under any
    probing policy: an iterator that [find] returns and that is not
    [end()] points to a live slot whose entry has the key; a value that
    [at] returns is the mapped value of such an entry.  A lookup never
    returns a tombstone or an entry with another key. *)
Theorem find_returns_live_entry_with_key
  (Key T : Type) (hasher : Key -> size_type)
  (key_equal : Key -> Key -> bool)
  (P : Type) (policy : CollisionPolicy P)
  (t : table (Key * T)) (key : Key) (fuel : nat) :
  (forall it,
      find (P := P) (@fst Key T) hasher key_equal fuel t key = Ok it ->
      it <> end_ t ->
      exists e,
        live_at t (N.to_nat it) e
        /\ iterator_deref t it = Ok e
        /\ key_equal (fst e) key = true
        /\ at_ (P := P) hasher key_equal fuel t key = Ok (Value (snd e)))
  /\ (forall y,
         at_ (P := P) hasher key_equal fuel t key = Ok (Value y) ->
         exists i k,
           live_at t i (k, y) /\ key_equal k key = true).
Proof.
  assert (Hfind : forall it,
             find (P := P) (@fst Key T) hasher key_equal fuel t key = Ok it ->
             it <> end_ t ->
             exists e,
               live_at t (N.to_nat it) e
               /\ iterator_deref t it = Ok e
               /\ key_equal (fst e) key = true
               /\ at_ (P := P) hasher key_equal fuel t key
                  = Ok (Value (snd e))).
  { intros it E Hne. pose proof E as Hh. apply find_finds in Hh; auto.
    destruct Hh as (_ & e & Hs & Hd & Hk).
    exists e. split_and; auto.
    - apply vec_at_live_at; assumption.
    - unfold iterator_deref. rewrite Hs. reflexivity.
    - unfold at_. rewrite E. cbn [bind].
      apply N.eqb_neq in Hne. rewrite Hne. cbn [negb].
      unfold iterator_deref. rewrite Hs. reflexivity. }
  split; [exact Hfind |].
  intros y Hat. unfold at_ in Hat.
  destruct (find (P := P) (@fst Key T) hasher key_equal fuel t key)
    as [it | |] eqn:E; try discriminate.
  cbn [bind] in Hat.
  destruct (it =? end_ t) eqn:Ee; [discriminate |].
  apply N.eqb_neq in Ee.
  destruct (Hfind it eq_refl Ee) as (e & Hl & Hderef & Hk & _).
  cbn [negb] in Hat. rewrite Hderef in Hat. cbn [bind] in Hat.
  inversion Hat; subst y.
  exists (N.to_nat it), (fst e). destruct e as [k y]. auto.
Qed.

(** X24. [insert] in any state of the table, under any probing policy: an
    insertion adds no entry but the value, also when it rehashes the table
    on the way; the value, when reported as added, is live at the iterator
    returned; and an insertion that reports nothing added into a table
    with room leaves the table as it is. *)
Theorem insert_adds_only_the_value
  (Key value_type : Type) (entry_key : value_type -> Key)
  (hasher : Key -> size_type) (key_equal : Key -> Key -> bool)
  (P : Type) (policy : CollisionPolicy P)
  (t t' : table value_type) (v : value_type) (it : size_type) (b : bool)
  (fuel : nat) :
  (forall a, key_equal a a = true) ->
  wf t -> 4 * t_max_size t + 2 <= SIZE_MAX ->
  insert (P := P) entry_key hasher key_equal fuel t v = Ok (t', (it, b)) ->
  (forall e, In e (live_entries t') ->
             In e (live_entries t) \/ (b = true /\ e = v))
  /\ (b = true -> live_at t' (N.to_nat it) v)
  /\ (b = false -> has_room t -> t' = t)
  /\ size t' <= size t + 1
  /\ max_size t <= max_size t'.
Proof.
  intros Hrefl Hwf Hfit E. unfold insert in E.
  pose proof E as Hspec. apply emplace_impl_spec in Hspec; auto.
  destruct Hspec as (Hwf' & Hnew & Hsize & Hroom & Hfull).
  apply emplace_impl_cases in E; auto.
  destruct E as (f & t1 & -> & E & Hwf1 & Hlt1 & Hcase).
  split_and; auto.
  - intros e He. apply In_live_at in He. destruct He as (j & Hj).
    destruct (@place_live Key value_type entry_key hasher key_equal P policy
                (S f) t1 t' v it b j e E Hj) as [(Hb & _ & ->) | Hl0];
      [auto |].
    left. destruct Hcase as [[_ ->] | (_ & Hg1 & Hg2 & _ & _ & Em)].
    + eapply live_at_In; eauto.
    + apply migrate_fresh in Em; auto.
      destruct Em as (_ & _ & _ & _ & _ & Hprov & _). eauto.
  - intros -> Hr. destruct Hcase as [[_ ->] | (Htest & _)].
    + apply place_walk in E.
      destruct E as (_ & [(_ & -> & _) | (Hb & _)]);
        [reflexivity | discriminate].
    + unfold has_room in Hr. congruence.
  - unfold max_size.
    destruct (fge (load_factor t) max_load_factor) eqn:Htest.
    + rewrite (Hfull eq_refl). destruct (t_max_size t =? 0) eqn:Ez;
        [apply N.eqb_eq in Ez |]; lia.
    + rewrite (Hroom Htest). lia.
Qed.

Lemma insert_adds_only_the_value_witness :
  exists t t',
    Run.map_run 10 (construct 2) [Insert (3, 30)] = Ok t
    /\ Run.map_insert 10 t (3, 31) = Ok (t', (3, false))
    /\ t' = t.
Proof.
  pose (t := {| t_size := 1;
                t_max_size := 2;
                t_slots := [None; None; None; Some (3, 30)];
                t_deleted := [true; true; true; false];
                first_ind := 3 |} : table (N * N)).
  destruct (@insert_adds_only_the_value N (N * N) fst Run.hash_id N.eqb
              LinearProbing.t _ t t (3, 31) 3 false 10%nat)
    as (_ & _ & Hsame & _).
  - apply N.eqb_refl.
  - split; vm_compute; try reflexivity; discriminate.
  - vm_compute. discriminate.
  - reflexivity.
  - exists t, t. split; [reflexivity |]. split; [reflexivity |].
    apply Hsame; reflexivity.
Defined.

Lemma find_returns_live_entry_with_key_witness :
  exists e,
    live_at
      {| t_size := 1;
         t_max_size := 2;
         t_slots := [Some (7, 71); None; None; Some (3, 30)];
         t_deleted := [false; true; true; true];
         first_ind := 0 |} 0 e
    /\ fst e = 7.
Proof.
  pose (t := {| t_size := 1;
                t_max_size := 2;
                t_slots := [Some (7, 71); None; None; Some (3, 30)];
                t_deleted := [false; true; true; true];
                first_ind := 0 |} : table (N * N)).
  destruct (@find_returns_live_entry_with_key N N Run.hash_id N.eqb
              LinearProbing.t _ t 7 10%nat) as [Hfind _].
  destruct (Hfind 0) as (e & Hl & _ & Hk & _).
  - reflexivity.
  - vm_compute. discriminate.
  - exists e. split; [exact Hl |]. apply N.eqb_eq. exact Hk.
Defined.
